(** * mcu-max: a shallow embedding of the engine of [src/mcu-max.c]

    The engine keeps one process-wide [mcumax_struct]; here it is an explicit
    value threaded through every operation.  Integers are [Z]; every store to
    a [uint8_t], [int8_t] or [uint32_t] object is followed by the
    corresponding wrap-around ([u8], [s8], [u32]); arithmetic inside an
    expression is done on [Z], as C does it on the promoted [int].  The
    [int32_t] scores are plain [Z]: C leaves signed overflow undefined, so
    the model is exact on the executions C defines.  The build modelled is
    the default one, without [MCUMAX_HASHING_ENABLED]. *)

From Stdlib Require Import ZArith Lia Bool List String Ascii.
From Stdlib Require Import DecimalString Sorted.
From stdpp Require Import base list.
Import ListNotations.
Local Open Scope Z_scope.

(** ** Machine integers *)

Definition u8 (x : Z) : Z := x mod 256.
Definition s8 (x : Z) : Z := (x + 128) mod 256 - 128.
Definition u32 (x : Z) : Z := x mod 4294967296.

(** C truth values: [b2z] is the [int] a comparison yields, [nz] the test
    an [if], [&&], [||] or [!] applies to an integer. *)
Definition b2z (b : bool) : Z := if b then 1 else 0.
Definition nz (x : Z) : bool := negb (x =? 0).

(** ** Constants *)

Definition MCUMAX_BOARD_MASK : Z := 0x88.
Definition MCUMAX_BOARD_WHITE : Z := 0x8.
Definition MCUMAX_BOARD_BLACK : Z := 0x10.
Definition MCUMAX_PIECE_MOVED : Z := 0x20.
Definition MCUMAX_SCORE_MAX : Z := 8000.
Definition MCUMAX_DEPTH_MAX : Z := 99.
Definition MCUMAX_SQUARE_INVALID : Z := 0x80.

Definition MCUMAX_EMPTY : Z := 0.
Definition MCUMAX_PAWN_UPSTREAM : Z := 1.
Definition MCUMAX_PAWN_DOWNSTREAM : Z := 2.
Definition MCUMAX_KNIGHT : Z := 3.
Definition MCUMAX_KING : Z := 4.
Definition MCUMAX_BISHOP : Z := 5.
Definition MCUMAX_ROOK : Z := 6.
Definition MCUMAX_QUEEN : Z := 7.
Definition MCUMAX_BLACK : Z := 0x8.

Inductive mcumax_mode : Type :=
| MCUMAX_INTERNAL_NODE
| MCUMAX_SEARCH_VALID_MOVES
| MCUMAX_SEARCH_BEST_MOVE
| MCUMAX_PLAY_MOVE.

Definition mode_eqb (a b : mcumax_mode) : bool :=
  match a, b with
  | MCUMAX_INTERNAL_NODE, MCUMAX_INTERNAL_NODE
  | MCUMAX_SEARCH_VALID_MOVES, MCUMAX_SEARCH_VALID_MOVES
  | MCUMAX_SEARCH_BEST_MOVE, MCUMAX_SEARCH_BEST_MOVE
  | MCUMAX_PLAY_MOVE, MCUMAX_PLAY_MOVE => true
  | _, _ => false
  end.

Definition mcumax_capture_values : list Z := [0; 2; 2; 7; -1; 8; 12; 23].

Definition mcumax_step_vectors_indices : list Z := [0; 7; -1; 11; 6; 8; 3; 6].

Definition mcumax_step_vectors : list Z :=
  [ -16; -15; -17; 0;      (* upstream pawn *)
    1; 16; 0;              (* rook *)
    1; 16; 15; 17; 0;      (* king, queen *)
    14; 18; 31; 33; 0 ].   (* knight *)

Definition mcumax_board_setup : list Z :=
  [MCUMAX_ROOK; MCUMAX_KNIGHT; MCUMAX_BISHOP; MCUMAX_QUEEN;
   MCUMAX_KING; MCUMAX_BISHOP; MCUMAX_KNIGHT; MCUMAX_ROOK].

(** Reading a constant table at a C index. *)
Definition table (t : list Z) (i : Z) : Z := nth (Z.to_nat i) t 0.

(** ** Moves and the engine state *)

Record mcumax_move : Type := Move { from : Z; to : Z }.

Definition MCUMAX_MOVE_INVALID : mcumax_move :=
  Move MCUMAX_SQUARE_INVALID MCUMAX_SQUARE_INVALID.

Definition move_eqb (a b : mcumax_move) : bool :=
  (from a =? from b) && (to a =? to b).

(** The C struct [mcumax_struct].  [board] has [0x80 + 1] cells; the cell
    [0x80] is the dummy the search writes when a move has no rook or no
    skipped square.  The user callback can, per the header, call
    [mcumax_stop_search]: it is modelled by the answer to "does it ask to
    stop", given [user_data].  The caller's move buffer is the list of its
    cells ([NULL] is the empty list). *)
Module mcumax.
Record t : Type := Build {
  board : list Z;
  current_side : Z;
  score : Z;
  en_passant_square : Z;
  non_pawn_material : Z;
  square_from : Z;
  square_to : Z;
  node_count : Z;
  node_max : Z;
  depth_max : Z;
  stop_search : bool;
  user_callback : option (Z -> bool);
  user_data : Z;
  valid_moves_buffer : list mcumax_move;
  valid_moves_buffer_size : Z;
  valid_moves_num : Z
}.

Definition set_board (v : list Z) (s : t) : t :=
  Build v (current_side s) (score s) (en_passant_square s)
    (non_pawn_material s) (square_from s) (square_to s) (node_count s)
    (node_max s) (depth_max s) (stop_search s) (user_callback s)
    (user_data s) (valid_moves_buffer s) (valid_moves_buffer_size s)
    (valid_moves_num s).
Definition set_current_side (v : Z) (s : t) : t :=
  Build (board s) v (score s) (en_passant_square s)
    (non_pawn_material s) (square_from s) (square_to s) (node_count s)
    (node_max s) (depth_max s) (stop_search s) (user_callback s)
    (user_data s) (valid_moves_buffer s) (valid_moves_buffer_size s)
    (valid_moves_num s).
Definition set_score (v : Z) (s : t) : t :=
  Build (board s) (current_side s) v (en_passant_square s)
    (non_pawn_material s) (square_from s) (square_to s) (node_count s)
    (node_max s) (depth_max s) (stop_search s) (user_callback s)
    (user_data s) (valid_moves_buffer s) (valid_moves_buffer_size s)
    (valid_moves_num s).
Definition set_en_passant_square (v : Z) (s : t) : t :=
  Build (board s) (current_side s) (score s) v
    (non_pawn_material s) (square_from s) (square_to s) (node_count s)
    (node_max s) (depth_max s) (stop_search s) (user_callback s)
    (user_data s) (valid_moves_buffer s) (valid_moves_buffer_size s)
    (valid_moves_num s).
Definition set_non_pawn_material (v : Z) (s : t) : t :=
  Build (board s) (current_side s) (score s) (en_passant_square s)
    v (square_from s) (square_to s) (node_count s)
    (node_max s) (depth_max s) (stop_search s) (user_callback s)
    (user_data s) (valid_moves_buffer s) (valid_moves_buffer_size s)
    (valid_moves_num s).
Definition set_square_from (v : Z) (s : t) : t :=
  Build (board s) (current_side s) (score s) (en_passant_square s)
    (non_pawn_material s) v (square_to s) (node_count s)
    (node_max s) (depth_max s) (stop_search s) (user_callback s)
    (user_data s) (valid_moves_buffer s) (valid_moves_buffer_size s)
    (valid_moves_num s).
Definition set_square_to (v : Z) (s : t) : t :=
  Build (board s) (current_side s) (score s) (en_passant_square s)
    (non_pawn_material s) (square_from s) v (node_count s)
    (node_max s) (depth_max s) (stop_search s) (user_callback s)
    (user_data s) (valid_moves_buffer s) (valid_moves_buffer_size s)
    (valid_moves_num s).
Definition set_node_count (v : Z) (s : t) : t :=
  Build (board s) (current_side s) (score s) (en_passant_square s)
    (non_pawn_material s) (square_from s) (square_to s) v
    (node_max s) (depth_max s) (stop_search s) (user_callback s)
    (user_data s) (valid_moves_buffer s) (valid_moves_buffer_size s)
    (valid_moves_num s).
Definition set_node_max (v : Z) (s : t) : t :=
  Build (board s) (current_side s) (score s) (en_passant_square s)
    (non_pawn_material s) (square_from s) (square_to s) (node_count s)
    v (depth_max s) (stop_search s) (user_callback s)
    (user_data s) (valid_moves_buffer s) (valid_moves_buffer_size s)
    (valid_moves_num s).
Definition set_depth_max (v : Z) (s : t) : t :=
  Build (board s) (current_side s) (score s) (en_passant_square s)
    (non_pawn_material s) (square_from s) (square_to s) (node_count s)
    (node_max s) v (stop_search s) (user_callback s)
    (user_data s) (valid_moves_buffer s) (valid_moves_buffer_size s)
    (valid_moves_num s).
Definition set_stop_search (v : bool) (s : t) : t :=
  Build (board s) (current_side s) (score s) (en_passant_square s)
    (non_pawn_material s) (square_from s) (square_to s) (node_count s)
    (node_max s) (depth_max s) v (user_callback s)
    (user_data s) (valid_moves_buffer s) (valid_moves_buffer_size s)
    (valid_moves_num s).
Definition set_callback (cb : option (Z -> bool)) (d : Z) (s : t) : t :=
  Build (board s) (current_side s) (score s) (en_passant_square s)
    (non_pawn_material s) (square_from s) (square_to s) (node_count s)
    (node_max s) (depth_max s) (stop_search s) cb
    d (valid_moves_buffer s) (valid_moves_buffer_size s)
    (valid_moves_num s).
Definition set_valid_moves_buffer (v : list mcumax_move) (s : t) : t :=
  Build (board s) (current_side s) (score s) (en_passant_square s)
    (non_pawn_material s) (square_from s) (square_to s) (node_count s)
    (node_max s) (depth_max s) (stop_search s) (user_callback s)
    (user_data s) v (valid_moves_buffer_size s)
    (valid_moves_num s).
Definition set_valid_moves_buffer_size (v : Z) (s : t) : t :=
  Build (board s) (current_side s) (score s) (en_passant_square s)
    (non_pawn_material s) (square_from s) (square_to s) (node_count s)
    (node_max s) (depth_max s) (stop_search s) (user_callback s)
    (user_data s) (valid_moves_buffer s) v
    (valid_moves_num s).
Definition set_valid_moves_num (v : Z) (s : t) : t :=
  Build (board s) (current_side s) (score s) (en_passant_square s)
    (non_pawn_material s) (square_from s) (square_to s) (node_count s)
    (node_max s) (depth_max s) (stop_search s) (user_callback s)
    (user_data s) (valid_moves_buffer s) (valid_moves_buffer_size s)
    v.
End mcumax.

(** [mcumax.board[i]] and [mcumax.board[i] = v]; the stored value is cut to
    eight bits.  Past the end of the array the model reads 0 and writes
    nothing (C leaves both undefined).  The code guards every index that
    could be negative by the 0x88 test before it uses it. *)
Definition board_get (s : mcumax.t) (i : Z) : Z :=
  default 0 (mcumax.board s !! Z.to_nat i).

Definition board_put (i v : Z) (s : mcumax.t) : mcumax.t :=
  mcumax.set_board (<[Z.to_nat i := u8 v]> (mcumax.board s)) s.

(** [mcumax.current_side ^= 0x18] *)
Definition change_side (s : mcumax.t) : mcumax.t :=
  mcumax.set_current_side (u8 (Z.lxor (mcumax.current_side s) 0x18)) s.

(** ** The recursive search [mcumax_search]

    The C function is one body with four nested loops, two labels ([replay],
    [cutoff]) and three [return]s.  Each loop is a function on a fuel
    counter; the recursive calls go through [rec], which [mcumax_search]
    instantiates with itself at smaller fuel.  [None] means the fuel ran
    out. *)

Definition search_fn : Type :=
  Z -> Z -> Z -> Z -> Z -> mcumax_mode -> mcumax.t -> option (Z * mcumax.t).

(** The locals that live across the loops of one invocation. *)
Record iter_vars : Type := Iter {
  iter_depth : Z;
  iter_score : Z;
  iter_square_from : Z;
  iter_square_to : Z;
  replay_move : Z
}.

Definition set_iter_depth (x : Z) (v : iter_vars) : iter_vars :=
  Iter x (iter_score v) (iter_square_from v) (iter_square_to v) (replay_move v).
Definition set_iter_score (x : Z) (v : iter_vars) : iter_vars :=
  Iter (iter_depth v) x (iter_square_from v) (iter_square_to v) (replay_move v).
Definition set_iter_best (sc f t : Z) (v : iter_vars) : iter_vars :=
  Iter (iter_depth v) sc f t (replay_move v).
Definition set_replay_move (x : Z) (v : iter_vars) : iter_vars :=
  Iter (iter_depth v) (iter_score v) (iter_square_from v) (iter_square_to v) x.

(** How a loop of the body ends: by falling through, by [goto cutoff], by
    [return], or by lack of fuel. *)
Inductive outcome : Type :=
| Next (v : iter_vars) (s : mcumax.t)
| Cutoff (v : iter_vars) (s : mcumax.t)
| Return (r : Z) (s : mcumax.t)
| Fuel.

(** The first half of one step on a ray, up to "Abort on fail high". *)
Inductive probe : Type :=
| ProbeBreak (v : iter_vars)
| ProbeCutoff (v : iter_vars)
| ProbeMove (capture_square capture_piece capture_piece_value : Z)
            (v : iter_vars).

(** One pass through the body of the ray loop. *)
Inductive step : Type :=
| StepBreak (v : iter_vars) (s : mcumax.t)
| StepCutoff (v : iter_vars) (s : mcumax.t)
| StepReturn (r : Z) (s : mcumax.t)
| StepReplay (v : iter_vars) (s : mcumax.t)
| StepNext (square_to castling_skip_square castling_rook_square
            capture_piece : Z) (v : iter_vars) (s : mcumax.t)
| StepFuel.

Section Search.
Variable rec : search_fn.
(** [alpha] and [beta] are the window after the delay-bonus adjustment. *)
Variables (alpha beta score en_passant_square : Z) (mode : mcumax_mode).

(** "Sneak in previous best move": the square the step goes to. *)
Definition ray_target (step_vector square_to : Z) (v : iter_vars) : Z :=
  if nz (replay_move v)
  then u8 (Z.lxor (iter_square_to v) (replay_move v))
  else u8 (square_to + step_vector).

Definition ray_probe (s : mcumax.t) (square_from scan_piece_type square_to : Z)
    (v : iter_vars) : probe :=
  (* Board edge hit *)
  if nz (Z.land square_to MCUMAX_BOARD_MASK) then ProbeBreak v else
  (* Bad castling *)
  let v :=
    if negb (en_passant_square =? MCUMAX_SQUARE_INVALID)
       && nz (board_get s en_passant_square)
       && (square_to - en_passant_square <? 2)
       && (en_passant_square - square_to <? 2)
    then set_iter_score MCUMAX_SCORE_MAX v else v in
  (* Shift capture square if en-passant *)
  let capture_square :=
    if (scan_piece_type <? 3) && (square_to =? en_passant_square)
    then u8 (Z.lxor square_to 16) else square_to in
  let capture_piece := board_get s capture_square in
  (* Capture own, bad pawn mode *)
  if nz (Z.land capture_piece (mcumax.current_side s))
     || ((scan_piece_type <? 3)
         && nz (b2z (negb (nz (Z.land (square_to - square_from) 7)))
                - b2z (negb (nz capture_piece))))
  then ProbeBreak v else
  (* Value of captured piece *)
  let capture_piece_value :=
    37 * table mcumax_capture_values (Z.land capture_piece 7)
    + Z.land capture_piece 0xc0 in
  (* King capture *)
  let v :=
    if capture_piece_value <? 0
    then set_iter_depth (u8 (MCUMAX_DEPTH_MAX - 1))
           (set_iter_score MCUMAX_SCORE_MAX v)
    else v in
  (* Abort on fail high *)
  if (iter_score v >=? beta) && (iter_depth v >? 1) then ProbeCutoff v
  else ProbeMove capture_square capture_piece capture_piece_value v.

(** "Do move": the board writes and the static score of the move.  Returns
    the new state, [step_score] and the updated [capture_piece_value]. *)
Definition make_move (s : mcumax.t)
    (square_from square_to scan_piece scan_piece_type step_vector : Z)
    (capture_square capture_piece_value : Z)
    (castling_skip_square castling_rook_square : Z) : mcumax.t * Z * Z :=
  (* Center positional score *)
  let step_score :=
    if scan_piece_type <? 6
    then board_get s (square_from + 0x8) - board_get s (square_to + 0x8)
    else 0 in
  let s := board_put castling_rook_square 0
             (board_put capture_square 0 (board_put square_from 0 s)) in
  (* Do move, set non-virgin *)
  let s := board_put square_to (Z.lor scan_piece MCUMAX_PIECE_MOVED) s in
  (* Castling: put rook & score *)
  let '(s, step_score) :=
    if negb (nz (Z.land castling_rook_square MCUMAX_BOARD_MASK))
    then (board_put castling_skip_square (mcumax.current_side s + 6) s,
          step_score + 50)
    else (s, step_score) in
  (* Freeze king in mid-game *)
  let step_score :=
    step_score - (if negb (scan_piece_type =? 4)
                     || (mcumax.non_pawn_material s >? 30)
                  then 0 else 20) in
  (* Pawns *)
  let '(s, step_score, capture_piece_value) :=
    if scan_piece_type <? 3 then
      let step_score :=
        step_score
        - (9 * (b2z (nz (Z.land (square_from - 2) MCUMAX_BOARD_MASK)
                     || nz (board_get s (square_from - 2) - scan_piece))
                + b2z (nz (Z.land (square_from + 2) MCUMAX_BOARD_MASK)
                       || nz (board_get s (square_from + 2) - scan_piece))
                - 1
                + b2z (board_get s (Z.lxor square_from 0x10)
                       =? mcumax.current_side s + 36))
           - Z.shiftr (mcumax.non_pawn_material s) 2) in
      (* Promotion / passer bonus *)
      let step_alpha :=
        if nz (Z.land (square_to + step_vector + 1) MCUMAX_SQUARE_INVALID)
        then 647 - scan_piece_type
        else 2 * Z.land (Z.land scan_piece (square_to + 0x10)) 0x20 in
      (* Upgrade pawn or convert to queen *)
      (board_put square_to (board_get s square_to + step_alpha) s,
       step_score, capture_piece_value + step_alpha)
    else (s, step_score, capture_piece_value) in
  (* New score *)
  (s, (step_score + (score + capture_piece_value)), capture_piece_value).

(** "New depth, reduce non-capture" and "Extend 1 ply if in check". *)
Definition new_depth (s : mcumax.t) (scan_piece_type capture_piece : Z)
    (null_move_score : Z) (v : iter_vars) : Z :=
  let step_depth :=
    u8 (iter_depth v - 1
        - b2z ((iter_depth v >? 5) && (scan_piece_type >? 2)
               && negb (nz capture_piece) && negb (nz (replay_move v)))) in
  if negb ((mcumax.non_pawn_material s >? 30)
           || nz (null_move_score - MCUMAX_SCORE_MAX)
           || (iter_depth v <? 3)
           || (nz capture_piece && negb (scan_piece_type =? 4)))
  then iter_depth v else step_depth.

(** "Futility, recursive evaluation of reply": the [do ... while] around
    the recursive call.  Returns [step_score_new]. *)
Fixpoint futility (n : nat) (iter_depth step_alpha step_score : Z)
    (castling_skip_square step_depth : Z) (s : mcumax.t)
    : option (Z * mcumax.t) :=
  match n with
  | O => None
  | S n' =>
    let s := change_side s in
    let r :=
      if mode_eqb mode MCUMAX_SEARCH_VALID_MOVES
         || (step_depth >? 2) || (step_score >? step_alpha)
      then
        match rec ((- beta)) ((- step_alpha)) ((- step_score))
                  castling_skip_square step_depth MCUMAX_INTERNAL_NODE s with
        | Some (r, s) => Some ((- r), s)
        | None => None
        end
      else Some (step_score, s) in
    match r with
    | None => None
    | Some (step_score_new, s) =>
      let s := change_side s in
      if step_score_new >? alpha then
        let step_depth := u8 (step_depth + 1) in
        if step_depth <? iter_depth
        then futility n' iter_depth step_alpha step_score
               castling_skip_square step_depth s
        else Some (step_score_new, s)
      else Some (step_score_new, s)
    end
  end.

(** "Playing move": the commit of [MCUMAX_PLAY_MOVE]. *)
Definition commit_move (capture_piece_value castling_skip_square : Z)
    (s : mcumax.t) : mcumax.t :=
  let s := mcumax.set_score ((- score - capture_piece_value)) s in
  let s := mcumax.set_en_passant_square castling_skip_square s in
  let s := mcumax.set_non_pawn_material
             ((mcumax.non_pawn_material s
                   + Z.shiftr capture_piece_value 7)) s in
  change_side s.

(** "Undo move" *)
Definition undo_move (square_from square_to scan_piece : Z)
    (capture_square capture_piece : Z)
    (castling_skip_square castling_rook_square : Z) (s : mcumax.t)
    : mcumax.t :=
  let s := board_put castling_rook_square (mcumax.current_side s + 6) s in
  let s := board_put castling_skip_square 0 (board_put square_to 0 s) in
  let s := board_put square_from scan_piece s in
  board_put capture_square capture_piece s.

(** "Searching valid moves": count the move, store it if it fits. *)
Definition record_move (square_from square_to : Z) (s : mcumax.t)
    : mcumax.t :=
  let s :=
    if mcumax.valid_moves_num s <? mcumax.valid_moves_buffer_size s
    then mcumax.set_valid_moves_buffer
           (<[Z.to_nat (mcumax.valid_moves_num s)
              := Move square_from square_to]>
              (mcumax.valid_moves_buffer s)) s
    else s in
  mcumax.set_valid_moves_num (u32 (mcumax.valid_moves_num s + 1)) s.

Definition is_callers_move (square_from square_to : Z) (s : mcumax.t)
    : bool :=
  (square_from =? mcumax.square_from s) && (square_to =? mcumax.square_to s).

(** The end of the step: "New best", the jump back to [replay], and the
    test that decides whether the ray goes on ("Not first step, moved
    before", which also finds the castling rook). *)
Definition ray_post (s : mcumax.t)
    (square_from scan_piece scan_piece_type step_vector step_vector_index : Z)
    (square_to castling_skip_square castling_rook_square : Z)
    (capture_piece step_score : Z) (v : iter_vars) : step :=
  let v :=
    if step_score >? iter_score v
    then set_iter_best step_score square_from
           (u8 (Z.lor square_to
                  (Z.land castling_skip_square MCUMAX_SQUARE_INVALID))) v
    else v in
  if nz (replay_move v) then StepReplay (set_replay_move 0 v) s else
  let fake := u8 (capture_piece + b2z (scan_piece_type <? 5)) in
  if nz (square_from + step_vector - square_to)
     || nz (Z.land scan_piece MCUMAX_PIECE_MOVED)
  then StepNext square_to castling_skip_square castling_rook_square fake v s
  else if scan_piece_type >? 2 then
    if negb (scan_piece_type =? 4) || negb (step_vector_index =? 7)
    then StepNext square_to castling_skip_square castling_rook_square
           fake v s
    else
      let castling_rook_square :=
        u8 (Z.lxor (square_from + 3)
              (Z.land (Z.shiftr step_vector 1) 7)) in
      if nz (board_get s castling_rook_square
             - mcumax.current_side s - 6)
         || nz (board_get s (Z.lxor castling_rook_square 1))
         || nz (board_get s (Z.lxor castling_rook_square 2))
      then StepNext square_to castling_skip_square castling_rook_square
             fake v s
      else StepNext square_to square_to castling_rook_square
             capture_piece v s
  else StepNext square_to square_to castling_rook_square capture_piece v s.

Definition ray_step (n : nat) (null_move_score : Z)
    (square_from scan_piece scan_piece_type step_vector step_vector_index : Z)
    (square_to castling_skip_square castling_rook_square : Z)
    (v : iter_vars) (s : mcumax.t) : step :=
  let square_to := ray_target step_vector square_to v in
  match ray_probe s square_from scan_piece_type square_to v with
  | ProbeBreak v => StepBreak v s
  | ProbeCutoff v => StepCutoff v s
  | ProbeMove capture_square capture_piece capture_piece_value v =>
    (* MVV/LVA scoring if depth == 1 *)
    let step_score :=
      if negb (iter_depth v =? 1) then score
      else capture_piece_value - scan_piece_type in
    (* All captures if depth == 2 *)
    if iter_depth v - b2z (negb (nz capture_piece)) >? 1 then
      let '(s1, step_score, capture_piece_value) :=
        make_move s square_from square_to scan_piece scan_piece_type
          step_vector capture_square capture_piece_value
          castling_skip_square castling_rook_square in
      let step_alpha :=
        if iter_score v >? alpha then iter_score v else alpha in
      let step_depth :=
        new_depth s1 scan_piece_type capture_piece null_move_score v in
      match futility n (iter_depth v) step_alpha step_score
              castling_skip_square step_depth s1 with
      | None => StepFuel
      | Some (step_score, s2) =>
        if mode_eqb mode MCUMAX_PLAY_MOVE
           && negb (step_score =? - MCUMAX_SCORE_MAX)
           && is_callers_move square_from square_to s2
        then StepReturn beta
               (commit_move capture_piece_value castling_skip_square s2)
        else
          let s3 :=
            undo_move square_from square_to scan_piece capture_square
              capture_piece castling_skip_square castling_rook_square s2 in
          if mode_eqb mode MCUMAX_SEARCH_BEST_MOVE
             && negb (step_score =? - MCUMAX_SCORE_MAX)
             && is_callers_move square_from square_to s3
          then StepReturn beta s3
          else
            let s4 :=
              if mode_eqb mode MCUMAX_SEARCH_VALID_MOVES
                 && negb (step_score =? - MCUMAX_SCORE_MAX)
                 && (mcumax.square_from s3 =? MCUMAX_SQUARE_INVALID)
                 && (iter_depth v =? 3)
                 && negb (nz (replay_move v))
              then record_move square_from square_to s3 else s3 in
            ray_post s4 square_from scan_piece scan_piece_type step_vector
              step_vector_index square_to castling_skip_square
              castling_rook_square capture_piece step_score v
      end
    else
      ray_post s square_from scan_piece scan_piece_type step_vector
        step_vector_index square_to castling_skip_square
        castling_rook_square capture_piece step_score v
  end.

(** The ray loop ([replay:] and the [do ... while (!capture_piece)]). *)
Fixpoint ray_loop (n : nat) (null_move_score : Z)
    (square_from scan_piece scan_piece_type step_vector step_vector_index : Z)
    (square_to castling_skip_square castling_rook_square : Z)
    (v : iter_vars) (s : mcumax.t) : outcome :=
  match n with
  | O => Fuel
  | S n' =>
    match ray_step n' null_move_score square_from scan_piece scan_piece_type
            step_vector step_vector_index square_to castling_skip_square
            castling_rook_square v s with
    | StepBreak v s => Next v s
    | StepCutoff v s => Cutoff v s
    | StepReturn r s => Return r s
    | StepFuel => Fuel
    | StepReplay v s =>
      ray_loop n' null_move_score square_from scan_piece scan_piece_type
        step_vector step_vector_index square_from MCUMAX_SQUARE_INVALID
        MCUMAX_SQUARE_INVALID v s
    | StepNext square_to castling_skip_square castling_rook_square
               capture_piece v s =>
      if nz capture_piece then Next v s
      else ray_loop n' null_move_score square_from scan_piece
             scan_piece_type step_vector step_vector_index square_to
             castling_skip_square castling_rook_square v s
    end
  end.

(** "Loop over directions o[]" *)
Fixpoint dir_loop (n : nat) (null_move_score : Z)
    (square_from scan_piece scan_piece_type : Z)
    (step_vector step_vector_index : Z)
    (v : iter_vars) (s : mcumax.t) : outcome :=
  match n with
  | O => Fuel
  | S n' =>
    let '(step_vector, step_vector_index) :=
      if (scan_piece_type >? 2) && (step_vector <? 0)
      then (s8 (- step_vector), step_vector_index)
      else (s8 (- table mcumax_step_vectors (s8 (step_vector_index + 1))),
            s8 (step_vector_index + 1)) in
    if nz step_vector then
      match ray_loop n' null_move_score square_from scan_piece
              scan_piece_type step_vector step_vector_index square_from
              MCUMAX_SQUARE_INVALID MCUMAX_SQUARE_INVALID v s with
      | Next v s =>
        dir_loop n' null_move_score square_from scan_piece scan_piece_type
          step_vector step_vector_index v s
      | o => o
      end
    else Next v s
  end.

(** "Scan board looking for own piece" *)
Fixpoint scan_loop (n : nat) (null_move_score square_start square_from : Z)
    (v : iter_vars) (s : mcumax.t) : outcome :=
  match n with
  | O => Fuel
  | S n' =>
    let scan_piece := board_get s square_from in
    let o :=
      if nz (Z.land scan_piece (mcumax.current_side s)) then
        let scan_piece_type := Z.land scan_piece 7 in
        dir_loop n' null_move_score square_from scan_piece scan_piece_type
          (s8 scan_piece_type)
          (table mcumax_step_vectors_indices scan_piece_type) v s
      else Next v s in
    match o with
    | Next v s =>
      let square_from :=
        u8 (Z.land (square_from + 9) (Z.lnot MCUMAX_BOARD_MASK)) in
      if negb (square_from =? square_start)
      then scan_loop n' null_move_score square_start square_from v s
      else Next v s
    | o => o
    end
  end.

(** The condition of the iterative-deepening [while], with its side
    effects on [iter_depth] and on the caller's move slots. *)
Definition iter_cond (depth : Z) (v : iter_vars) (s : mcumax.t)
    : bool * iter_vars * mcumax.t :=
  let v1 := set_iter_depth (u8 (iter_depth v + 1)) v in
  if iter_depth v <? depth then (true, v1, s)
  else if iter_depth v1 <? 3 then (true, v1, s)
  else if negb (mode_eqb mode MCUMAX_INTERNAL_NODE)
          && (mcumax.square_from s =? MCUMAX_SQUARE_INVALID) then
    if (mcumax.node_count s <? mcumax.node_max s)
       && (iter_depth v1 <=? mcumax.depth_max s)
    then (true, v1, s)
    else (true, set_iter_depth 3 v1,
          mcumax.set_square_to
            (u8 (Z.land (iter_square_to v1) (Z.lnot MCUMAX_BOARD_MASK)))
            (mcumax.set_square_from (iter_square_from v1) s))
  else (false, v1, s).

(** "Delayed-loss bonus": the value returned after the loop. *)
Definition final_score (v : iter_vars) : Z :=
  (iter_score v + b2z (iter_score v <? score)).

(** "Search null move", between the two side changes. *)
Definition null_move (v : iter_vars) (s : mcumax.t) : option (Z * mcumax.t) :=
  let s := change_side s in
  let r :=
    if (iter_depth v >? 2) && negb (beta =? - MCUMAX_SCORE_MAX)
    then rec ((- beta)) ((1 - beta)) ((- score))
           MCUMAX_SQUARE_INVALID (u8 (iter_depth v - 3))
           MCUMAX_INTERNAL_NODE s
    else Some (MCUMAX_SCORE_MAX, s) in
  match r with
  | Some (null_move_score, s) => Some (null_move_score, change_side s)
  | None => None
  end.

(** "Prune if > beta unconsidered:static eval" *)
Definition seed_score (null_move_score : Z) (v : iter_vars) (s : mcumax.t)
    : Z :=
  if (- null_move_score <? beta) || (mcumax.non_pawn_material s >? 35)
  then (if nz (iter_depth v - 2) then - MCUMAX_SCORE_MAX else score)
  else (- null_move_score).

(** "Check test thru NM best loses king: (stale)mate" *)
Definition mate_test (null_move_score : Z) (v : iter_vars) : iter_vars :=
  if (iter_score v =? - MCUMAX_SCORE_MAX)
     && negb (null_move_score =? MCUMAX_SCORE_MAX)
  then set_iter_score 0 v else v.

Fixpoint iter_loop (n : nat) (depth : Z) (v : iter_vars) (s : mcumax.t)
    : option (Z * mcumax.t) :=
  match n with
  | O => None
  | S n' =>
    let '(go, v, s) := iter_cond depth v s in
    if negb go then Some (final_score v, s)
    else if mcumax.stop_search s then Some (final_score v, s)
    else
      (* Start scan at previous best *)
      let square_start :=
        if negb (mode_eqb mode MCUMAX_SEARCH_VALID_MOVES)
        then iter_square_from v else 0 in
      (* Request try noncastling first *)
      let v :=
        set_replay_move (Z.land (iter_square_to v) MCUMAX_SQUARE_INVALID) v in
      match null_move v s with
      | None => None
      | Some (null_move_score, s) =>
        let v := set_iter_score (seed_score null_move_score v s) v in
        (* Node count (for timing) *)
        let s := mcumax.set_node_count (u32 (mcumax.node_count s + 1)) s in
        match scan_loop n' null_move_score square_start square_start v s with
        | Fuel => None
        | Return r s => Some (r, s)
        | Next v s | Cutoff v s =>
          iter_loop n' depth (mate_test null_move_score v) s
        end
      end
  end.
End Search.

(** The user callback, called at the entry of every invocation. *)
Definition call_user_callback (s : mcumax.t) : mcumax.t :=
  match mcumax.user_callback s with
  | Some cb =>
    if cb (mcumax.user_data s) then mcumax.set_stop_search true s else s
  | None => s
  end.

Fixpoint mcumax_search (fuel : nat)
    (alpha beta score en_passant_square depth : Z) (mode : mcumax_mode)
    (s : mcumax.t) : option (Z * mcumax.t) :=
  match fuel with
  | O => None
  | S n =>
    let s := call_user_callback s in
    (* Adj. window: delay bonus *)
    let alpha := (alpha - b2z (alpha <? score)) in
    let beta := (beta - b2z (beta <=? score)) in
    iter_loop (mcumax_search n) alpha beta score en_passant_square mode
      n depth (Iter 0 0 0 0 0) s
  end.

(** ** Position set-up and the public entry points *)

(** The engine as the C runtime starts it: a zero-filled global. *)
Definition mcumax_zero : mcumax.t :=
  mcumax.Build (repeat 0 129) 0 0 0 0 0 0 0 0 0 false None 0 [] 0 0.

(** The C [for (i = lo; i < hi; i++)] over a state. *)
Definition for_range {A : Type} (lo hi : Z) (body : Z -> A -> A) (a : A) : A :=
  fold_left (fun a i => body i a) (map (fun k => lo + Z.of_nat k)
                                       (seq 0 (Z.to_nat (hi - lo)))) a.

Definition mcumax_init (s : mcumax.t) : mcumax.t :=
  let s :=
    for_range 0 8 (fun x s =>
      (* Setup pieces (left side) *)
      let s := board_put (0x10 * 0 + x)
                 (Z.lor MCUMAX_BOARD_BLACK (table mcumax_board_setup x)) s in
      let s := board_put (0x10 * 1 + x)
                 (Z.lor MCUMAX_BOARD_BLACK MCUMAX_PAWN_DOWNSTREAM) s in
      let s := for_range 2 6 (fun y s =>
                 board_put (0x10 * y + x) MCUMAX_EMPTY s) s in
      let s := board_put (0x10 * 6 + x)
                 (Z.lor MCUMAX_BOARD_WHITE MCUMAX_PAWN_UPSTREAM) s in
      let s := board_put (0x10 * 7 + x)
                 (Z.lor MCUMAX_BOARD_WHITE (table mcumax_board_setup x)) s in
      (* Setup weights (right side) *)
      for_range 0 8 (fun y s =>
        board_put (16 * y + x + 8)
          ((x - 4) * (x - 4) + (y - 4) * (y - 3)) s) s) s in
  let s := mcumax.set_current_side MCUMAX_BOARD_WHITE s in
  let s := mcumax.set_score 0 s in
  let s := mcumax.set_en_passant_square MCUMAX_SQUARE_INVALID s in
  mcumax.set_non_pawn_material 0 s.

Definition mcumax_set_piece (square piece : Z) (s : mcumax.t)
    : Z * mcumax.t :=
  if nz (Z.land square MCUMAX_BOARD_MASK) then (square, s)
  else (u8 (square + 1),
        board_put square
          (if nz piece then Z.lor piece MCUMAX_PIECE_MOVED else piece) s).

Definition mcumax_get_piece (s : mcumax.t) (square : Z) : Z :=
  if nz (Z.land square MCUMAX_BOARD_MASK) then MCUMAX_EMPTY
  else Z.lxor (Z.land (board_get s square) 0xf) MCUMAX_BLACK.

Definition mcumax_get_current_side (s : mcumax.t) : Z :=
  mcumax.current_side s.

Definition mcumax_start_search (fuel : nat) (mode : mcumax_mode)
    (move : mcumax_move) (depth_max node_max : Z) (s : mcumax.t)
    : option (Z * mcumax.t) :=
  let s := mcumax.set_square_from (from move) s in
  let s := mcumax.set_square_to (to move) s in
  let s := mcumax.set_node_max node_max s in
  let s := mcumax.set_node_count 0 s in
  let s := mcumax.set_depth_max depth_max s in
  let s := mcumax.set_stop_search false s in
  mcumax_search fuel (- MCUMAX_SCORE_MAX) MCUMAX_SCORE_MAX
    (mcumax.score s) (mcumax.en_passant_square s) 3 mode s.

(** Returns the count and the engine, whose [valid_moves_buffer] is the
    caller's buffer as the call leaves it. *)
Definition mcumax_search_valid_moves (fuel : nat)
    (valid_moves_buffer : list mcumax_move) (valid_moves_buffer_size : Z)
    (s : mcumax.t) : option (Z * mcumax.t) :=
  let s := mcumax.set_valid_moves_num 0 s in
  let s := mcumax.set_valid_moves_buffer valid_moves_buffer s in
  let s := mcumax.set_valid_moves_buffer_size valid_moves_buffer_size s in
  match mcumax_start_search fuel MCUMAX_SEARCH_VALID_MOVES
          MCUMAX_MOVE_INVALID 0 0 s with
  | Some (_, s) => Some (mcumax.valid_moves_num s, s)
  | None => None
  end.

Definition mcumax_search_best_move (fuel : nat) (node_max depth_max : Z)
    (s : mcumax.t) : option (mcumax_move * mcumax.t) :=
  match mcumax_start_search fuel MCUMAX_SEARCH_BEST_MOVE
          MCUMAX_MOVE_INVALID (u32 (depth_max + 3)) node_max s with
  | Some (score, s) =>
    if score =? MCUMAX_SCORE_MAX
    then Some (Move (mcumax.square_from s) (mcumax.square_to s), s)
    else Some (MCUMAX_MOVE_INVALID, s)
  | None => None
  end.

Definition mcumax_play_move (fuel : nat) (move : mcumax_move) (s : mcumax.t)
    : option (bool * mcumax.t) :=
  match mcumax_start_search fuel MCUMAX_PLAY_MOVE move 0 0 s with
  | Some (r, s) => Some (r =? MCUMAX_SCORE_MAX, s)
  | None => None
  end.

Definition mcumax_set_callback (callback : option (Z -> bool)) (userdata : Z)
    (s : mcumax.t) : mcumax.t :=
  mcumax.set_callback callback userdata s.

Definition mcumax_stop_search (s : mcumax.t) : mcumax.t :=
  mcumax.set_stop_search true s.

(** ** FEN input *)

Definition char_code (c : ascii) : Z := Z.of_nat (nat_of_ascii c).

(** [board[sq] &= ~MCUMAX_PIECE_MOVED] *)
Definition clear_moved (sq : Z) (s : mcumax.t) : mcumax.t :=
  board_put sq (Z.land (board_get s sq) (Z.lnot MCUMAX_PIECE_MOVED)) s.

(** The locals of the parser: [field_index], [board_index] and the engine. *)
Record fen_state : Type := Fen {
  field_index : Z;
  board_index : Z;
  engine : mcumax.t
}.

Definition fen_place (piece : Z) (f : fen_state) : fen_state :=
  let '(sq, s) := mcumax_set_piece (u8 (board_index f)) piece (engine f) in
  Fen (field_index f) sq s.

(** Field 0, piece placement. *)
Definition fen_board (c : ascii) (f : fen_state) : fen_state :=
  if board_index f <? 0x80 then
    match c with
    | "8"%char | "7"%char | "6"%char | "5"%char | "4"%char | "3"%char | "2"%char | "1"%char =>
      for_range 0 (char_code c - char_code "0"%char)
        (fun _ f => fen_place MCUMAX_EMPTY f) f
    | "P"%char => fen_place (Z.lor MCUMAX_PAWN_UPSTREAM MCUMAX_BOARD_WHITE) f
    | "N"%char => fen_place (Z.lor MCUMAX_KNIGHT MCUMAX_BOARD_WHITE) f
    | "B"%char => fen_place (Z.lor MCUMAX_BISHOP MCUMAX_BOARD_WHITE) f
    | "R"%char => fen_place (Z.lor MCUMAX_ROOK MCUMAX_BOARD_WHITE) f
    | "Q"%char => fen_place (Z.lor MCUMAX_QUEEN MCUMAX_BOARD_WHITE) f
    | "K"%char => fen_place (Z.lor MCUMAX_KING MCUMAX_BOARD_WHITE) f
    | "p"%char => fen_place (Z.lor MCUMAX_PAWN_DOWNSTREAM MCUMAX_BOARD_BLACK) f
    | "n"%char => fen_place (Z.lor MCUMAX_KNIGHT MCUMAX_BOARD_BLACK) f
    | "b"%char => fen_place (Z.lor MCUMAX_BISHOP MCUMAX_BOARD_BLACK) f
    | "r"%char => fen_place (Z.lor MCUMAX_ROOK MCUMAX_BOARD_BLACK) f
    | "q"%char => fen_place (Z.lor MCUMAX_QUEEN MCUMAX_BOARD_BLACK) f
    | "k"%char => fen_place (Z.lor MCUMAX_KING MCUMAX_BOARD_BLACK) f
    | "/"%char =>
      Fen (field_index f)
        (if board_index f <? 0x80
         then Z.land (board_index f) 0xf0 + 0x10 else board_index f)
        (engine f)
    | _ => f
    end
  else f.

(** Field 1, side to move. *)
Definition fen_side (c : ascii) (s : mcumax.t) : mcumax.t :=
  match c with
  | "w"%char => mcumax.set_current_side MCUMAX_BOARD_WHITE s
  | "b"%char => mcumax.set_current_side MCUMAX_BOARD_BLACK s
  | _ => s
  end.

(** Field 2, castling rights. *)
Definition fen_castling (c : ascii) (s : mcumax.t) : mcumax.t :=
  match c with
  | "K"%char => clear_moved 0x77 (clear_moved 0x74 s)
  | "Q"%char => clear_moved 0x70 (clear_moved 0x74 s)
  | "k"%char => clear_moved 0x07 (clear_moved 0x04 s)
  | "q"%char => clear_moved 0x00 (clear_moved 0x04 s)
  | _ => s
  end.

(** Field 3, en-passant target. *)
Definition fen_en_passant (c : ascii) (s : mcumax.t) : mcumax.t :=
  match c with
  | "a"%char | "b"%char | "c"%char | "d"%char | "e"%char | "f"%char | "g"%char | "h"%char =>
    mcumax.set_en_passant_square
      (u8 (Z.lor (Z.land (mcumax.en_passant_square s) 0x7f)
             (char_code c - char_code "a"%char))) s
  | "1"%char | "2"%char | "3"%char | "4"%char | "5"%char | "6"%char | "7"%char | "8"%char =>
    mcumax.set_en_passant_square
      (u8 (Z.lor (Z.land (mcumax.en_passant_square s) 0x7f)
             (16 * (char_code "8"%char - char_code c)))) s
  | _ => s
  end.

(** One turn of the [while ((c = *fen_string++))] loop. *)
Definition fen_char (c : ascii) (f : fen_state) : fen_state :=
  if Ascii.eqb c " "%char then
    Fen (if field_index f <? 4 then field_index f + 1 else field_index f)
        (board_index f) (engine f)
  else if field_index f =? 0 then fen_board c f
  else if field_index f =? 1 then
    Fen (field_index f) (board_index f) (fen_side c (engine f))
  else if field_index f =? 2 then
    Fen (field_index f) (board_index f) (fen_castling c (engine f))
  else if field_index f =? 3 then
    Fen (field_index f) (board_index f) (fen_en_passant c (engine f))
  else f.

(** The loop stops at the terminating NUL of the C string. *)
Fixpoint fen_loop (fen_string : string) (f : fen_state) : fen_state :=
  match fen_string with
  | EmptyString => f
  | String c rest =>
    if Ascii.eqb c zero then f else fen_loop rest (fen_char c f)
  end.

Definition mcumax_set_fen_position (fen_string : string) (s : mcumax.t)
    : mcumax.t :=
  engine (fen_loop fen_string (Fen 0 0 (mcumax_init s))).

(** ** The in-check probe *)

(** "Trouver le roi": the two nested [for] loops with their [break]s. *)
Fixpoint king_scan_row (s : mcumax.t) (king_mask y : Z) (xs : list Z)
    (king_square : Z) : Z :=
  match xs with
  | [] => king_square
  | x :: xs =>
    let sq := u8 (y * 16 + x) in
    let raw := board_get s sq in
    if nz (Z.land raw king_mask) && (Z.land raw 7 =? MCUMAX_KING)
    then sq
    else king_scan_row s king_mask y xs king_square
  end.

Fixpoint king_scan (s : mcumax.t) (king_mask : Z) (ys : list Z)
    (king_square : Z) : Z :=
  match ys with
  | [] => king_square
  | y :: ys =>
    let king_square :=
      king_scan_row s king_mask y [0; 1; 2; 3; 4; 5; 6; 7] king_square in
    if negb (king_square =? MCUMAX_SQUARE_INVALID) then king_square
    else king_scan s king_mask ys king_square
  end.

(** One ray of "Scan rayons pour tours, fous et reines": [Some true] is the
    [return true], [Some false] the [break]. *)
Fixpoint check_ray (n : nat) (s : mcumax.t) (enemy_mask d direction : Z)
    (current_sq : Z) : option bool :=
  match n with
  | O => None
  | S n' =>
    let current_sq := current_sq + direction in
    if nz (Z.land current_sq 0x88) then Some false else
    let raw := board_get s current_sq in
    if nz raw then
      if nz (Z.land raw enemy_mask) then
        let type := Z.land raw 7 in
        if (d <? 4) && ((type =? MCUMAX_ROOK) || (type =? MCUMAX_QUEEN))
        then Some true
        else if (d >=? 4)
                && ((type =? MCUMAX_BISHOP) || (type =? MCUMAX_QUEEN))
        then Some true
        else Some false
      else Some false
    else check_ray n' s enemy_mask d direction current_sq
  end.

Fixpoint check_rays (n : nat) (s : mcumax.t) (enemy_mask king_square : Z)
    (d : Z) (directions : list Z) : option bool :=
  match directions with
  | [] => Some false
  | direction :: rest =>
    match check_ray n s enemy_mask d direction king_square with
    | None => None
    | Some true => Some true
    | Some false => check_rays n s enemy_mask king_square (d + 1) rest
    end
  end.

(** The knight and the king probes: is there an enemy [kind] on one of the
    squares [king_square + offset]? *)
Fixpoint check_leaper (s : mcumax.t) (enemy_mask kind king_square : Z)
    (offsets : list Z) : bool :=
  match offsets with
  | [] => false
  | o :: rest =>
    let sq := king_square + o in
    if negb (nz (Z.land sq 0x88))
       && nz (Z.land (board_get s sq) enemy_mask)
       && (Z.land (board_get s sq) 7 =? kind)
    then true
    else check_leaper s enemy_mask kind king_square rest
  end.

Fixpoint check_pawns (s : mcumax.t) (side enemy_mask king_square : Z)
    (pawn_attacks : list Z) : bool :=
  match pawn_attacks with
  | [] => false
  | o :: rest =>
    let sq := king_square + o in
    if negb (nz (Z.land sq 0x88))
       && nz (Z.land (board_get s sq) enemy_mask)
       && (((side =? MCUMAX_BOARD_WHITE)
            && (Z.land (board_get s sq) 7 =? MCUMAX_PAWN_DOWNSTREAM))
           || ((side =? MCUMAX_BOARD_BLACK)
               && (Z.land (board_get s sq) 7 =? MCUMAX_PAWN_UPSTREAM)))
    then true
    else check_pawns s side enemy_mask king_square rest
  end.

Definition is_in_check (fuel : nat) (s : mcumax.t) (side : Z) : option bool :=
  let king_mask :=
    if side =? MCUMAX_BOARD_WHITE
    then MCUMAX_BOARD_WHITE else MCUMAX_BOARD_BLACK in
  let enemy_mask :=
    if side =? MCUMAX_BOARD_WHITE
    then MCUMAX_BOARD_BLACK else MCUMAX_BOARD_WHITE in
  let king_square :=
    king_scan s king_mask [0; 1; 2; 3; 4; 5; 6; 7] MCUMAX_SQUARE_INVALID in
  if king_square =? MCUMAX_SQUARE_INVALID then Some false else
  match check_rays fuel s enemy_mask king_square 0
          [1; -1; 16; -16; 15; -15; 17; -17] with
  | None => None
  | Some true => Some true
  | Some false =>
    if check_leaper s enemy_mask MCUMAX_KNIGHT king_square
         [14; 18; 31; 33; -14; -18; -31; -33]
    then Some true
    else
      let pawn_dir := if side =? MCUMAX_BOARD_WHITE then -16 else 16 in
      if check_pawns s side enemy_mask king_square
           [pawn_dir - 1; pawn_dir + 1]
      then Some true
      else
        Some (check_leaper s enemy_mask MCUMAX_KING king_square
                [1; -1; 16; -16; 15; -15; 17; -17])
  end.

(** ** FEN output *)

(** The conversion of an [int] to [char]. *)
Definition char_of (x : Z) : ascii := ascii_of_nat (Z.to_nat (x mod 256)).

(** The locals of [mcumax_get_fen]: the caller's buffer, the offset of
    [ptr] in it, and [remaining]. *)
Record fen_writer : Type := Writer {
  fen_buffer : list ascii;
  ptr : Z;
  remaining : Z
}.

(** [*ptr++ = c] *)
Definition fen_store (w : fen_writer) (c : ascii) : fen_writer :=
  Writer (<[Z.to_nat (ptr w) := c]> (fen_buffer w)) (ptr w + 1) (remaining w).

(** The function goes on, or has left through one of its [return]s. *)
Inductive fen_flow : Type :=
| Go (w : fen_writer)
| Exit (w : fen_writer).

Definition fen_bind (x : fen_flow) (k : fen_writer -> fen_flow) : fen_flow :=
  match x with
  | Go w => k w
  | Exit w => Exit w
  end.

(** [if (remaining < need) return;] followed by the stores of [cs] and the
    matching decrease of [remaining]. *)
Definition fen_put (need : Z) (cs : list ascii) (w : fen_writer) : fen_flow :=
  if remaining w <? need then Exit w
  else
    let w := fold_left fen_store cs w in
    Go (Writer (fen_buffer w) (ptr w) (remaining w - Z.of_nat (length cs))).

(** "Convertir la pièce en symbole FEN" *)
Definition piece_char (piece_raw : Z) : ascii :=
  let piece_type := Z.land piece_raw 7 in
  let is_white := negb (Z.land piece_raw MCUMAX_BOARD_WHITE =? 0) in
  if (piece_type =? MCUMAX_PAWN_UPSTREAM)
     || (piece_type =? MCUMAX_PAWN_DOWNSTREAM)
  then (if is_white then "P" else "p")%char
  else if piece_type =? MCUMAX_KNIGHT then (if is_white then "N" else "n")%char
  else if piece_type =? MCUMAX_KING then (if is_white then "K" else "k")%char
  else if piece_type =? MCUMAX_BISHOP then (if is_white then "B" else "b")%char
  else if piece_type =? MCUMAX_ROOK then (if is_white then "R" else "r")%char
  else if piece_type =? MCUMAX_QUEEN then (if is_white then "Q" else "q")%char
  else "?"%char.

(** "Écrire le nombre de cases vides si nécessaire" *)
Definition fen_flush (empty_count : Z) (w : fen_writer) : fen_flow :=
  if empty_count >? 0
  then fen_put 1 [char_of (char_code "0" + empty_count)] w
  else Go w.

(** One rank of "Position des pièces": the loop over the files, then the
    pending count and the ['/']. *)
Fixpoint fen_rank (s : mcumax.t) (rank : Z) (files : list Z)
    (empty_count : Z) (w : fen_writer) : fen_flow :=
  match files with
  | [] =>
    match fen_flush empty_count w with
    | Go w => if rank <? 7 then fen_put 1 ["/"%char] w else Go w
    | Exit w => Exit w
    end
  | file :: files =>
    let square := u8 (rank * 16 + file) in
    let piece_raw := board_get s square in
    if piece_raw =? MCUMAX_EMPTY
    then fen_rank s rank files (empty_count + 1) w
    else
      match fen_flush empty_count w with
      | Go w =>
        match fen_put 1 [piece_char piece_raw] w with
        | Go w =>
          fen_rank s rank files (if empty_count >? 0 then 0 else empty_count) w
        | Exit w => Exit w
        end
      | Exit w => Exit w
      end
  end.

Fixpoint fen_ranks (s : mcumax.t) (ranks : list Z) (w : fen_writer)
    : fen_flow :=
  match ranks with
  | [] => Go w
  | rank :: ranks =>
    match fen_rank s rank [0; 1; 2; 3; 4; 5; 6; 7] 0 w with
    | Go w => fen_ranks s ranks w
    | Exit w => Exit w
    end
  end.

(** Is the has-moved bit clear on both cells? *)
Definition unmoved_pair (s : mcumax.t) (a b : Z) : bool :=
  negb (nz (Z.land (board_get s a) MCUMAX_PIECE_MOVED))
  && negb (nz (Z.land (board_get s b) MCUMAX_PIECE_MOVED)).

(** One letter of "Droits de roque"; [has_castling] goes with the writer. *)
Definition fen_right (s : mcumax.t) (a b : Z) (c : ascii)
    (x : bool * fen_writer) : bool * fen_flow :=
  let '(has_castling, w) := x in
  if unmoved_pair s a b
  then (true, fen_put 1 [c] w)
  else (has_castling, Go w).

Definition fen_rights (s : mcumax.t) (w : fen_writer) : fen_flow :=
  match fen_right s 0x74 0x77 "K" (false, w) with
  | (_, Exit w) => Exit w
  | (has_castling, Go w) =>
  match fen_right s 0x74 0x70 "Q" (has_castling, w) with
  | (_, Exit w) => Exit w
  | (has_castling, Go w) =>
  match fen_right s 0x04 0x07 "k" (has_castling, w) with
  | (_, Exit w) => Exit w
  | (has_castling, Go w) =>
  match fen_right s 0x04 0x00 "q" (has_castling, w) with
  | (_, Exit w) => Exit w
  | (has_castling, Go w) =>
    (* Si aucun roque possible *)
    if negb has_castling then fen_put 1 ["-"%char] w else Go w
  end end end end.

(** "Case en passant" *)
Definition fen_target (s : mcumax.t) (w : fen_writer) : fen_flow :=
  if mcumax.en_passant_square s =? MCUMAX_SQUARE_INVALID
  then fen_put 1 ["-"%char] w
  else
    let file := Z.land (mcumax.en_passant_square s) 0x0F in
    let rank := Z.shiftr (Z.land (mcumax.en_passant_square s) 0xF0) 4 in
    fen_put 2 [char_of (char_code "a" + file);
               char_of (char_code "8" - rank)] w.

(** The fields in turn, after the test of the arguments, down to the
    terminating NUL. *)
Definition fen_fields (s : mcumax.t) (w : fen_writer) : fen_flow :=
  (* 1. Position des pièces *)
  fen_bind (fen_ranks s [0; 1; 2; 3; 4; 5; 6; 7] w) (fun w =>
  (* 2. Côté au trait *)
  fen_bind (fen_put 2 [" "%char;
                       if mcumax.current_side s =? MCUMAX_BOARD_WHITE
                       then "w"%char else "b"%char] w) (fun w =>
  (* 3. Droits de roque *)
  fen_bind (fen_put 2 [" "%char] w) (fun w =>
  fen_bind (fen_rights s w) (fun w =>
  (* 4. Case en passant *)
  fen_bind (fen_put 2 [" "%char] w) (fun w =>
  fen_bind (fen_target s w) (fun w =>
  (* 5. Demi-coups, 6. Numéro du coup *)
  fen_bind (fen_put 3 [" "%char; "0"%char] w) (fun w =>
  fen_bind (fen_put 3 [" "%char; "1"%char] w) (fun w =>
  (* Terminer la chaîne *)
  Go (Writer (<[Z.to_nat (ptr w) := zero]> (fen_buffer w))
        (ptr w) (remaining w)))))))))).

(** The caller's buffer as the function leaves it. *)
Definition fen_result (x : fen_flow) : list ascii :=
  match x with
  | Go w | Exit w => fen_buffer w
  end.

(** The buffer is [None] for [NULL]; the result is the buffer as the call
    leaves it. *)
Definition mcumax_get_fen (s : mcumax.t) (fen_buffer : option (list ascii))
    (buffer_size : Z) : option (list ascii) :=
  match fen_buffer with
  | None => None
  | Some b =>
    if buffer_size <? 100 then Some b
    else Some (fen_result (fen_fields s (Writer b 0 (buffer_size - 1))))
  end.

(** ** Mate and stalemate probes *)

(** How [is_checkmate] and [is_stalemate] end: with an answer, for lack of
    fuel, or by indexing their local array [valid_moves] past its cells,
    which C leaves undefined. *)
Inductive mate_result : Type :=
| Answer (b : bool) (s : mcumax.t)
| OutOfFuel
| Overrun.

(** "Restaurer l'état complet du moteur" from the five backups, which are
    those of the engine [backup] at entry. *)
Definition restore_backup (backup s : mcumax.t) : mcumax.t :=
  let s := mcumax.set_board (mcumax.board backup) s in
  let s := mcumax.set_current_side (mcumax.current_side backup) s in
  let s := mcumax.set_en_passant_square (mcumax.en_passant_square backup) s in
  let s := mcumax.set_score (mcumax.score backup) s in
  mcumax.set_non_pawn_material (mcumax.non_pawn_material backup) s.

(** "Restaurer l'état" from the four copies taken before the move, which
    are those of the engine [temp]; the side becomes [side]. *)
Definition restore_temp (temp : mcumax.t) (side : Z) (s : mcumax.t)
    : mcumax.t :=
  let s := mcumax.set_board (mcumax.board temp) s in
  let s := mcumax.set_en_passant_square (mcumax.en_passant_square temp) s in
  let s := mcumax.set_score (mcumax.score temp) s in
  let s := mcumax.set_non_pawn_material (mcumax.non_pawn_material temp) s in
  mcumax.set_current_side side s.

(** The loop [for (i = 0; i < moves_count; i++)], which has the same text
    in both functions, and the steps 6 and 7 after it.  [count] is the
    number of turns left.  The local array [valid_moves] is the engine's
    [valid_moves_buffer], which points to it. *)
Fixpoint try_moves (fuel : nat) (side : Z) (backup : mcumax.t) (count : nat)
    (i : Z) (s : mcumax.t) : mate_result :=
  match count with
  | O => Answer true (restore_backup backup s)
  | S count' =>
    match mcumax.valid_moves_buffer s !! Z.to_nat i with
    | None => Overrun
    | Some move =>
      match mcumax_play_move fuel move s with
      | None => OutOfFuel
      | Some (true, s1) =>
        match is_in_check fuel s1 side with
        | None => OutOfFuel
        | Some still_in_check =>
          let s2 := restore_temp s side s1 in
          if negb still_in_check
          then Answer false (restore_backup backup s2)
          else try_moves fuel side backup count' (u32 (i + 1)) s2
        end
      | Some (false, s1) =>
        try_moves fuel side backup count' (u32 (i + 1))
          (restore_temp s side s1)
      end
    end
  end.

(** [valid_moves] is what the 256 cells of the local array hold when the
    function is entered. *)
Definition is_checkmate (fuel : nat) (valid_moves : list mcumax_move)
    (side : Z) (s : mcumax.t) : mate_result :=
  match is_in_check fuel s side with
  | None => OutOfFuel
  | Some false => Answer false s
  | Some true =>
    let s1 := mcumax.set_current_side side s in
    match mcumax_search_valid_moves fuel valid_moves 256 s1 with
    | None => OutOfFuel
    | Some (moves_count, s2) =>
      try_moves fuel side s (Z.to_nat moves_count) 0 s2
    end
  end.

Definition is_stalemate (fuel : nat) (valid_moves : list mcumax_move)
    (side : Z) (s : mcumax.t) : mate_result :=
  match is_in_check fuel s side with
  | None => OutOfFuel
  | Some true => Answer false s
  | Some false =>
    let s1 := mcumax.set_current_side side s in
    match mcumax_search_valid_moves fuel valid_moves 256 s1 with
    | None => OutOfFuel
    | Some (moves_count, s2) =>
      try_moves fuel side s (Z.to_nat moves_count) 0 s2
    end
  end.

(** ** The board printer of [tests/test_play.c] *)

Definition symbols : string := ".PPNKBRQ.ppnkbrq"%string.

(** [printf("%d", n)] *)
Definition print_int (n : Z) : string := NilZero.string_of_int (Z.to_int n).

(** [symbols[mcumax_get_piece(0x10 * y + x)]]; [None] is a read past
    the 16 symbols. *)
Definition board_symbol (s : mcumax.t) (y x : Z) : option ascii :=
  String.get (Z.to_nat (mcumax_get_piece s (u8 (0x10 * y + x)))) symbols.

(** The loop over [x]: the text of one row, or [None]. *)
Fixpoint print_row (s : mcumax.t) (y : Z) (xs : list Z) : option string :=
  match xs with
  | [] => Some EmptyString
  | x :: xs =>
    match board_symbol s y x, print_row s y xs with
    | Some c, Some rest => Some (String c (String " " rest))
    | _, _ => None
    end
  end.

Fixpoint print_rows (s : mcumax.t) (ys : list Z) : option string :=
  match ys with
  | [] => Some EmptyString
  | y :: ys =>
    match print_row s y [0; 1; 2; 3; 4; 5; 6; 7], print_rows s ys with
    | Some row, Some rest =>
      Some (print_int (8 - y) ++ " | " ++ row
            ++ String "|" (String "010" rest))%string
    | _, _ => None
    end
  end.

(** What [print_board] sends to the standard output. *)
Definition print_board (s : mcumax.t) : option string :=
  match print_rows s [0; 1; 2; 3; 4; 5; 6; 7] with
  | Some rows =>
    Some (String "010" ("  +-----------------+" ++ String "010" rows)
          ++ "  +-----------------+"
          ++ String "010" ("    a b c d e f g h"
                           ++ String "010" (String "010" EmptyString)))%string
  | None => None
  end.

(** ** Vocabulary of the properties *)

(** The 64 squares of the 0x88 layout. *)
Definition on_board (sq : Z) : Prop :=
  0 <= sq < 0x80 /\ Z.land sq MCUMAX_BOARD_MASK = 0.

Definition board_squares : list Z :=
  List.filter (fun sq => Z.land sq MCUMAX_BOARD_MASK =? 0)
         (map Z.of_nat (seq 0 128)).

(** A cell that holds a king of [side], the way [is_in_check] tests it. *)
Definition king_of (side cell : Z) : bool :=
  nz (Z.land cell (if side =? MCUMAX_BOARD_WHITE
                   then MCUMAX_BOARD_WHITE else MCUMAX_BOARD_BLACK))
  && (Z.land cell 7 =? MCUMAX_KING).

Definition has_king (s : mcumax.t) (side : Z) : bool :=
  existsb (fun sq => king_of side (board_get s sq)) board_squares.

(** The position part of the engine state: what a search must put back. *)
Record same_position (s s' : mcumax.t) : Prop := SamePosition {
  same_cells : forall sq, 0 <= sq < 0x80 -> board_get s' sq = board_get s sq;
  same_side : mcumax.current_side s' = mcumax.current_side s;
  same_en_passant : mcumax.en_passant_square s' = mcumax.en_passant_square s;
  same_score : mcumax.score s' = mcumax.score s;
  same_material : mcumax.non_pawn_material s' = mcumax.non_pawn_material s
}.

(** A state of the data model: a board of [0x80 + 1] bytes and a side that
    is the white or the black flag. *)
Record well_formed (s : mcumax.t) : Prop := WellFormed {
  wf_length : length (mcumax.board s) = 129%nat;
  wf_bytes : Forall (fun c => 0 <= c < 256) (mcumax.board s);
  wf_side : mcumax.current_side s = MCUMAX_BOARD_WHITE
            \/ mcumax.current_side s = MCUMAX_BOARD_BLACK
}.

(** An en-passant slot as the code fills it: the sentinel or a square. *)
Definition en_passant_ok (sq : Z) : Prop :=
  sq = MCUMAX_SQUARE_INVALID \/ on_board sq.

(** Two engines that differ at most in the slots [mcumax_start_search]
    overwrites. *)
Record same_engine (s1 s2 : mcumax.t) : Prop := SameEngine {
  se_board : mcumax.board s1 = mcumax.board s2;
  se_side : mcumax.current_side s1 = mcumax.current_side s2;
  se_score : mcumax.score s1 = mcumax.score s2;
  se_en_passant : mcumax.en_passant_square s1 = mcumax.en_passant_square s2;
  se_material : mcumax.non_pawn_material s1 = mcumax.non_pawn_material s2;
  se_callback : mcumax.user_callback s1 = mcumax.user_callback s2;
  se_data : mcumax.user_data s1 = mcumax.user_data s2;
  se_buffer : mcumax.valid_moves_buffer s1 = mcumax.valid_moves_buffer s2;
  se_size : mcumax.valid_moves_buffer_size s1
            = mcumax.valid_moves_buffer_size s2;
  se_num : mcumax.valid_moves_num s1 = mcumax.valid_moves_num s2
}.

(** The engine with the caller's buffer taken away ([NULL], capacity 0). *)
Definition without_buffer (s : mcumax.t) : mcumax.t :=
  mcumax.set_valid_moves_buffer_size 0 (mcumax.set_valid_moves_buffer [] s).

(** The fresh engine after [mcumax_init]. *)
Definition start_position : mcumax.t := mcumax_init mcumax_zero.

(** The rank of a square [0xRF]. *)
Definition square_rank (sq : Z) : Z := Z.shiftr sq 4.

(** The six squares whose has-moved bit the castling field of a FEN string
    can clear. *)
Definition castling_homes : list Z := [0x74; 0x77; 0x70; 0x04; 0x07; 0x00].

(** The states of the engine and the skipped squares inside the outcomes
    of the loops. *)
Definition step_state (x : step) : option mcumax.t :=
  match x with
  | StepBreak _ s | StepCutoff _ s | StepReturn _ s | StepReplay _ s
  | StepNext _ _ _ _ _ s => Some s
  | StepFuel => None
  end.

(** The skipped square a step hands to the next one. *)
Definition step_skip_ok (x : step) : Prop :=
  match x with
  | StepNext _ skip _ _ _ _ => en_passant_ok skip
  | _ => True
  end.

Definition outcome_state (o : outcome) : option mcumax.t :=
  match o with
  | Next _ s | Cutoff _ s | Return _ s => Some s
  | Fuel => None
  end.


(** What the search keeps of a buffer [buf] of capacity [cap]: the capacity,
    the length, and every cell from [cap] on. *)
Record buffer_kept (cap : Z) (buf : list mcumax_move) (s : mcumax.t) : Prop :=
  BufferKept {
    bk_size : mcumax.valid_moves_buffer_size s = cap;
    bk_num : 0 <= mcumax.valid_moves_num s;
    bk_length : length (mcumax.valid_moves_buffer s) = length buf;
    bk_cells : forall i : nat, cap <= Z.of_nat i ->
               mcumax.valid_moves_buffer s !! i = buf !! i
  }.


Definition step_map (f : mcumax.t -> mcumax.t) (x : step) : step :=
  match x with
  | StepBreak v s => StepBreak v (f s)
  | StepCutoff v s => StepCutoff v (f s)
  | StepReturn r s => StepReturn r (f s)
  | StepReplay v s => StepReplay v (f s)
  | StepNext a b c d v s => StepNext a b c d v (f s)
  | StepFuel => StepFuel
  end.

Definition outcome_map (f : mcumax.t -> mcumax.t) (o : outcome) : outcome :=
  match o with
  | Next v s => Next v (f s)
  | Cutoff v s => Cutoff v (f s)
  | Return r s => Return r (f s)
  | Fuel => Fuel
  end.

Definition result_map {A : Type} (f : mcumax.t -> mcumax.t)
    (r : option (A * mcumax.t)) : option (A * mcumax.t) :=
  match r with
  | Some (x, s) => Some (x, f s)
  | None => None
  end.

Ltac case_if :=
  match goal with
  | |- context [if ?c then _ else _] => destruct c
  end.

(** Reads of the fields of an engine built by the setters. *)
Ltac engine_fields :=
  cbn [mcumax.board mcumax.current_side mcumax.score
       mcumax.en_passant_square mcumax.non_pawn_material mcumax.square_from
       mcumax.square_to mcumax.node_count mcumax.node_max mcumax.depth_max
       mcumax.stop_search mcumax.user_callback mcumax.user_data
       mcumax.valid_moves_buffer mcumax.valid_moves_buffer_size
       mcumax.valid_moves_num
       mcumax.set_board mcumax.set_current_side mcumax.set_score
       mcumax.set_en_passant_square mcumax.set_non_pawn_material
       mcumax.set_square_from mcumax.set_square_to mcumax.set_node_count
       mcumax.set_node_max mcumax.set_depth_max mcumax.set_stop_search
       mcumax.set_callback mcumax.set_valid_moves_buffer
       mcumax.set_valid_moves_buffer_size mcumax.set_valid_moves_num
       fst snd].


(** The cells a move may write: the engine [s1] differs from [s] at most
    on the board cells whose index is in [idx]. *)
Record writes_only (idx : list nat) (s s1 : mcumax.t) : Prop := WritesOnly {
  wo_length : length (mcumax.board s1) = length (mcumax.board s);
  wo_side : mcumax.current_side s1 = mcumax.current_side s;
  wo_en_passant : mcumax.en_passant_square s1 = mcumax.en_passant_square s;
  wo_score : mcumax.score s1 = mcumax.score s;
  wo_material : mcumax.non_pawn_material s1 = mcumax.non_pawn_material s;
  wo_cells : forall i, ~ In (Z.to_nat i) idx -> board_get s1 i = board_get s i
}.

(** The invariant of the ray loop on [castling_skip_square] and
    [castling_rook_square]: a skipped square is empty, unless the iteration
    already holds the king-capture score; a rook square holds the unmoved
    rook of the side to move. *)
Definition ray_invariant (skip rook : Z) (v : iter_vars) (s : mcumax.t)
    : Prop :=
  ((Z.to_nat skip < 128)%nat ->
   board_get s skip = 0 \/ MCUMAX_SCORE_MAX <= iter_score v)
  /\ ((Z.to_nat rook < 128)%nat ->
      board_get s rook = mcumax.current_side s + 6).

(** The bound on [iter_score] that keeps the windows of the children of
    an invocation inside [-8000, 8000]; [alpha] is the adjusted bound. *)
Definition score_floor (alpha : Z) (v : iter_vars) : Prop :=
  -8000 <= alpha \/ -8000 <= iter_score v.

(** How an invocation may leave the engine: either through the commit of
    [MCUMAX_PLAY_MOVE], which returns the adjusted [beta], or with the
    position put back. *)
Definition settled (mode : mcumax_mode) (beta : Z) (s : mcumax.t) (r : Z)
    (s' : mcumax.t) : Prop :=
  (mode = MCUMAX_PLAY_MOVE /\ r = beta) \/ same_position s s'.

Definition outcome_undoes (alpha beta : Z) (mode : mcumax_mode)
    (s : mcumax.t) (o : outcome) : Prop :=
  match o with
  | Next v1 s1 | Cutoff v1 s1 => same_position s s1 /\ score_floor alpha v1
  | Return r s1 => settled mode beta s r s1
  | Fuel => True
  end.

(** The characters [mcumax_get_fen] produces, field by field. *)
Definition count_text (empty_count : Z) : list ascii :=
  if empty_count >? 0 then [char_of (char_code "0" + empty_count)] else [].

Fixpoint rank_text (s : mcumax.t) (rank : Z) (files : list Z)
    (empty_count : Z) : list ascii :=
  match files with
  | [] => count_text empty_count ++ (if rank <? 7 then ["/"%char] else [])
  | file :: files =>
    let piece_raw := board_get s (u8 (rank * 16 + file)) in
    if piece_raw =? MCUMAX_EMPTY
    then rank_text s rank files (empty_count + 1)
    else count_text empty_count
         ++ piece_char piece_raw
            :: rank_text s rank files (if empty_count >? 0 then 0 else empty_count)
  end.

Definition placement_text (s : mcumax.t) (ranks : list Z) : list ascii :=
  flat_map (fun rank => rank_text s rank [0; 1; 2; 3; 4; 5; 6; 7] 0) ranks.

Definition side_text (s : mcumax.t) : list ascii :=
  [if mcumax.current_side s =? MCUMAX_BOARD_WHITE then "w"%char else "b"%char].

Definition right_text (s : mcumax.t) (a b : Z) (c : ascii) : list ascii :=
  if unmoved_pair s a b then [c] else [].

Definition rights_text (s : mcumax.t) : list ascii :=
  let t := right_text s 0x74 0x77 "K" ++ right_text s 0x74 0x70 "Q"
           ++ right_text s 0x04 0x07 "k" ++ right_text s 0x04 0x00 "q" in
  match t with
  | [] => ["-"%char]
  | _ => t
  end.

Definition target_text (s : mcumax.t) : list ascii :=
  if mcumax.en_passant_square s =? MCUMAX_SQUARE_INVALID then ["-"%char]
  else [char_of (char_code "a" + Z.land (mcumax.en_passant_square s) 0x0F);
        char_of (char_code "8"
                 - Z.shiftr (Z.land (mcumax.en_passant_square s) 0xF0) 4)].

Definition fen_text (s : mcumax.t) : list ascii :=
  placement_text s [0; 1; 2; 3; 4; 5; 6; 7]
  ++ " "%char :: side_text s
  ++ " "%char :: rights_text s
  ++ " "%char :: target_text s
  ++ [" "; "0"; " "; "1"]%char.

(** A cell a FEN string can describe: empty, or a piece whose kind is not 0
    and, for a pawn, whose direction is that of its colour. *)
Definition regular_cell (c : Z) : bool :=
  (c =? 0)
  || (negb (Z.land c 7 =? 0)
      && (negb (Z.land c 7 =? MCUMAX_PAWN_UPSTREAM)
          || negb (Z.land c MCUMAX_BOARD_WHITE =? 0))
      && (negb (Z.land c 7 =? MCUMAX_PAWN_DOWNSTREAM)
          || (Z.land c MCUMAX_BOARD_WHITE =? 0))).

Record fen_regular (s : mcumax.t) : Prop := FenRegular {
  fr_cells : forall sq, on_board sq -> regular_cell (board_get s sq) = true;
  fr_side : mcumax.current_side s = MCUMAX_BOARD_WHITE
            \/ mcumax.current_side s = MCUMAX_BOARD_BLACK;
  fr_en_passant : en_passant_ok (mcumax.en_passant_square s)
}.

(** The parser on a list of characters without NUL. *)
Definition fen_parse (text : list ascii) (f : fen_state) : fen_state :=
  fold_left (fun f c => fen_char c f) text f.

(** The files [k, k + 1, ...], [n] of them. *)
Fixpoint file_list (k : Z) (n : nat) : list Z :=
  match n with
  | O => []
  | S n' => k :: file_list (k + 1) n'
  end.

(** The engine [x] holds, on the squares below [n], the pieces of [s], and
    its en-passant slot is still the one [mcumax_init] set. *)
Record parsed (s : mcumax.t) (n : Z) (x : mcumax.t) : Prop := Parsed {
  parsed_length : length (mcumax.board x) = 129%nat;
  parsed_cells : forall sq, on_board sq -> sq < n ->
                 Z.land (board_get x sq) 0xf = Z.land (board_get s sq) 0xf;
  parsed_en_passant : mcumax.en_passant_square x = MCUMAX_SQUARE_INVALID
}.

(** Does the ray from [sq] leave the board within [n] steps? *)
Fixpoint ray_leaves (n : nat) (direction sq : Z) : bool :=
  match n with
  | O => false
  | S n' =>
    nz (Z.land (sq + direction) 0x88) || ray_leaves n' direction (sq + direction)
  end.

(** [ray_meets s direction sq t]: going from [sq] in steps of [direction],
    [t] is the first square that is not empty, and the board was not left
    before it. *)
Inductive ray_meets (s : mcumax.t) (direction : Z) : Z -> Z -> Prop :=
| ray_meets_here sq :
    Z.land (sq + direction) 0x88 = 0 ->
    board_get s (sq + direction) <> 0 ->
    ray_meets s direction sq (sq + direction)
| ray_meets_on sq t :
    Z.land (sq + direction) 0x88 = 0 ->
    board_get s (sq + direction) = 0 ->
    ray_meets s direction (sq + direction) t ->
    ray_meets s direction sq t.

(** The square [sq] is on the board and holds a piece of kind [kind] with a
    bit of [enemy_mask]. *)
Definition enemy_piece (s : mcumax.t) (enemy_mask kind sq : Z) : Prop :=
  Z.land sq 0x88 = 0
  /\ Z.land (board_get s sq) enemy_mask <> 0
  /\ Z.land (board_get s sq) 7 = kind.

(** The king of [side] on [king_square] is attacked. *)
Definition attacked (s : mcumax.t) (side king_square : Z) : Prop :=
  let enemy_mask :=
    if side =? MCUMAX_BOARD_WHITE
    then MCUMAX_BOARD_BLACK else MCUMAX_BOARD_WHITE in
  (exists direction kind t,
     In direction [1; -1; 16; -16] /\ In kind [MCUMAX_ROOK; MCUMAX_QUEEN]
     /\ ray_meets s direction king_square t
     /\ enemy_piece s enemy_mask kind t)
  \/ (exists direction kind t,
        In direction [15; -15; 17; -17]
        /\ In kind [MCUMAX_BISHOP; MCUMAX_QUEEN]
        /\ ray_meets s direction king_square t
        /\ enemy_piece s enemy_mask kind t)
  \/ (exists o,
        In o [14; 18; 31; 33; -14; -18; -31; -33]
        /\ enemy_piece s enemy_mask MCUMAX_KNIGHT (king_square + o))
  \/ (exists o,
        In o [-1; 1]
        /\ enemy_piece s enemy_mask
             (if side =? MCUMAX_BOARD_WHITE
              then MCUMAX_PAWN_DOWNSTREAM else MCUMAX_PAWN_UPSTREAM)
             (king_square + ((if side =? MCUMAX_BOARD_WHITE then -16 else 16)
                             + o)))
  \/ (exists o,
        In o [1; -1; 16; -16; 15; -15; 17; -17]
        /\ enemy_piece s enemy_mask MCUMAX_KING (king_square + o)).

(** The moves the enumeration has stored so far, those below both the count
    and the capacity, join two squares of the board. *)
Record listed (s : mcumax.t) : Prop := Listed {
  listed_num : 0 <= mcumax.valid_moves_num s;
  listed_moves : forall (i : nat) (move : mcumax_move),
    Z.of_nat i < mcumax.valid_moves_num s ->
    Z.of_nat i < mcumax.valid_moves_buffer_size s ->
    mcumax.valid_moves_buffer s !! i = Some move ->
    on_board (from move) /\ on_board (to move)
}.

Record same_load (s1 s2 : mcumax.t) : Prop := SameLoad {
  sl_length1 : length (mcumax.board s1) = 129%nat;
  sl_length2 : length (mcumax.board s2) = 129%nat;
  sl_position : same_position s1 s2
}.

(** Two parser states with the same counters and engines that hold the same
    position. *)
Definition same_fen (f1 f2 : fen_state) : Prop :=
  field_index f1 = field_index f2 /\ board_index f1 = board_index f2
  /\ same_load (engine f1) (engine f2).

Definition side_ok (s : mcumax.t) : Prop :=
  mcumax.current_side s = MCUMAX_BOARD_WHITE
  \/ mcumax.current_side s = MCUMAX_BOARD_BLACK.

(** The number of spaces of a string, and whether it is free of NUL. *)
Fixpoint count_spaces (a : string) : Z :=
  match a with
  | EmptyString => 0
  | String c rest =>
    (if Ascii.eqb c " " then 1 else 0) + count_spaces rest
  end.

Fixpoint nul_free (a : string) : bool :=
  match a with
  | EmptyString => true
  | String c rest => negb (Ascii.eqb c zero) && nul_free rest
  end.

(** The writer has produced [pre] into [buffer], whose size is [size]. *)
Record fen_holds (buffer : list ascii) (size : Z) (pre : list ascii)
    (w : fen_writer) : Prop := Holds {
  holds_buffer : fen_buffer w = pre ++ drop (length pre) buffer;
  holds_ptr : ptr w = Z.of_nat (length pre);
  holds_remaining : remaining w = size - 1 - Z.of_nat (length pre)
}.

(** What the castling letters keep. *)
Record rights_kept (s : mcumax.t) (side : Z) (x : mcumax.t) : Prop :=
  RightsKept {
    rk_parsed : parsed s 128 x;
    rk_side : mcumax.current_side x = side
  }.

(** The effect of a character of the en-passant field on the slot. *)
Definition target_step (c : ascii) (ep : Z) : Z :=
  mcumax.en_passant_square
    (fen_en_passant c (mcumax.set_en_passant_square ep mcumax_zero)).

(** The kinds that give check along ray number [d]. *)
Definition slider (d kind : Z) : Prop :=
  (d < 4 /\ (kind = MCUMAX_ROOK \/ kind = MCUMAX_QUEEN))
  \/ (4 <= d /\ (kind = MCUMAX_BISHOP \/ kind = MCUMAX_QUEEN)).

Fixpoint increasing (l : list Z) : bool :=
  match l with
  | a :: (b :: _) as rest => (a <? b) && increasing rest
  | _ => true
  end.

(** The five fields the probes back up are those of [s] again. *)
Record position_restored (s s' : mcumax.t) : Prop := PositionRestored {
  pr_board : mcumax.board s' = mcumax.board s;
  pr_side : mcumax.current_side s' = mcumax.current_side s;
  pr_en_passant : mcumax.en_passant_square s' = mcumax.en_passant_square s;
  pr_score : mcumax.score s' = mcumax.score s;
  pr_material : mcumax.non_pawn_material s' = mcumax.non_pawn_material s
}.

Definition fools_mate : mcumax.t :=
  mcumax_set_fen_position
    "rnb1kbnr/pppp1ppp/8/4p3/6Pq/5P2/PPPPP2P/RNBQKBNR w KQkq - 0 1"
    mcumax_zero.

Definition stopping : mcumax.t :=
  mcumax_set_callback (Some (fun _ => true)) 0 start_position.

(** * Properties *)

(** ** Machine integers and the board array *)

Lemma u8_range x : 0 <= u8 x < 256.
Proof. unfold u8. apply Z.mod_pos_bound. lia. Qed.

Lemma u8_small x : 0 <= x < 256 -> u8 x = x.
Proof. intros H. unfold u8. now apply Z.mod_small. Qed.

Lemma nz_true x : nz x = true <-> x <> 0.
Proof. unfold nz. rewrite negb_true_iff, Z.eqb_neq. tauto. Qed.

Lemma mode_eqb_eq a b : mode_eqb a b = true -> a = b.
Proof. now destruct a, b. Qed.

Lemma nz_false x : nz x = false <-> x = 0.
Proof. unfold nz. rewrite negb_false_iff, Z.eqb_eq. tauto. Qed.

(** ** The piece accessor *)

(** C8.  [mcumax_get_piece]: an off-board square (a bit of 0x88 set) reads as
    empty; an on-board square reads as the low nibble of its cell with the
    0x8 bit flipped. *)
Theorem get_piece_spec (s : mcumax.t) (sq : Z) :
  mcumax_get_piece s sq =
    if Z.land sq 0x88 =? 0
    then Z.lxor (Z.land (board_get s sq) 0xf) 0x8
    else MCUMAX_EMPTY.
Proof.
  unfold mcumax_get_piece, nz, MCUMAX_BOARD_MASK, MCUMAX_BLACK.
  now destruct (Z.land sq 136 =? 0).
Qed.

(** ** The in-check probe without a king *)

Lemma king_scan_row_none s mask y xs ks :
  (forall x, In x xs ->
     nz (Z.land (board_get s (u8 (y * 16 + x))) mask)
     && (Z.land (board_get s (u8 (y * 16 + x))) 7 =? MCUMAX_KING) = false) ->
  king_scan_row s mask y xs ks = ks.
Proof.
  induction xs as [|x xs IH]; intros H; simpl; [reflexivity|].
  rewrite (H x) by now left.
  apply IH. intros x' Hx'. apply H. now right.
Qed.

Lemma king_scan_none s mask ys :
  (forall y x, In y ys -> In x [0; 1; 2; 3; 4; 5; 6; 7] ->
     nz (Z.land (board_get s (u8 (y * 16 + x))) mask)
     && (Z.land (board_get s (u8 (y * 16 + x))) 7 =? MCUMAX_KING) = false) ->
  king_scan s mask ys MCUMAX_SQUARE_INVALID = MCUMAX_SQUARE_INVALID.
Proof.
  induction ys as [|y ys IH]; intros H; [reflexivity|].
  cbn [king_scan].
  rewrite king_scan_row_none by (intros x Hx; apply H; [now left|exact Hx]).
  rewrite Z.eqb_refl. cbn [negb]. apply IH. intros y' x Hy' Hx. apply H; [now right|exact Hx].
Qed.

Lemma has_king_false s side sq :
  has_king s side = false -> In sq board_squares ->
  king_of side (board_get s sq) = false.
Proof.
  unfold has_king. intros H Hin.
  destruct (king_of side (board_get s sq)) eqn:E; [|reflexivity].
  assert (existsb (fun sq => king_of side (board_get s sq)) board_squares
          = true) as H' by (apply existsb_exists; eauto).
  congruence.
Qed.

(** C10.  When no on-board cell holds a king of [side], [is_in_check]
    answers false, whatever the fuel given to its ray loops. *)
Theorem is_in_check_without_king (fuel : nat) (s : mcumax.t) (side : Z) :
  has_king s side = false -> is_in_check fuel s side = Some false.
Proof.
  intros H. unfold is_in_check.
  rewrite king_scan_none; [reflexivity|].
  intros y x Hy Hx.
  apply (has_king_false s side (u8 (y * 16 + x)) H).
  simpl in Hy, Hx.
  repeat (destruct Hy as [<-|Hy]; [|]);
    try contradiction;
    repeat (destruct Hx as [<-|Hx]; [|]);
    try contradiction; vm_compute; tauto.
Qed.

Lemma is_in_check_without_king_witness :
  has_king (mcumax_set_fen_position "8/8/8/8/8/8/8/4K3 b - - 0 1"%string mcumax_zero)
           MCUMAX_BOARD_BLACK = false
  /\ is_in_check 8
       (mcumax_set_fen_position "8/8/8/8/8/8/8/4K3 b - - 0 1"%string mcumax_zero)
       MCUMAX_BOARD_BLACK = Some false.
Proof.
  split; [reflexivity|].
  apply is_in_check_without_king. reflexivity.
Defined.

(** ** Determinism of the best-move search *)

Lemma start_search_same_engine fuel mode move depth_max node_max s1 s2 :
  same_engine s1 s2 ->
  mcumax_start_search fuel mode move depth_max node_max s1
  = mcumax_start_search fuel mode move depth_max node_max s2.
Proof.
  intros [].
  destruct s1, s2; simpl in *; subst.
  reflexivity.
Qed.


(** ** Squares *)

(** A check on every integer of a range, by running it. *)
Lemma forallb_range (P : Z -> bool) (lo : Z) (n : nat) :
  forallb P (map (fun k => lo + Z.of_nat k) (seq 0 n)) = true ->
  forall x, lo <= x < lo + Z.of_nat n -> P x = true.
Proof.
  intros H x Hx.
  apply (proj1 (forallb_forall _ _) H).
  apply in_map_iff. exists (Z.to_nat (x - lo)). split; [lia|].
  apply in_seq. lia.
Qed.

Lemma byte_on_board x :
  0 <= x < 256 -> Z.land x MCUMAX_BOARD_MASK = 0 -> on_board x.
Proof.
  intros Hx H. split; [|exact H].
  pose proof (forallb_range
    (fun x => negb (Z.land x MCUMAX_BOARD_MASK =? 0) || (x <? 128)) 0 256
    eq_refl x Hx) as Hb.
  cbv beta in Hb. rewrite H in Hb. cbn in Hb. apply Z.ltb_lt in Hb. lia.
Qed.

Lemma ray_target_byte sv st v : 0 <= ray_target sv st v < 256.
Proof. unfold ray_target. destruct (nz _); apply u8_range. Qed.

Lemma ray_probe_move beta ep s sf spt st v cs cp cpv v1 :
  ray_probe beta ep s sf spt st v = ProbeMove cs cp cpv v1 ->
  Z.land st MCUMAX_BOARD_MASK = 0.
Proof.
  unfold ray_probe.
  destruct (nz (Z.land st MCUMAX_BOARD_MASK)) eqn:E; [discriminate|].
  intros _. now apply nz_false.
Qed.

(** ** What every step of the search preserves

    A property of the engine that each elementary write of the search keeps
    is kept by the whole recursion.  [play_ok] stands for "the commit of
    [MCUMAX_PLAY_MOVE] keeps it too"; the other modes never commit. *)

Section Preserved.
Variable Q : mcumax.t -> Prop.
Variable play_ok : Prop.
Hypothesis Q_board_put : forall i v s, Q s -> Q (board_put i v s).
Hypothesis Q_change_side : forall s, Q s -> Q (change_side s).
Hypothesis Q_square_from : forall v s, Q s -> Q (mcumax.set_square_from v s).
Hypothesis Q_square_to : forall v s, Q s -> Q (mcumax.set_square_to v s).
Hypothesis Q_node_count : forall v s, Q s -> Q (mcumax.set_node_count v s).
Hypothesis Q_stop : forall s, Q s -> Q (mcumax.set_stop_search true s).
Hypothesis Q_record : forall f t s, Q s -> Q (record_move f t s).
Hypothesis Q_commit : play_ok ->
  forall score cpv skip s,
    en_passant_ok skip -> Q s -> Q (commit_move score cpv skip s).

Lemma make_move_preserves score s sf st sp spt sv cs cpv skip rook :
  Q s -> Q (fst (fst (make_move score s sf st sp spt sv cs cpv skip rook))).
Proof.
  intros H. unfold make_move.
  repeat match goal with
         | |- context [if ?c then _ else _] => destruct c
         end; cbn [fst snd]; auto 10.
Qed.

Lemma undo_move_preserves sf st sp cs cp skip rook s :
  Q s -> Q (undo_move sf st sp cs cp skip rook s).
Proof. intros H. unfold undo_move. auto 10. Qed.

Lemma ray_post_state s sf sp spt sv svi st skip rook cp ss v :
  step_state (ray_post s sf sp spt sv svi st skip rook cp ss v) = Some s.
Proof.
  unfold ray_post.
  repeat match goal with
         | |- context [if ?c then _ else _] => destruct c
         end; reflexivity.
Qed.

Lemma ray_post_skip s sf sp spt sv svi st skip rook cp ss v :
  en_passant_ok skip -> on_board st ->
  step_skip_ok (ray_post s sf sp spt sv svi st skip rook cp ss v).
Proof.
  intros Hk Ht. unfold ray_post.
  repeat match goal with
         | |- context [if ?c then _ else _] => destruct c
         end; cbn [step_skip_ok]; auto; now right.
Qed.

Section Body.
Variable rec : search_fn.
Variables (alpha beta score en_passant_square : Z) (mode : mcumax_mode).
Hypothesis rec_preserves : forall a b sc ep d s r s',
  Q s -> rec a b sc ep d MCUMAX_INTERNAL_NODE s = Some (r, s') -> Q s'.
Hypothesis mode_ok : mode = MCUMAX_PLAY_MOVE -> play_ok.

Lemma futility_preserves n : forall id sa ss skip sd s r s',
  Q s ->
  futility rec alpha beta mode n id sa ss skip sd s = Some (r, s') ->
  Q s'.
Proof.
  induction n as [|n IH]; intros id sa ss skip sd s r s' H E;
    [discriminate|].
  cbn [futility] in E.
  destruct (mode_eqb mode MCUMAX_SEARCH_VALID_MOVES || (sd >? 2)
            || (ss >? sa)).
  - destruct (rec _ _ _ _ _ _ _) as [[r1 s1]|] eqn:Er; [|discriminate].
    apply rec_preserves in Er; [|auto].
    destruct (- r1 >? alpha); [destruct (_ <? id)|].
    + eapply IH; [|exact E]. auto.
    + inversion E; subst; auto.
    + inversion E; subst; auto.
  - destruct (ss >? alpha); [destruct (_ <? id)|].
    + eapply IH; [|exact E]. auto.
    + inversion E; subst; auto.
    + inversion E; subst; auto.
Qed.

Lemma ray_step_preserves n nms sf sp spt sv svi st skip rook v s :
  Q s -> en_passant_ok skip ->
  step_skip_ok (ray_step rec alpha beta score en_passant_square mode
                  n nms sf sp spt sv svi st skip rook v s)
  /\ forall s',
    step_state (ray_step rec alpha beta score en_passant_square mode
                  n nms sf sp spt sv svi st skip rook v s) = Some s' ->
    Q s'.
Proof.
  intros H Hk. unfold ray_step.
  destruct (ray_probe _ _ _ _ _ _ _) as [v1|v1|cs cp cpv v1] eqn:Ep;
    cbn [step_state step_skip_ok];
    try (split; [exact I|intros s' E; inversion E; subst; exact H]).
  assert (on_board (ray_target sv st v)) as Ht.
  { apply byte_on_board; [apply ray_target_byte|].
    eapply ray_probe_move; exact Ep. }
  destruct (_ >? 1).
  2:{ split; [now apply ray_post_skip|].
      rewrite ray_post_state. intros s' E; inversion E; subst; exact H. }
  pose proof (make_move_preserves score s sf
                (ray_target sv st v) sp spt sv cs cpv skip rook H) as H1.
  destruct (make_move _ _ _ _ _ _ _ _ _ _ _) as [[s1 ss] cpv1].
  cbn [fst] in H1.
  destruct (futility _ _ _ _ _ _ _ _ _ _ _) as [[r s2]|] eqn:Ef;
    [|split; [exact I|discriminate]].
  apply futility_preserves in Ef; [|exact H1].
  destruct (mode_eqb mode MCUMAX_PLAY_MOVE) eqn:Em; cbn [andb].
  - assert (mode = MCUMAX_PLAY_MOVE) as Hm by now destruct mode.
    destruct (negb _ && is_callers_move _ _ _);
      cbn [step_state step_skip_ok].
    + split; [exact I|].
      intros s' E; inversion E; subst. apply Q_commit; auto.
    + assert (mode_eqb mode MCUMAX_SEARCH_BEST_MOVE = false) as ->
        by now subst mode.
      assert (mode_eqb mode MCUMAX_SEARCH_VALID_MOVES = false) as ->
        by now subst mode.
      cbn [andb]. split; [now apply ray_post_skip|].
      rewrite ray_post_state.
      intros s' E; inversion E; subst. now apply undo_move_preserves.
  - destruct (mode_eqb mode MCUMAX_SEARCH_BEST_MOVE && _ && _);
      cbn [step_state step_skip_ok].
    + split; [exact I|].
      intros s' E; inversion E; subst. now apply undo_move_preserves.
    + split; [now apply ray_post_skip|].
      rewrite ray_post_state. intros s' E; inversion E; subst.
      destruct (_ && _); [apply Q_record|]; now apply undo_move_preserves.
Qed.

Lemma ray_loop_preserves n : forall nms sf sp spt sv svi st skip rook v s s',
  Q s -> en_passant_ok skip ->
  outcome_state (ray_loop rec alpha beta score en_passant_square mode
                   n nms sf sp spt sv svi st skip rook v s) = Some s' ->
  Q s'.
Proof.
  induction n as [|n IH];
    intros nms sf sp spt sv svi st skip rook v s s' H Hk;
    [discriminate|].
  cbn [ray_loop].
  destruct (ray_step_preserves n nms sf sp spt sv svi st skip rook v s
              H Hk) as [Hk1 Hs].
  destruct (ray_step _ _ _ _ _ _ _ _ _ _ _ _ _ _ _ _ _)
    as [v1 s1|v1 s1|r s1|v1 s1|st1 skip1 rook1 cp1 v1 s1|];
    cbn [step_state step_skip_ok outcome_state] in *;
    try (intros E; inversion E; subst; now apply Hs);
    try discriminate.
  - apply IH; [now apply Hs|now left].
  - destruct (nz cp1); cbn [outcome_state].
    + intros E; inversion E; subst; now apply Hs.
    + apply IH; [now apply Hs|exact Hk1].
Qed.

Lemma dir_loop_preserves n : forall nms sf sp spt sv svi v s s',
  Q s ->
  outcome_state (dir_loop rec alpha beta score en_passant_square mode
                   n nms sf sp spt sv svi v s) = Some s' ->
  Q s'.
Proof.
  induction n as [|n IH]; intros nms sf sp spt sv svi v s s' H;
    [discriminate|].
  cbn [dir_loop].
  destruct (if (spt >? 2) && (sv <? 0) then _ else _) as [sv1 svi1].
  destruct (nz sv1); cbn [outcome_state];
    [|intros E; inversion E; subst; exact H].
  pose proof (ray_loop_preserves n nms sf sp spt sv1 svi1 sf
                MCUMAX_SQUARE_INVALID MCUMAX_SQUARE_INVALID v s) as Hr.
  assert (en_passant_ok MCUMAX_SQUARE_INVALID) as Hk by now left.
  destruct (ray_loop _ _ _ _ _ _ _ _ _ _ _ _ _ _ _ _ _)
    as [v1 s1|v1 s1|r s1|]; cbn [outcome_state] in *;
    try (intros E; inversion E; subst; now apply Hr);
    try discriminate.
  apply IH. now apply Hr.
Qed.

Lemma scan_loop_preserves n : forall nms ss sf v s s',
  Q s ->
  outcome_state (scan_loop rec alpha beta score en_passant_square mode
                   n nms ss sf v s) = Some s' ->
  Q s'.
Proof.
  induction n as [|n IH]; intros nms ss sf v s s' H; [discriminate|].
  cbn [scan_loop].
  destruct (nz (Z.land _ _)).
  - pose proof (dir_loop_preserves n nms sf (board_get s sf)
                  (Z.land (board_get s sf) 7)
                  (s8 (Z.land (board_get s sf) 7))
                  (table mcumax_step_vectors_indices
                     (Z.land (board_get s sf) 7)) v s) as Hd.
    destruct (dir_loop _ _ _ _ _ _ _ _ _ _ _ _ _ _)
      as [v1 s1|v1 s1|r s1|]; cbn [outcome_state] in *;
      try (intros E; inversion E; subst; now apply Hd);
      try discriminate.
    destruct (negb _); cbn [outcome_state].
    + apply IH. now apply Hd.
    + intros E; inversion E; subst; now apply Hd.
  - destruct (negb _); cbn [outcome_state].
    + now apply IH.
    + intros E; inversion E; subst; exact H.
Qed.

Lemma iter_cond_preserves depth v s :
  Q s -> Q (snd (iter_cond mode depth v s)).
Proof.
  intros H. unfold iter_cond.
  repeat match goal with
         | |- context [if ?c then _ else _] => destruct c
         end; cbn [snd]; auto.
Qed.

Lemma null_move_preserves v s r s' :
  Q s -> null_move rec beta score v s = Some (r, s') -> Q s'.
Proof.
  intros H. unfold null_move.
  destruct (_ && _).
  - destruct (rec _ _ _ _ _ _ _) as [[r1 s1]|] eqn:Er; [|discriminate].
    intros E; inversion E; subst.
    apply Q_change_side. eapply rec_preserves; [|exact Er]. auto.
  - intros E; inversion E; subst. auto.
Qed.

Lemma iter_loop_preserves n : forall depth v s r s',
  Q s ->
  iter_loop rec alpha beta score en_passant_square mode n depth v s
  = Some (r, s') ->
  Q s'.
Proof.
  induction n as [|n IH]; intros depth v s r s' H; [discriminate|].
  cbn [iter_loop].
  pose proof (iter_cond_preserves depth v s H) as Hc.
  destruct (iter_cond mode depth v s) as [[go v1] s1]. cbn [snd] in Hc.
  destruct go; cbn [negb]; [|intros E; inversion E; subst; exact Hc].
  destruct (mcumax.stop_search s1);
    [intros E; inversion E; subst; exact Hc|].
  destruct (null_move _ _ _ _ _) as [[nms s2]|] eqn:En; [|discriminate].
  apply null_move_preserves in En; [|exact Hc].
  match goal with
  | |- context [scan_loop ?a ?b ?c ?d ?e ?f ?g ?h ?i ?j ?k ?l] =>
    pose proof (scan_loop_preserves g h i j k l) as Hs;
    destruct (scan_loop a b c d e f g h i j k l) as [v3 s3|v3 s3|r3 s3|]
  end; cbn [outcome_state] in Hs; try discriminate.
  - apply IH. apply Hs; auto.
  - apply IH. apply Hs; auto.
  - intros E; inversion E; subst. apply Hs; auto.
Qed.
End Body.

Lemma call_user_callback_preserves s : Q s -> Q (call_user_callback s).
Proof.
  intros H. unfold call_user_callback.
  destruct (mcumax.user_callback s) as [cb|]; [|exact H].
  destruct (cb _); auto.
Qed.

Lemma search_preserves fuel : forall alpha beta score ep depth mode s r s',
  (mode = MCUMAX_PLAY_MOVE -> play_ok) ->
  Q s ->
  mcumax_search fuel alpha beta score ep depth mode s = Some (r, s') ->
  Q s'.
Proof.
  induction fuel as [|n IH]; intros alpha beta score ep depth mode s r s'
    Hm H; [discriminate|].
  cbn [mcumax_search]. intros E.
  eapply iter_loop_preserves; [| exact Hm | | exact E].
  - intros a b sc e d s0 r0 s0' H0 E0.
    eapply IH; [|exact H0|exact E0]. discriminate.
  - now apply call_user_callback_preserves.
Qed.
End Preserved.

(** ** Well-formed engines stay well-formed *)

Lemma board_get_put_eq i v s :
  (Z.to_nat i < length (mcumax.board s))%nat ->
  board_get (board_put i v s) i = u8 v.
Proof.
  intros H. unfold board_get, board_put. cbn [mcumax.board mcumax.set_board].
  now rewrite list_lookup_insert_eq.
Qed.

Lemma board_get_put_ne i j v s :
  Z.to_nat i <> Z.to_nat j ->
  board_get (board_put i v s) j = board_get s j.
Proof.
  intros H. unfold board_get, board_put. cbn [mcumax.board mcumax.set_board].
  now rewrite list_lookup_insert_ne.
Qed.

Lemma board_get_byte s i :
  Forall (fun c => 0 <= c < 256) (mcumax.board s) -> 0 <= board_get s i < 256.
Proof.
  intros H. unfold board_get.
  destruct (mcumax.board s !! Z.to_nat i) as [c|] eqn:E; cbn [default]; [|lia].
  eapply (proj1 (Forall_lookup _ _) H); eauto.
Qed.

Lemma well_formed_board_put i v s :
  well_formed s -> well_formed (board_put i v s).
Proof.
  intros [Hl Hb Hs]. split; unfold board_put;
    cbn [mcumax.board mcumax.set_board mcumax.current_side].
  - now rewrite length_insert.
  - apply Forall_insert; [exact Hb|apply u8_range].
  - exact Hs.
Qed.

Lemma well_formed_change_side s : well_formed s -> well_formed (change_side s).
Proof.
  intros [Hl Hb Hs]. split; unfold change_side;
    cbn [mcumax.board mcumax.set_current_side mcumax.current_side]; auto.
  destruct Hs as [-> | ->]; [right|left]; reflexivity.
Qed.

Lemma well_formed_record f t s : well_formed s -> well_formed (record_move f t s).
Proof.
  intros [Hl Hb Hs]. unfold record_move.
  destruct (_ <? _); split; assumption.
Qed.

Lemma well_formed_commit score cpv skip s :
  well_formed s -> well_formed (commit_move score cpv skip s).
Proof.
  intros H. unfold commit_move. apply well_formed_change_side.
  destruct H as [Hl Hb Hs]. split; assumption.
Qed.

Lemma search_well_formed fuel alpha beta score ep depth mode s r s' :
  well_formed s ->
  mcumax_search fuel alpha beta score ep depth mode s = Some (r, s') ->
  well_formed s'.
Proof.
  intros H E.
  eapply (search_preserves well_formed True); try exact E; auto;
    try (intros; match goal with
                 | H : well_formed _ |- _ => destruct H; split; assumption
                 end).
  - intros; now apply well_formed_board_put.
  - intros; now apply well_formed_change_side.
  - intros; now apply well_formed_record.
  - intros; now apply well_formed_commit.
Qed.

(** ** The caller's move buffer *)

Lemma buffer_kept_record cap buf f t s :
  buffer_kept cap buf s -> buffer_kept cap buf (record_move f t s).
Proof.
  intros [Hs Hn Hl Hc]. unfold record_move.
  destruct (_ <? _) eqn:E; split;
    cbn [mcumax.valid_moves_buffer_size mcumax.valid_moves_num
         mcumax.valid_moves_buffer mcumax.set_valid_moves_buffer
         mcumax.set_valid_moves_num]; auto;
    try (unfold u32; apply Z.mod_pos_bound; lia).
  - now rewrite length_insert.
  - intros i Hi. rewrite list_lookup_insert_ne; [now apply Hc|].
    apply Z.ltb_lt in E. lia.
Qed.

Lemma search_buffer_kept cap buf fuel alpha beta score ep depth mode s r s' :
  buffer_kept cap buf s ->
  mcumax_search fuel alpha beta score ep depth mode s = Some (r, s') ->
  buffer_kept cap buf s'.
Proof.
  intros H E.
  eapply (search_preserves (buffer_kept cap buf) True); try exact E; auto;
    try (intros; match goal with
                 | H : buffer_kept _ _ _ |- _ => destruct H; split; assumption
                 end).
  intros; now apply buffer_kept_record.
Qed.

(** *** The count does not depend on the buffer *)

Lemma make_move_without_buffer score s sf st sp spt sv cs cpv skip rook :
  make_move score (without_buffer s) sf st sp spt sv cs cpv skip rook
  = (let '(s1, a, b) := make_move score s sf st sp spt sv cs cpv skip rook in
     (without_buffer s1, a, b)).
Proof.
  destruct s.
  unfold make_move, without_buffer, board_put, board_get. engine_fields.
  repeat (case_if; engine_fields); reflexivity.
Qed.

Lemma ray_post_without_buffer s sf sp spt sv svi st skip rook cp ss v :
  ray_post (without_buffer s) sf sp spt sv svi st skip rook cp ss v
  = step_map without_buffer (ray_post s sf sp spt sv svi st skip rook cp ss v).
Proof.
  unfold ray_post.
  change (board_get (without_buffer s)) with (board_get s).
  change (mcumax.current_side (without_buffer s)) with (mcumax.current_side s).
  repeat case_if; reflexivity.
Qed.

Lemma record_move_without_buffer f t s :
  record_move f t (without_buffer s) = without_buffer (record_move f t s).
Proof.
  unfold record_move, without_buffer.
  cbn [mcumax.valid_moves_num mcumax.valid_moves_buffer_size
       mcumax.valid_moves_buffer mcumax.set_valid_moves_buffer
       mcumax.set_valid_moves_buffer_size].
  repeat case_if; reflexivity.
Qed.

Section WithoutBuffer.
Variable rec : search_fn.
Variables (alpha beta score en_passant_square : Z) (mode : mcumax_mode).
Hypothesis rec_without_buffer : forall a b sc ep d m s,
  rec a b sc ep d m (without_buffer s)
  = result_map without_buffer (rec a b sc ep d m s).

Lemma futility_without_buffer n : forall id sa ss skip sd s,
  futility rec alpha beta mode n id sa ss skip sd (without_buffer s)
  = result_map without_buffer
      (futility rec alpha beta mode n id sa ss skip sd s).
Proof.
  induction n as [|n IH]; intros id sa ss skip sd s; [reflexivity|].
  cbn [futility].
  change (change_side (without_buffer s))
    with (without_buffer (change_side s)).
  destruct (mode_eqb mode MCUMAX_SEARCH_VALID_MOVES || (sd >? 2)
            || (ss >? sa)).
  - rewrite rec_without_buffer.
    destruct (rec _ _ _ _ _ _ _) as [[r1 s1]|]; cbn [result_map];
      [|reflexivity].
    change (change_side (without_buffer s1))
      with (without_buffer (change_side s1)).
    repeat case_if; [apply IH|reflexivity..].
  - change (change_side (without_buffer (change_side s)))
      with (without_buffer (change_side (change_side s))).
    repeat case_if; [apply IH|reflexivity..].
Qed.

Lemma ray_step_without_buffer n nms sf sp spt sv svi st skip rook v s :
  ray_step rec alpha beta score en_passant_square mode
    n nms sf sp spt sv svi st skip rook v (without_buffer s)
  = step_map without_buffer
      (ray_step rec alpha beta score en_passant_square mode
         n nms sf sp spt sv svi st skip rook v s).
Proof.
  unfold ray_step.
  change (ray_probe beta en_passant_square (without_buffer s))
    with (ray_probe beta en_passant_square s).
  destruct (ray_probe _ _ _ _ _ _ _) as [v1|v1|cs cp cpv v1];
    try reflexivity.
  destruct (_ >? 1); [|apply ray_post_without_buffer].
  rewrite make_move_without_buffer.
  destruct (make_move _ _ _ _ _ _ _ _ _ _ _) as [[s1 ss] cpv1].
  change (new_depth (without_buffer s1)) with (new_depth s1).
  rewrite futility_without_buffer.
  destruct (futility _ _ _ _ _ _ _ _ _ _ _) as [[r s2]|];
    cbn [result_map]; [|reflexivity].
  change (is_callers_move sf (ray_target sv st v) (without_buffer s2))
    with (is_callers_move sf (ray_target sv st v) s2).
  destruct (mode_eqb mode MCUMAX_PLAY_MOVE && _ && _); [reflexivity|].
  change (undo_move sf (ray_target sv st v) sp cs cp skip rook
            (without_buffer s2))
    with (without_buffer
            (undo_move sf (ray_target sv st v) sp cs cp skip rook s2)).
  set (s3 := undo_move sf (ray_target sv st v) sp cs cp skip rook s2).
  change (is_callers_move sf (ray_target sv st v) (without_buffer s3))
    with (is_callers_move sf (ray_target sv st v) s3).
  destruct (mode_eqb mode MCUMAX_SEARCH_BEST_MOVE && _ && _);
    [reflexivity|].
  change (mcumax.square_from (without_buffer s3))
    with (mcumax.square_from s3).
  destruct (_ && _ && _ && _ && _).
  - rewrite record_move_without_buffer. apply ray_post_without_buffer.
  - apply ray_post_without_buffer.
Qed.

Lemma ray_loop_without_buffer n :
  forall nms sf sp spt sv svi st skip rook v s,
  ray_loop rec alpha beta score en_passant_square mode
    n nms sf sp spt sv svi st skip rook v (without_buffer s)
  = outcome_map without_buffer
      (ray_loop rec alpha beta score en_passant_square mode
         n nms sf sp spt sv svi st skip rook v s).
Proof.
  induction n as [|n IH]; intros nms sf sp spt sv svi st skip rook v s;
    [reflexivity|].
  cbn [ray_loop]. rewrite ray_step_without_buffer.
  destruct (ray_step _ _ _ _ _ _ _ _ _ _ _ _ _ _ _ _ _)
    as [v1 s1|v1 s1|r s1|v1 s1|st1 skip1 rook1 cp1 v1 s1|];
    cbn [step_map]; try reflexivity.
  - apply IH.
  - destruct (nz cp1); [reflexivity|apply IH].
Qed.

Lemma dir_loop_without_buffer n : forall nms sf sp spt sv svi v s,
  dir_loop rec alpha beta score en_passant_square mode
    n nms sf sp spt sv svi v (without_buffer s)
  = outcome_map without_buffer
      (dir_loop rec alpha beta score en_passant_square mode
         n nms sf sp spt sv svi v s).
Proof.
  induction n as [|n IH]; intros nms sf sp spt sv svi v s; [reflexivity|].
  cbn [dir_loop].
  destruct (if (spt >? 2) && (sv <? 0) then _ else _) as [sv1 svi1].
  destruct (nz sv1); [|reflexivity].
  rewrite ray_loop_without_buffer.
  destruct (ray_loop _ _ _ _ _ _ _ _ _ _ _ _ _ _ _ _ _)
    as [v1 s1|v1 s1|r s1|]; cbn [outcome_map]; try reflexivity.
  apply IH.
Qed.

Lemma scan_loop_without_buffer n : forall nms ss sf v s,
  scan_loop rec alpha beta score en_passant_square mode
    n nms ss sf v (without_buffer s)
  = outcome_map without_buffer
      (scan_loop rec alpha beta score en_passant_square mode
         n nms ss sf v s).
Proof.
  induction n as [|n IH]; intros nms ss sf v s; [reflexivity|].
  cbn [scan_loop].
  change (board_get (without_buffer s)) with (board_get s).
  change (mcumax.current_side (without_buffer s))
    with (mcumax.current_side s).
  destruct (nz (Z.land _ _)).
  - rewrite dir_loop_without_buffer.
    destruct (dir_loop _ _ _ _ _ _ _ _ _ _ _ _ _ _)
      as [v1 s1|v1 s1|r s1|]; cbn [outcome_map]; try reflexivity.
    destruct (negb _); [apply IH|reflexivity].
  - cbn [outcome_map]. destruct (negb _); [apply IH|reflexivity].
Qed.

Lemma null_move_without_buffer v s :
  null_move rec beta score v (without_buffer s)
  = result_map without_buffer (null_move rec beta score v s).
Proof.
  unfold null_move.
  change (change_side (without_buffer s))
    with (without_buffer (change_side s)).
  destruct (_ && _).
  - rewrite rec_without_buffer.
    destruct (rec _ _ _ _ _ _ _) as [[r1 s1]|]; reflexivity.
  - reflexivity.
Qed.

Lemma iter_loop_without_buffer n : forall depth v s,
  iter_loop rec alpha beta score en_passant_square mode n depth v
    (without_buffer s)
  = result_map without_buffer
      (iter_loop rec alpha beta score en_passant_square mode n depth v s).
Proof.
  induction n as [|n IH]; intros depth v s; [reflexivity|].
  cbn [iter_loop].
  assert (iter_cond mode depth v (without_buffer s)
          = (let '(go, v1, s1) := iter_cond mode depth v s in
             (go, v1, without_buffer s1))) as ->.
  { unfold iter_cond.
    change (mcumax.square_from (without_buffer s))
      with (mcumax.square_from s).
    change (mcumax.node_count (without_buffer s))
      with (mcumax.node_count s).
    change (mcumax.node_max (without_buffer s)) with (mcumax.node_max s).
    change (mcumax.depth_max (without_buffer s)) with (mcumax.depth_max s).
    repeat case_if; reflexivity. }
  destruct (iter_cond mode depth v s) as [[go v1] s1].
  destruct go; cbn [negb]; [|reflexivity].
  change (mcumax.stop_search (without_buffer s1))
    with (mcumax.stop_search s1).
  destruct (mcumax.stop_search s1); [reflexivity|].
  rewrite null_move_without_buffer.
  destruct (null_move _ _ _ _ _) as [[nms s2]|]; cbn [result_map];
    [|reflexivity].
  change (seed_score beta score nms (set_replay_move
            (Z.land (iter_square_to v1) MCUMAX_SQUARE_INVALID) v1)
            (without_buffer s2))
    with (seed_score beta score nms (set_replay_move
            (Z.land (iter_square_to v1) MCUMAX_SQUARE_INVALID) v1) s2).
  change (mcumax.set_node_count
            (u32 (mcumax.node_count (without_buffer s2) + 1))
            (without_buffer s2))
    with (without_buffer
            (mcumax.set_node_count (u32 (mcumax.node_count s2 + 1)) s2)).
  rewrite scan_loop_without_buffer.
  destruct (scan_loop _ _ _ _ _ _ _ _ _ _ _ _) as [v3 s3|v3 s3|r3 s3|];
    cbn [outcome_map]; try reflexivity; apply IH.
Qed.
End WithoutBuffer.

Lemma search_without_buffer fuel : forall alpha beta score ep depth mode s,
  mcumax_search fuel alpha beta score ep depth mode (without_buffer s)
  = result_map without_buffer
      (mcumax_search fuel alpha beta score ep depth mode s).
Proof.
  induction fuel as [|n IH]; intros alpha beta score ep depth mode s;
    [reflexivity|].
  cbn [mcumax_search].
  assert (call_user_callback (without_buffer s)
          = without_buffer (call_user_callback s)) as ->.
  { unfold call_user_callback.
    change (mcumax.user_callback (without_buffer s))
      with (mcumax.user_callback s).
    change (mcumax.user_data (without_buffer s)) with (mcumax.user_data s).
    destruct (mcumax.user_callback s) as [cb|]; [|reflexivity].
    destruct (cb _); reflexivity. }
  apply iter_loop_without_buffer. exact IH.
Qed.

Lemma start_search_without_buffer fuel mode move depth_max node_max s :
  mcumax_start_search fuel mode move depth_max node_max (without_buffer s)
  = result_map without_buffer
      (mcumax_start_search fuel mode move depth_max node_max s).
Proof.
  exact (search_without_buffer fuel _ _ _ _ _ _
           (mcumax.set_stop_search false
              (mcumax.set_depth_max depth_max
                 (mcumax.set_node_count 0
                    (mcumax.set_node_max node_max
                       (mcumax.set_square_to (to move)
                          (mcumax.set_square_from (from move) s))))))).
Qed.

Lemma search_valid_moves_count fuel buf cap s :
  option_map fst (mcumax_search_valid_moves fuel buf cap s)
  = option_map fst (mcumax_search_valid_moves fuel [] 0 s).
Proof.
  unfold mcumax_search_valid_moves.
  change (mcumax.set_valid_moves_buffer_size 0
            (mcumax.set_valid_moves_buffer [] (mcumax.set_valid_moves_num 0 s)))
    with (without_buffer
            (mcumax.set_valid_moves_buffer_size cap
               (mcumax.set_valid_moves_buffer buf
                  (mcumax.set_valid_moves_num 0 s)))).
  rewrite start_search_without_buffer.
  destruct (mcumax_start_search _ _ _ _ _ _) as [[r s']|]; reflexivity.
Qed.

(** C3.  [mcumax_search_valid_moves] leaves every cell of the caller's
    buffer from index [cap] on as it found it (so it writes at most [cap]
    entries, and none when [cap] is 0), and the count it returns is the
    count of the same call made with a [NULL] buffer of capacity 0: the
    full number of moves, whatever the capacity. *)
Theorem search_valid_moves_buffer (fuel : nat) (buf : list mcumax_move)
    (cap : Z) (s : mcumax.t) (n : Z) (s' : mcumax.t) :
  mcumax_search_valid_moves fuel buf cap s = Some (n, s') ->
  (forall i : nat, cap <= Z.of_nat i ->
     mcumax.valid_moves_buffer s' !! i = buf !! i)
  /\ length (mcumax.valid_moves_buffer s') = length buf
  /\ n = mcumax.valid_moves_num s'
  /\ option_map fst (mcumax_search_valid_moves fuel [] 0 s) = Some n.
Proof.
  intros E.
  pose proof (search_valid_moves_count fuel buf cap s) as Hc.
  rewrite E in Hc. cbn [option_map fst] in Hc.
  unfold mcumax_search_valid_moves, mcumax_start_search in E.
  destruct (mcumax_search _ _ _ _ _ _ _ _) as [[r s1]|] eqn:Es;
    [|discriminate].
  inversion E; subst n s'; clear E.
  apply (search_buffer_kept cap buf) in Es.
  - destruct Es as [_ _ Hl Hcells]. auto.
  - split; cbn; auto; lia.
Qed.

Lemma search_valid_moves_buffer_witness :
  exists s',
    mcumax_search_valid_moves 100 [] 0 start_position = Some (20, s')
    /\ (forall i : nat, 0 <= Z.of_nat i ->
          mcumax.valid_moves_buffer s' !! i = @nil mcumax_move !! i)
    /\ 20 = mcumax.valid_moves_num s'.
Proof.
  eexists. split; [vm_compute; reflexivity|].
  refine ((fun H => conj (proj1 H) (proj1 (proj2 (proj2 H))))
            (search_valid_moves_buffer 100 [] 0 start_position 20 _ _)).
  vm_compute; reflexivity.
Defined.

(** C4.  From the starting position of [mcumax_init],
    [mcumax_search_valid_moves] with a capacity of at least 20 returns the
    count 20. *)
Theorem start_position_valid_moves (buf : list mcumax_move) (cap : Z) :
  20 <= cap ->
  exists s',
    mcumax_search_valid_moves 100 buf cap start_position = Some (20, s').
Proof.
  intros _.
  pose proof (search_valid_moves_count 100 buf cap start_position) as H.
  replace (option_map fst
             (mcumax_search_valid_moves 100 [] 0 start_position))
    with (Some 20) in H by (vm_compute; reflexivity).
  destruct (mcumax_search_valid_moves 100 buf cap start_position)
    as [[n s']|]; [|discriminate].
  cbn in H. inversion H. eauto.
Qed.

Lemma start_position_valid_moves_witness :
  20 <= 20
  /\ exists s',
       mcumax_search_valid_moves 100 (repeat MCUMAX_MOVE_INVALID 20) 20
         start_position = Some (20, s').
Proof.
  split; [lia|].
  apply (start_position_valid_moves (repeat MCUMAX_MOVE_INVALID 20) 20). lia.
Defined.


(** ** What the FEN parser preserves *)

Lemma for_range_keeps {A : Type} (P : A -> Prop) lo hi (body : Z -> A -> A) a :
  (forall i a, P a -> P (body i a)) -> P a -> P (for_range lo hi body a).
Proof.
  intros Hb. unfold for_range.
  generalize (map (fun k => lo + Z.of_nat k) (seq 0 (Z.to_nat (hi - lo)))).
  intros l. revert a. induction l as [|i l IH]; intros a Ha; cbn; auto.
Qed.

Section FenKeeps.
Variable P : mcumax.t -> Prop.
Hypothesis P_set_piece : forall sq piece s,
  P s -> P (snd (mcumax_set_piece sq piece s)).
Hypothesis P_clear_moved : forall sq s,
  In sq castling_homes -> P s -> P (clear_moved sq s).
Hypothesis P_side : forall v s, P s -> P (mcumax.set_current_side v s).
Hypothesis P_en_passant : forall c s, P s -> P (fen_en_passant c s).

Lemma fen_place_keeps piece f : P (engine f) -> P (engine (fen_place piece f)).
Proof.
  intros H. unfold fen_place.
  pose proof (P_set_piece (u8 (board_index f)) piece (engine f) H) as H1.
  destruct (mcumax_set_piece _ _ _) as [sq s]. exact H1.
Qed.

Lemma fen_board_keeps c f : P (engine f) -> P (engine (fen_board c f)).
Proof.
  intros H. unfold fen_board.
  destruct (board_index f <? 128); [|exact H].
  destruct c as [[] [] [] [] [] [] [] []]; cbv beta iota;
    first [ exact H
          | now apply fen_place_keeps
          | apply for_range_keeps;
            [intros _ f0 H0; now apply fen_place_keeps | exact H] ].
Qed.

Lemma fen_castling_keeps c s : P s -> P (fen_castling c s).
Proof.
  intros H. unfold fen_castling.
  destruct c as [[] [] [] [] [] [] [] []]; cbv beta iota;
    first [ exact H
          | apply P_clear_moved; [cbn; tauto|];
            apply P_clear_moved; [cbn; tauto|exact H] ].
Qed.

Lemma fen_side_keeps c s : P s -> P (fen_side c s).
Proof.
  intros H. unfold fen_side.
  destruct c as [[] [] [] [] [] [] [] []]; cbv beta iota;
    first [exact H | now apply P_side].
Qed.

Lemma fen_char_keeps c f : P (engine f) -> P (engine (fen_char c f)).
Proof.
  intros H. unfold fen_char.
  repeat case_if; cbn [engine]; auto using fen_board_keeps,
    fen_side_keeps, fen_castling_keeps.
Qed.

Lemma fen_loop_keeps fen : forall f,
  P (engine f) -> P (engine (fen_loop fen f)).
Proof.
  induction fen as [|c rest IH]; intros f H; cbn [fen_loop]; [exact H|].
  destruct (Ascii.eqb c zero); [exact H|].
  apply IH. now apply fen_char_keeps.
Qed.
End FenKeeps.

(** ** The en-passant slot *)

Lemma on_board_squares sq : on_board sq -> In sq board_squares.
Proof.
  intros [Hr Hm]. unfold board_squares.
  apply filter_In. split.
  - apply in_map_iff. exists (Z.to_nat sq). split; [lia|].
    apply in_seq. lia.
  - now apply Z.eqb_eq.
Qed.

Lemma en_passant_field_ok ep k :
  en_passant_ok ep -> 0 <= k < 128 -> Z.land k MCUMAX_BOARD_MASK = 0 ->
  en_passant_ok (u8 (Z.lor (Z.land ep 0x7f) k)).
Proof.
  intros Hep Hk Hm.
  assert (0 <= ep < 129) as Hr
    by (destruct Hep as [->|[? _]]; unfold MCUMAX_SQUARE_INVALID; lia).
  assert ((ep =? MCUMAX_SQUARE_INVALID)
          || (Z.land ep MCUMAX_BOARD_MASK =? 0) = true) as Hg.
  { destruct Hep as [->|[_ ->]]; [reflexivity|apply orb_true_r]. }
  right. apply byte_on_board; [apply u8_range|].
  pose proof (forallb_range (fun ep =>
    negb ((ep =? MCUMAX_SQUARE_INVALID)
          || (Z.land ep MCUMAX_BOARD_MASK =? 0))
    || forallb (fun k => negb (Z.land k MCUMAX_BOARD_MASK =? 0)
                         || (Z.land (u8 (Z.lor (Z.land ep 0x7f) k))
                                    MCUMAX_BOARD_MASK =? 0))
               (map (fun k => 0 + Z.of_nat k) (seq 0 128))) 0 129) as H.
  specialize (H ltac:(vm_compute; reflexivity) ep Hr). cbv beta in H.
  rewrite Hg in H. cbn [negb orb] in H.
  pose proof (forallb_range _ 0 128 H k Hk) as H2. cbv beta in H2.
  rewrite Hm in H2. cbn [Z.eqb negb orb] in H2. now apply Z.eqb_eq.
Qed.

Lemma fen_en_passant_ok c s :
  en_passant_ok (mcumax.en_passant_square s) ->
  en_passant_ok (mcumax.en_passant_square (fen_en_passant c s)).
Proof.
  intros H. unfold fen_en_passant.
  destruct c as [[] [] [] [] [] [] [] []]; cbv beta iota;
    first [ exact H
          | cbn [mcumax.en_passant_square mcumax.set_en_passant_square];
            apply en_passant_field_ok;
            [exact H | vm_compute; intuition discriminate | reflexivity] ].
Qed.

Lemma set_fen_position_en_passant fen s :
  en_passant_ok (mcumax.en_passant_square (mcumax_set_fen_position fen s)).
Proof.
  unfold mcumax_set_fen_position.
  apply (fen_loop_keeps (fun s => en_passant_ok (mcumax.en_passant_square s))).
  - intros sq piece s0 H. unfold mcumax_set_piece.
    destruct (nz _); exact H.
  - intros sq s0 _ H. exact H.
  - intros v s0 H. exact H.
  - intros c s0 H. now apply fen_en_passant_ok.
  - cbn. now left.
Qed.

Lemma search_keeps_en_passant fuel alpha beta score ep depth mode s r s' :
  mode <> MCUMAX_PLAY_MOVE ->
  mcumax_search fuel alpha beta score ep depth mode s = Some (r, s') ->
  mcumax.en_passant_square s' = mcumax.en_passant_square s.
Proof.
  intros Hm E.
  eapply (search_preserves
            (fun x => mcumax.en_passant_square x = mcumax.en_passant_square s)
            False); try exact E; auto; try contradiction.
  intros f t s0 H. unfold record_move. now destruct (_ <? _).
Qed.

Lemma search_en_passant_ok fuel alpha beta score ep depth mode s r s' :
  en_passant_ok (mcumax.en_passant_square s) ->
  mcumax_search fuel alpha beta score ep depth mode s = Some (r, s') ->
  en_passant_ok (mcumax.en_passant_square s').
Proof.
  intros H E.
  eapply (search_preserves
            (fun x => en_passant_ok (mcumax.en_passant_square x)) True);
    try exact E; auto.
  intros f t s0 H0. unfold record_move. now destruct (_ <? _).
Qed.

(** C5, as the code has it.  After every public operation the en-passant
    slot is the sentinel 0x80 or one of the 64 squares: [mcumax_init] sets
    the sentinel, [mcumax_set_fen_position] leaves the sentinel or a square,
    [mcumax_play_move] keeps the slot such, and the two searches leave the
    slot as it was. *)
Theorem en_passant_square_invariant (fuel : nat) (s : mcumax.t) :
  mcumax.en_passant_square (mcumax_init s) = MCUMAX_SQUARE_INVALID
  /\ (forall fen,
        en_passant_ok
          (mcumax.en_passant_square (mcumax_set_fen_position fen s)))
  /\ (forall move played s',
        en_passant_ok (mcumax.en_passant_square s) ->
        mcumax_play_move fuel move s = Some (played, s') ->
        en_passant_ok (mcumax.en_passant_square s'))
  /\ (forall buf cap n s',
        mcumax_search_valid_moves fuel buf cap s = Some (n, s') ->
        mcumax.en_passant_square s' = mcumax.en_passant_square s)
  /\ (forall node_max depth_max move s',
        mcumax_search_best_move fuel node_max depth_max s = Some (move, s') ->
        mcumax.en_passant_square s' = mcumax.en_passant_square s).
Proof.
  split; [reflexivity|].
  split; [intros fen; apply set_fen_position_en_passant|].
  split; [|split].
  - intros move played s' H E.
    unfold mcumax_play_move, mcumax_start_search in E.
    destruct (mcumax_search _ _ _ _ _ _ _ _) as [[r s1]|] eqn:Es;
      [|discriminate].
    inversion E; subst. eapply search_en_passant_ok; [|exact Es]. exact H.
  - intros buf cap n s' E.
    unfold mcumax_search_valid_moves, mcumax_start_search in E.
    destruct (mcumax_search _ _ _ _ _ _ _ _) as [[r s1]|] eqn:Es;
      [|discriminate].
    inversion E; subst.
    apply search_keeps_en_passant in Es; [exact Es|discriminate].
  - intros node_max depth_max move s' E.
    unfold mcumax_search_best_move, mcumax_start_search in E.
    destruct (mcumax_search _ _ _ _ _ _ _ _) as [[r s1]|] eqn:Es;
      [|discriminate].
    apply search_keeps_en_passant in Es; [|discriminate].
    destruct (r =? MCUMAX_SCORE_MAX); inversion E; subst; exact Es.
Qed.

(** C5 as stated fails: the FEN field [e6] and Black's double step e7-e5
    both leave the slot on 0x24, a square of rank 2 (of rank 6 in chess
    numbering), neither the sentinel nor a square of rank 3 or 4; and
    castling king-side leaves it on f1, 0x75, the square the king
    skipped. *)
Lemma en_passant_rank_counterexample :
  let after_fen :=
    mcumax_set_fen_position
      "rnbqkbnr/pppp1ppp/8/4p3/4P3/8/PPPP1PPP/RNBQKBNR w KQkq e6 0 2"%string
      mcumax_zero in
  mcumax.en_passant_square after_fen = 0x24
  /\ ~ (mcumax.en_passant_square after_fen = MCUMAX_SQUARE_INVALID
        \/ square_rank (mcumax.en_passant_square after_fen) = 3
        \/ square_rank (mcumax.en_passant_square after_fen) = 4)
  /\ (exists s1 s2,
        mcumax_play_move 100 (Move 0x64 0x44) start_position = Some (true, s1)
        /\ mcumax_play_move 100 (Move 0x14 0x34) s1 = Some (true, s2)
        /\ mcumax.en_passant_square s2 = 0x24)
  /\ (exists s1,
        mcumax_play_move 100 (Move 0x74 0x76)
          (mcumax_set_fen_position "4k3/8/8/8/8/8/8/4K2R w K - 0 1"%string
             mcumax_zero) = Some (true, s1)
        /\ mcumax.en_passant_square s1 = 0x75
        /\ square_rank (mcumax.en_passant_square s1) = 7).
Proof.
  cbv zeta. split; [vm_compute; reflexivity|]. split; [|split].
  - vm_compute. intuition discriminate.
  - eexists. eexists. split; [vm_compute; reflexivity|].
    split; [vm_compute; reflexivity|]. vm_compute; reflexivity.
  - eexists. split; [vm_compute; reflexivity|].
    vm_compute. split; reflexivity.
Qed.


(** ** Perfect undo *)

Lemma board_get_to_nat s i j :
  Z.to_nat i = Z.to_nat j -> board_get s i = board_get s j.
Proof. intros H. unfold board_get. now rewrite H. Qed.

Lemma board_get_put i j v s :
  (Z.to_nat j < length (mcumax.board s))%nat ->
  board_get (board_put i v s) j
  = if Nat.eqb (Z.to_nat i) (Z.to_nat j) then u8 v else board_get s j.
Proof.
  intros H. destruct (Nat.eqb_spec (Z.to_nat i) (Z.to_nat j)) as [E|E].
  - rewrite (board_get_to_nat _ j i) by congruence.
    apply board_get_put_eq. now rewrite E.
  - now apply board_get_put_ne.
Qed.

Lemma board_put_length i v s :
  length (mcumax.board (board_put i v s)) = length (mcumax.board s).
Proof.
  unfold board_put. cbn [mcumax.board mcumax.set_board].
  apply length_insert.
Qed.

Lemma same_position_refl s : same_position s s.
Proof. split; reflexivity. Qed.

Lemma same_position_trans s1 s2 s3 :
  same_position s1 s2 -> same_position s2 s3 -> same_position s1 s3.
Proof.
  intros [Hc1 Hs1 He1 Ho1 Hm1] [Hc2 Hs2 He2 Ho2 Hm2].
  split; try congruence.
  intros sq Hsq. rewrite Hc2, Hc1; auto.
Qed.

Lemma same_cells_nat s s' j :
  same_position s s' -> (Z.to_nat j < 128)%nat ->
  board_get s' j = board_get s j.
Proof.
  intros H Hj.
  rewrite (board_get_to_nat s' j (Z.of_nat (Z.to_nat j))) by lia.
  rewrite (board_get_to_nat s j (Z.of_nat (Z.to_nat j))) by lia.
  apply (same_cells _ _ H). lia.
Qed.

Lemma change_side_twice s :
  well_formed s ->
  mcumax.current_side (change_side (change_side s)) = mcumax.current_side s.
Proof.
  intros [_ _ [H|H]]; unfold change_side;
    cbn [mcumax.current_side mcumax.set_current_side]; rewrite H; reflexivity.
Qed.

(** A search below a side change, seen from above it. *)
Lemma same_position_change_side s s1 :
  well_formed s ->
  same_position (change_side s) s1 -> same_position s (change_side s1).
Proof.
  intros Hwf [Hc Hs He Ho Hm]. split.
  - intros sq Hsq. apply (Hc sq Hsq).
  - unfold change_side at 1.
    cbn [mcumax.current_side mcumax.set_current_side].
    rewrite Hs. now apply change_side_twice.
  - exact He.
  - exact Ho.
  - exact Hm.
Qed.

Lemma writes_only_refl idx s : writes_only idx s s.
Proof. split; reflexivity. Qed.

Lemma writes_only_put idx j v s s1 :
  In (Z.to_nat j) idx ->
  writes_only idx s s1 -> writes_only idx s (board_put j v s1).
Proof.
  intros Hj [Hl Hs He Ho Hm Hc]. split; try assumption.
  - now rewrite board_put_length.
  - intros i Hi. rewrite board_get_put_ne; [now apply Hc|].
    intros E. apply Hi. now rewrite <- E.
Qed.

Lemma make_move_writes score s sf st sp spt sv cs cpv skip rook :
  writes_only [Z.to_nat sf; Z.to_nat cs; Z.to_nat rook; Z.to_nat st;
               Z.to_nat skip] s
    (fst (fst (make_move score s sf st sp spt sv cs cpv skip rook))).
Proof.
  unfold make_move.
  repeat case_if; cbn [fst snd];
    repeat (apply writes_only_put; [cbn; tauto|]);
    apply writes_only_refl.
Qed.

(** The five writes of "Undo move" put back what the move replaced, on
    the facts the ray loop knows about the five squares. *)
Lemma undo_move_cells s s2 sf st sp cs cp skip rook :
  length (mcumax.board s2) = 129%nat ->
  (forall i, (Z.to_nat i < 128)%nat ->
     ~ In (Z.to_nat i) [Z.to_nat sf; Z.to_nat cs; Z.to_nat rook; Z.to_nat st;
                        Z.to_nat skip] ->
     board_get s2 i = board_get s i) ->
  ((Z.to_nat cs < 128)%nat -> u8 cp = board_get s cs) ->
  ((Z.to_nat sf < 128)%nat -> u8 sp = board_get s sf) ->
  ((Z.to_nat skip < 128)%nat -> board_get s skip = 0) ->
  ((Z.to_nat st < 128)%nat -> Z.to_nat st <> Z.to_nat cs ->
   board_get s st = 0) ->
  ((Z.to_nat rook < 128)%nat ->
   u8 (mcumax.current_side s2 + 6) = board_get s rook) ->
  forall i, (Z.to_nat i < 128)%nat ->
    board_get (undo_move sf st sp cs cp skip rook s2) i = board_get s i.
Proof.
  intros Hl H0 F1 F2 F3 F4 F5 i Hi. unfold undo_move.
  repeat (rewrite board_get_put by (rewrite ?board_put_length; lia)).
  destruct (Nat.eqb_spec (Z.to_nat cs) (Z.to_nat i)) as [E1|E1].
  { rewrite F1 by lia. now apply board_get_to_nat. }
  destruct (Nat.eqb_spec (Z.to_nat sf) (Z.to_nat i)) as [E2|E2].
  { rewrite F2 by lia. now apply board_get_to_nat. }
  destruct (Nat.eqb_spec (Z.to_nat skip) (Z.to_nat i)) as [E3|E3].
  { rewrite <- (board_get_to_nat s skip i E3). rewrite F3 by lia.
    reflexivity. }
  destruct (Nat.eqb_spec (Z.to_nat st) (Z.to_nat i)) as [E4|E4].
  { rewrite <- (board_get_to_nat s st i E4). rewrite F4 by lia.
    reflexivity. }
  destruct (Nat.eqb_spec (Z.to_nat rook) (Z.to_nat i)) as [E5|E5].
  { cbn [mcumax.current_side board_put mcumax.set_board].
    rewrite <- (board_get_to_nat s rook i E5). apply F5. lia. }
  apply H0; [exact Hi|]. cbn. intuition congruence.
Qed.

Section Undo.
Variable rec : search_fn.
(** The window after the delay-bonus adjustment. *)
Variables (alpha beta score en_passant_square : Z) (mode : mcumax_mode).
Hypothesis alpha_low : -8001 <= alpha.
Hypothesis alpha_beta : alpha < beta.
Hypothesis beta_high : beta <= MCUMAX_SCORE_MAX.
Hypothesis rec_well_formed : forall a b sc ep d s r s',
  well_formed s ->
  rec a b sc ep d MCUMAX_INTERNAL_NODE s = Some (r, s') -> well_formed s'.
Hypothesis rec_undoes : forall a b sc ep d s r s',
  -8000 <= a -> a < b -> b <= 8000 -> well_formed s ->
  rec a b sc ep d MCUMAX_INTERNAL_NODE s = Some (r, s') ->
  same_position s s'.

Lemma ray_probe_facts s sf spt st v cs cp cpv v1 :
  0 <= st < 256 ->
  ray_probe beta en_passant_square s sf spt st v
  = ProbeMove cs cp cpv v1 ->
  cp = board_get s cs
  /\ (cs = st
      \/ (cs = u8 (Z.lxor st 16)
          /\ (board_get s st = 0 \/ MCUMAX_SCORE_MAX <= iter_score v1)))
  /\ Z.land cp (mcumax.current_side s) = 0
  /\ (iter_score v1 >=? beta) && (iter_depth v1 >? 1) = false
  /\ (score_floor alpha v -> score_floor alpha v1)
  /\ (MCUMAX_SCORE_MAX <= iter_score v -> MCUMAX_SCORE_MAX <= iter_score v1)
  /\ replay_move v1 = replay_move v.
Proof.
  intros Hst. unfold ray_probe.
  destruct (nz (Z.land st MCUMAX_BOARD_MASK)) eqn:Em; [discriminate|].
  apply nz_false in Em.
  pose proof (byte_on_board st Hst Em) as [Hst' _].
  match goal with
  | |- context [if ?c then set_iter_score MCUMAX_SCORE_MAX v else v] =>
    set (flag := c)
  end.
  set (v0 := if flag then set_iter_score MCUMAX_SCORE_MAX v else v).
  set (cs0 := if (spt <? 3) && (st =? en_passant_square)
              then u8 (Z.lxor st 16) else st).
  match goal with
  | |- context [if ?c then ProbeBreak v0 else _] => destruct c eqn:Eo
  end; [discriminate|].
  apply orb_false_iff in Eo. destruct Eo as [Eo _]. apply nz_false in Eo.
  match goal with
  | |- context [if ?c <? 0 then _ else v0] => set (cpv0 := c)
  end.
  set (v2 := if cpv0 <? 0
             then set_iter_depth (u8 (MCUMAX_DEPTH_MAX - 1))
                    (set_iter_score MCUMAX_SCORE_MAX v0)
             else v0).
  destruct ((iter_score v2 >=? beta) && (iter_depth v2 >? 1)) eqn:Ec;
    [discriminate|].
  intros E. inversion E; subst cs cp cpv v1; clear E.
  assert (score_floor alpha v -> score_floor alpha v0) as Hf0.
  { subst v0. destruct flag; [|auto]. intros _. right. cbn.
    unfold MCUMAX_SCORE_MAX. lia. }
  assert (MCUMAX_SCORE_MAX <= iter_score v ->
          MCUMAX_SCORE_MAX <= iter_score v0) as Hm0.
  { subst v0. destruct flag; [|auto]. intros _. cbn. lia. }
  assert (replay_move v0 = replay_move v) as Hr0
    by (subst v0; now destruct flag).
  split; [reflexivity|]. split.
  { subst cs0.
    destruct ((spt <? 3) && (st =? en_passant_square)) eqn:Es; [|now left].
    right. split; [reflexivity|].
    apply andb_true_iff in Es. destruct Es as [_ Es].
    apply Z.eqb_eq in Es. subst en_passant_square.
    destruct (Z.eq_dec (board_get s st) 0) as [Hz|Hz]; [now left|right].
    assert (flag = true) as Hflag.
    { subst flag. apply nz_true in Hz. rewrite Hz.
      replace (st =? MCUMAX_SQUARE_INVALID) with false
        by (symmetry; apply Z.eqb_neq; unfold MCUMAX_SQUARE_INVALID; lia).
      rewrite Z.sub_diag. reflexivity. }
    subst v2. destruct (cpv0 <? 0); cbn; [lia|].
    subst v0. rewrite Hflag. cbn. lia. }
  split; [exact Eo|]. split; [exact Ec|].
  subst v2. destruct (cpv0 <? 0).
  - split; [|split].
    + intros _. right. cbn. unfold MCUMAX_SCORE_MAX. lia.
    + intros _. cbn. lia.
    + exact Hr0.
  - auto.
Qed.

Lemma ray_probe_floor s sf spt st v :
  score_floor alpha v ->
  match ray_probe beta en_passant_square s sf spt st v with
  | ProbeBreak v1 | ProbeCutoff v1 | ProbeMove _ _ _ v1 => score_floor alpha v1
  end.
Proof.
  intros H. unfold ray_probe.
  repeat (case_if; cbv iota);
    first [exact H | right; cbn; unfold MCUMAX_SCORE_MAX; lia].
Qed.

Lemma ray_invariant_transfer skip rook v v' s s' :
  same_position s s' ->
  (MCUMAX_SCORE_MAX <= iter_score v -> MCUMAX_SCORE_MAX <= iter_score v') ->
  ray_invariant skip rook v s -> ray_invariant skip rook v' s'.
Proof.
  intros Hp Hm [Hk Hr]. split.
  - intros H. rewrite (same_cells_nat s s' skip Hp H).
    destruct (Hk H); auto.
  - intros H. rewrite (same_cells_nat s s' rook Hp H), (same_side _ _ Hp).
    auto.
Qed.

Lemma side_byte s :
  well_formed s ->
  u8 (mcumax.current_side s + 6) = mcumax.current_side s + 6.
Proof. intros [_ _ [-> | ->]]; reflexivity. Qed.

Lemma not_own_not_255 s cp :
  well_formed s -> 0 <= cp < 256 ->
  Z.land cp (mcumax.current_side s) = 0 -> u8 (cp + 1) <> 0.
Proof.
  intros [_ _ Hs] Hcp Hl E.
  assert (cp = 255) as ->.
  { unfold u8 in E. apply Z.mod_divide in E; [|lia].
    destruct E as [k E]. lia. }
  destruct Hs as [Hs|Hs]; rewrite Hs in Hl; discriminate.
Qed.

Lemma ray_post_facts s sf sp spt sv svi st skip rook cp ss v :
  well_formed s -> 0 <= cp < 256 ->
  Z.land cp (mcumax.current_side s) = 0 ->
  score_floor alpha v -> ray_invariant skip rook v s ->
  ((Z.to_nat st < 128)%nat -> cp = 0 ->
   board_get s st = 0 \/ MCUMAX_SCORE_MAX <= iter_score v) ->
  match ray_post s sf sp spt sv svi st skip rook cp ss v with
  | StepReplay v2 s' => s' = s /\ score_floor alpha v2
  | StepNext _ skip' rook' cp' v2 s' =>
    s' = s /\ score_floor alpha v2 /\ (cp' = 0 -> ray_invariant skip' rook' v2 s)
  | _ => False
  end.
Proof.
  intros Hwf Hcp Hown Hf Hinv Hst. unfold ray_post.
  set (v2 := if ss >? iter_score v then _ else v).
  assert (score_floor alpha v2) as Hf2.
  { subst v2. destruct (ss >? iter_score v) eqn:E; [|exact Hf].
    apply Z.gtb_lt in E. destruct Hf as [Hf|Hf]; [now left|right].
    cbn. lia. }
  assert (MCUMAX_SCORE_MAX <= iter_score v ->
          MCUMAX_SCORE_MAX <= iter_score v2) as Hm.
  { subst v2. destruct (ss >? iter_score v) eqn:E; [|auto].
    apply Z.gtb_lt in E. cbn. lia. }
  assert (ray_invariant skip rook v2 s) as Hinv2
    by (eapply ray_invariant_transfer;
        [apply same_position_refl|exact Hm|exact Hinv]).
  assert (cp = 0 -> ray_invariant st rook v2 s) as Hpawn.
  { intros Hz. split; [|apply Hinv2].
    intros H. destruct (Hst H Hz); auto. }
  destruct (nz (replay_move v2)); [auto|].
  destruct (nz (sf + sv - st) || nz (Z.land sp MCUMAX_PIECE_MOVED));
    [auto|].
  destruct (spt >? 2); [|auto].
  destruct (negb (spt =? 4) || negb (svi =? 7)) eqn:Ek; [auto|].
  apply orb_false_iff in Ek. destruct Ek as [Ek _].
  apply negb_false_iff, Z.eqb_eq in Ek. subst spt.
  match goal with
  | |- context [if ?c then _ else _] => destruct c eqn:Er
  end.
  - split; [reflexivity|]. split; [exact Hf2|].
    intros E. exfalso. revert E. now apply (not_own_not_255 s).
  - split; [reflexivity|]. split; [exact Hf2|].
    intros Hz. split; [apply (Hpawn Hz)|].
    intros _. apply orb_false_iff in Er. destruct Er as [Er _].
    apply orb_false_iff in Er. destruct Er as [Er _].
    apply nz_false in Er. lia.
Qed.

Lemma make_move_well_formed s sf st sp spt sv cs cpv skip rook :
  well_formed s ->
  well_formed (fst (fst (make_move score s sf st sp spt sv cs cpv skip rook))).
Proof.
  apply make_move_preserves. intros; now apply well_formed_board_put.
Qed.

Lemma undo_move_well_formed sf st sp cs cp skip rook s :
  well_formed s -> well_formed (undo_move sf st sp cs cp skip rook s).
Proof.
  apply undo_move_preserves. intros; now apply well_formed_board_put.
Qed.

Lemma futility_well_formed n id sa ss skip sd s r s' :
  well_formed s ->
  futility rec alpha beta mode n id sa ss skip sd s = Some (r, s') ->
  well_formed s'.
Proof.
  apply (futility_preserves well_formed).
  - intros; now apply well_formed_change_side.
  - exact rec_well_formed.
Qed.

Lemma futility_undoes n : forall id sa ss skip sd s r s',
  well_formed s -> -8000 <= sa -> sa < beta ->
  futility rec alpha beta mode n id sa ss skip sd s = Some (r, s') ->
  same_position s s'.
Proof.
  unfold MCUMAX_SCORE_MAX in beta_high.
  induction n as [|n IH]; intros id sa ss skip sd s r s' Hwf Hlo Hhi E;
    [discriminate|].
  cbn [futility] in E.
  assert (forall s1 r1 s1',
            well_formed s1 -> same_position s s1 ->
            (if r1 >? alpha
             then if u8 (sd + 1) <? id
                  then futility rec alpha beta mode n id sa ss skip
                         (u8 (sd + 1)) s1
                  else Some (r1, s1)
             else Some (r1, s1)) = Some (r, s1') ->
            same_position s s1') as Hloop.
  { intros s1 r1 s1' Hwf1 Hp E1.
    destruct (r1 >? alpha); [destruct (_ <? id)|].
    - eapply same_position_trans; [exact Hp|]. eapply IH; eauto.
    - now inversion E1; subst.
    - now inversion E1; subst. }
  destruct (mode_eqb mode MCUMAX_SEARCH_VALID_MOVES || (sd >? 2)
            || (ss >? sa)).
  - destruct (rec _ _ _ _ _ _ _) as [[r1 s1]|] eqn:Er; [|discriminate].
    pose proof (rec_well_formed _ _ _ _ _ _ _ _
                  (well_formed_change_side s Hwf) Er) as Hwf1.
    apply rec_undoes in Er; [|lia|lia|lia|now apply well_formed_change_side].
    eapply Hloop; [|  |exact E].
    + now apply well_formed_change_side.
    + now apply same_position_change_side.
  - eapply Hloop; [| |exact E].
    + now apply well_formed_change_side, well_formed_change_side.
    + apply same_position_change_side; [exact Hwf|].
      apply same_position_refl.
Qed.

Lemma undo_move_fields sf st sp cs cp skip rook s :
  mcumax.current_side (undo_move sf st sp cs cp skip rook s)
  = mcumax.current_side s
  /\ mcumax.en_passant_square (undo_move sf st sp cs cp skip rook s)
     = mcumax.en_passant_square s
  /\ mcumax.score (undo_move sf st sp cs cp skip rook s) = mcumax.score s
  /\ mcumax.non_pawn_material (undo_move sf st sp cs cp skip rook s)
     = mcumax.non_pawn_material s.
Proof. repeat split. Qed.

Lemma record_move_same_position f t s : same_position s (record_move f t s).
Proof.
  unfold record_move. destruct (_ <? _); split; intros; reflexivity.
Qed.

(** One move made and taken back. *)
Lemma move_undone n nms id sa sf st sp spt sv cs cp cpv skip rook v s
    s1 ss cpv1 r s2 :
  well_formed s ->
  ((Z.to_nat sf < 128)%nat -> sp = board_get s sf) ->
  cp = board_get s cs ->
  ((Z.to_nat skip < 128)%nat -> board_get s skip = 0) ->
  ((Z.to_nat st < 128)%nat -> Z.to_nat st <> Z.to_nat cs ->
   board_get s st = 0) ->
  ((Z.to_nat rook < 128)%nat ->
   board_get s rook = mcumax.current_side s + 6) ->
  -8000 <= sa -> sa < beta ->
  make_move score s sf st sp spt sv cs cpv skip rook = (s1, ss, cpv1) ->
  futility rec alpha beta mode n id sa ss skip
    (new_depth s1 spt cp nms v) s1 = Some (r, s2) ->
  same_position s (undo_move sf st sp cs cp skip rook s2).
Proof.
  intros Hwf Hsp Hcp Hskip Hst Hrook Hlo Hhi Em Ef.
  pose proof (make_move_writes score s sf st sp spt sv cs cpv skip rook)
    as Hw.
  pose proof (make_move_well_formed s sf st sp spt sv cs cpv skip rook Hwf)
    as Hwf1.
  rewrite Em in Hw, Hwf1. cbn [fst] in Hw, Hwf1.
  pose proof (futility_well_formed _ _ _ _ _ _ _ _ _ Hwf1 Ef) as Hwf2.
  apply futility_undoes in Ef; [|exact Hwf1|exact Hlo|exact Hhi].
  destruct Hw as [_ Hws Hwe Hwo Hwm Hwc].
  destruct Ef as [Hc2 Hs2 He2 Ho2 Hm2].
  destruct (undo_move_fields sf st sp cs cp skip rook s2)
    as (Us & Ue & Uo & Um).
  split; try congruence.
  intros sq Hsq.
  apply (undo_move_cells s s2); try assumption.
  - apply (wf_length _ Hwf2).
  - intros i Hi Hni.
    rewrite (same_cells_nat s1 s2 i (SamePosition _ _ Hc2 Hs2 He2 Ho2 Hm2) Hi).
    now apply Hwc.
  - intros _. subst cp. apply u8_small, board_get_byte, (wf_bytes _ Hwf).
  - intros H. rewrite (Hsp H).
    apply u8_small, board_get_byte, (wf_bytes _ Hwf).
  - intros H. rewrite Hs2, Hws, (side_byte s Hwf). symmetry. now apply Hrook.
  - lia.
Qed.

Lemma ray_step_undoes n nms sf sp spt sv svi st skip rook v s :
  well_formed s -> score_floor alpha v -> ray_invariant skip rook v s ->
  ((Z.to_nat sf < 128)%nat -> sp = board_get s sf) ->
  match ray_step rec alpha beta score en_passant_square mode
          n nms sf sp spt sv svi st skip rook v s with
  | StepBreak v1 s1 | StepCutoff v1 s1 => s1 = s /\ score_floor alpha v1
  | StepReturn r s1 => settled mode beta s r s1
  | StepReplay v1 s1 => same_position s s1 /\ score_floor alpha v1
  | StepNext _ skip1 rook1 cp1 v1 s1 =>
    same_position s s1 /\ score_floor alpha v1
    /\ (cp1 = 0 -> ray_invariant skip1 rook1 v1 s1)
  | StepFuel => True
  end.
Proof.
  intros Hwf Hf Hinv Hsp. unfold ray_step.
  set (st' := ray_target sv st v).
  pose proof (ray_target_byte sv st v) as Hst'. fold st' in Hst'.
  pose proof (ray_probe_floor s sf spt st' v Hf) as Hpf.
  destruct (ray_probe beta en_passant_square s sf spt st' v)
    as [v1|v1|cs cp cpv v1] eqn:Ep; [auto|auto|].
  destruct (ray_probe_facts _ _ _ _ _ _ _ _ _ Hst' Ep)
    as (Hcp & Hcs & Hown & Hcut & _ & Hmono & Hrep).
  assert (0 <= cp < 256) as Hcpb
    by (subst cp; apply board_get_byte, (wf_bytes _ Hwf)).
  assert (ray_invariant skip rook v1 s) as Hinv1
    by (eapply ray_invariant_transfer;
        [apply same_position_refl|exact Hmono|exact Hinv]).
  assert ((Z.to_nat st' < 128)%nat -> cp = 0 ->
          board_get s st' = 0 \/ MCUMAX_SCORE_MAX <= iter_score v1) as Hst0.
  { intros _ Hz. destruct Hcs as [->|[_ H]]; [left; congruence|exact H]. }
  (* what the ray knows once the step is over, on a state with the same
     position *)
  assert (forall s4 ss, well_formed s4 -> same_position s s4 ->
          match ray_post s4 sf sp spt sv svi st' skip rook cp ss v1 with
          | StepBreak v1 s1 | StepCutoff v1 s1 => s1 = s /\ score_floor alpha v1
          | StepReturn r s1 => settled mode beta s r s1
          | StepReplay v1 s1 => same_position s s1 /\ score_floor alpha v1
          | StepNext _ skip1 rook1 cp1 v1 s1 =>
            same_position s s1 /\ score_floor alpha v1
            /\ (cp1 = 0 -> ray_invariant skip1 rook1 v1 s1)
          | StepFuel => True
          end) as Hpost.
  { intros s4 ss Hwf4 Hp4.
    pose proof (ray_post_facts s4 sf sp spt sv svi st' skip rook cp ss v1
                  Hwf4 Hcpb) as H.
    rewrite (same_side _ _ Hp4) in H. specialize (H Hown Hpf).
    specialize (H (ray_invariant_transfer _ _ _ _ _ _ Hp4 (fun x => x) Hinv1)).
    assert ((Z.to_nat st' < 128)%nat -> cp = 0 ->
            board_get s4 st' = 0 \/ MCUMAX_SCORE_MAX <= iter_score v1) as H4.
    { intros Hlt Hz. rewrite (same_cells_nat s s4 st' Hp4 Hlt). auto. }
    specialize (H H4).
    destruct (ray_post _ _ _ _ _ _ _ _ _ _ _ _) as [| | | |?????|];
      try contradiction.
    - destruct H as [-> H]. auto.
    - destruct H as (-> & H1 & H2). auto. }
  destruct (iter_depth v1 - b2z (negb (nz cp)) >? 1) eqn:Ed.
  2:{ apply Hpost; [exact Hwf|apply same_position_refl]. }
  (* a move is made: the iteration is at depth 2 or more and has not
     failed high *)
  assert (iter_score v1 < beta) as Hlow.
  { apply Z.gtb_lt in Ed.
    assert ((iter_depth v1 >? 1) = true) as Hd
      by (apply Z.gtb_lt; unfold b2z in Ed; destruct (negb (nz cp)); lia).
    rewrite Hd, andb_true_r in Hcut.
    destruct (Z.geb_spec (iter_score v1) beta); [discriminate|lia]. }
  destruct (make_move score s sf st' sp spt sv cs cpv skip rook)
    as [[s1 ss] cpv1] eqn:Em.
  set (sa := if iter_score v1 >? alpha then iter_score v1 else alpha).
  destruct (futility _ _ _ _ _ _ _ _ _ _ _) as [[r s2]|] eqn:Ef; [|exact I].
  assert (same_position s (undo_move sf st' sp cs cp skip rook s2)) as Hu.
  { eapply (move_undone n nms (iter_depth v1) sa); try eassumption.
    - intros H. destruct (proj1 Hinv1 H) as [Hz|Hz]; [exact Hz|].
      unfold MCUMAX_SCORE_MAX in *. lia.
    - intros H Hne. destruct Hcs as [->|[_ [Hz|Hz]]];
        [congruence|exact Hz|unfold MCUMAX_SCORE_MAX in *; lia].
    - apply (proj2 Hinv1).
    - subst sa. destruct (Z.gtb_spec (iter_score v1) alpha);
        [destruct Hpf; lia|destruct Hpf; lia].
    - subst sa. destruct (iter_score v1 >? alpha); lia. }
  assert (well_formed (undo_move sf st' sp cs cp skip rook s2)) as Hwu.
  { apply undo_move_well_formed.
    eapply futility_well_formed; [|exact Ef].
    pose proof (make_move_well_formed s sf st' sp spt sv cs cpv skip rook
                  Hwf) as H.
    now rewrite Em in H. }
  destruct (mode_eqb mode MCUMAX_PLAY_MOVE) eqn:Emode; cbn [andb].
  - assert (mode = MCUMAX_PLAY_MOVE) as Hm by now apply mode_eqb_eq.
    destruct (negb _ && is_callers_move _ _ _).
    + left. auto.
    + assert (mode_eqb mode MCUMAX_SEARCH_BEST_MOVE = false) as ->
        by now rewrite Hm.
      assert (mode_eqb mode MCUMAX_SEARCH_VALID_MOVES = false) as ->
        by now rewrite Hm.
      cbn [andb]. now apply Hpost.
  - destruct (mode_eqb mode MCUMAX_SEARCH_BEST_MOVE && _ && _).
    + right. exact Hu.
    + destruct (_ && _ && _ && _ && _).
      * apply Hpost.
        -- now apply well_formed_record.
        -- eapply same_position_trans;
             [exact Hu|apply record_move_same_position].
      * now apply Hpost.
Qed.

Lemma settled_trans s s1 r s' :
  same_position s s1 -> settled mode beta s1 r s' -> settled mode beta s r s'.
Proof.
  intros H [H1|H1]; [now left|right].
  eapply same_position_trans; eauto.
Qed.

Lemma outcome_undoes_trans s s1 o :
  same_position s s1 ->
  outcome_undoes alpha beta mode s1 o -> outcome_undoes alpha beta mode s o.
Proof.
  intros H. destruct o as [v2 s2|v2 s2|r s2|]; cbn [outcome_undoes]; auto.
  - intros [H1 H2]. split; [|exact H2]. eapply same_position_trans; eauto.
  - intros [H1 H2]. split; [|exact H2]. eapply same_position_trans; eauto.
  - now apply settled_trans.
Qed.

Ltac well_formed_steps :=
  first [ exact rec_well_formed
        | exact (fun _ : mode = MCUMAX_PLAY_MOVE => I)
        | intros; now apply well_formed_board_put
        | intros; now apply well_formed_change_side
        | intros; now apply well_formed_record
        | intros; now apply well_formed_commit
        | intros; match goal with
                  | H : well_formed _ |- _ => destruct H; split; assumption
                  end ].

Lemma ray_step_well_formed n nms sf sp spt sv svi st skip rook v s :
  well_formed s -> en_passant_ok skip ->
  step_skip_ok (ray_step rec alpha beta score en_passant_square mode
                  n nms sf sp spt sv svi st skip rook v s)
  /\ forall s',
    step_state (ray_step rec alpha beta score en_passant_square mode
                  n nms sf sp spt sv svi st skip rook v s) = Some s' ->
    well_formed s'.
Proof.
  apply (ray_step_preserves well_formed True); well_formed_steps.
Qed.

Lemma ray_loop_well_formed n nms sf sp spt sv svi st skip rook v s s' :
  well_formed s -> en_passant_ok skip ->
  outcome_state (ray_loop rec alpha beta score en_passant_square mode
                   n nms sf sp spt sv svi st skip rook v s) = Some s' ->
  well_formed s'.
Proof.
  apply (ray_loop_preserves well_formed True); well_formed_steps.
Qed.

Lemma dir_loop_well_formed n nms sf sp spt sv svi v s s' :
  well_formed s ->
  outcome_state (dir_loop rec alpha beta score en_passant_square mode
                   n nms sf sp spt sv svi v s) = Some s' ->
  well_formed s'.
Proof.
  apply (dir_loop_preserves well_formed True); well_formed_steps.
Qed.

Lemma scan_loop_well_formed n nms ss sf v s s' :
  well_formed s ->
  outcome_state (scan_loop rec alpha beta score en_passant_square mode
                   n nms ss sf v s) = Some s' ->
  well_formed s'.
Proof.
  apply (scan_loop_preserves well_formed True); well_formed_steps.
Qed.

Lemma ray_invariant_start v s :
  ray_invariant MCUMAX_SQUARE_INVALID MCUMAX_SQUARE_INVALID v s.
Proof. split; intros H; unfold MCUMAX_SQUARE_INVALID in H; lia. Qed.

Lemma ray_loop_undoes n : forall nms sf sp spt sv svi st skip rook v s,
  well_formed s -> score_floor alpha v -> ray_invariant skip rook v s ->
  en_passant_ok skip ->
  ((Z.to_nat sf < 128)%nat -> sp = board_get s sf) ->
  outcome_undoes alpha beta mode s
    (ray_loop rec alpha beta score en_passant_square mode
       n nms sf sp spt sv svi st skip rook v s).
Proof.
  induction n as [|n IH];
    intros nms sf sp spt sv svi st skip rook v s Hwf Hf Hinv Hk Hsp;
    [exact I|].
  cbn [ray_loop].
  pose proof (ray_step_undoes n nms sf sp spt sv svi st skip rook v s
                Hwf Hf Hinv Hsp) as Hu.
  destruct (ray_step_well_formed n nms sf sp spt sv svi st skip rook v s
              Hwf Hk) as [Hk1 Hw].
  destruct (ray_step _ _ _ _ _ _ _ _ _ _ _ _ _ _ _ _ _)
    as [v1 s1|v1 s1|r s1|v1 s1|st1 skip1 rook1 cp1 v1 s1|];
    cbn [step_state step_skip_ok outcome_undoes] in *.
  - destruct Hu as [-> Hu]. split; [apply same_position_refl|exact Hu].
  - destruct Hu as [-> Hu]. split; [apply same_position_refl|exact Hu].
  - exact Hu.
  - destruct Hu as [Hp Hf1].
    apply (outcome_undoes_trans s s1); [exact Hp|].
    apply IH; auto.
    + apply ray_invariant_start.
    + now left.
    + intros H. rewrite (same_cells_nat s s1 sf Hp H). auto.
  - destruct Hu as (Hp & Hf1 & Hinv1).
    destruct (nz cp1) eqn:Ez; cbn [outcome_undoes]; [auto|].
    apply nz_false in Ez.
    apply (outcome_undoes_trans s s1); [exact Hp|].
    apply IH; auto.
    intros H. rewrite (same_cells_nat s s1 sf Hp H). auto.
  - exact I.
Qed.

Lemma dir_loop_undoes n : forall nms sf sp spt sv svi v s,
  well_formed s -> score_floor alpha v ->
  ((Z.to_nat sf < 128)%nat -> sp = board_get s sf) ->
  outcome_undoes alpha beta mode s
    (dir_loop rec alpha beta score en_passant_square mode
       n nms sf sp spt sv svi v s).
Proof.
  induction n as [|n IH]; intros nms sf sp spt sv svi v s Hwf Hf Hsp;
    [exact I|].
  cbn [dir_loop].
  destruct (if (spt >? 2) && (sv <? 0) then _ else _) as [sv1 svi1].
  destruct (nz sv1); cbn [outcome_undoes];
    [|split; [apply same_position_refl|exact Hf]].
  pose proof (ray_loop_undoes n nms sf sp spt sv1 svi1 sf
                MCUMAX_SQUARE_INVALID MCUMAX_SQUARE_INVALID v s Hwf Hf
                (ray_invariant_start v s) (or_introl eq_refl) Hsp) as Hu.
  pose proof (ray_loop_well_formed n nms sf sp spt sv1 svi1 sf
                MCUMAX_SQUARE_INVALID MCUMAX_SQUARE_INVALID v s) as Hw.
  destruct (ray_loop _ _ _ _ _ _ _ _ _ _ _ _ _ _ _ _ _)
    as [v1 s1|v1 s1|r s1|]; cbn [outcome_undoes outcome_state] in *; auto.
  destruct Hu as [Hp Hf1].
  apply (outcome_undoes_trans s s1); [exact Hp|].
  apply IH; auto.
  - apply Hw; auto. now left.
  - intros H. rewrite (same_cells_nat s s1 sf Hp H). auto.
Qed.

Lemma scan_loop_undoes n : forall nms ss sf v s,
  well_formed s -> score_floor alpha v ->
  outcome_undoes alpha beta mode s
    (scan_loop rec alpha beta score en_passant_square mode n nms ss sf v s).
Proof.
  induction n as [|n IH]; intros nms ss sf v s Hwf Hf; [exact I|].
  cbn [scan_loop].
  destruct (nz (Z.land _ _)).
  - pose proof (dir_loop_undoes n nms sf (board_get s sf)
                  (Z.land (board_get s sf) 7)
                  (s8 (Z.land (board_get s sf) 7))
                  (table mcumax_step_vectors_indices
                     (Z.land (board_get s sf) 7)) v s Hwf Hf
                  (fun _ => eq_refl)) as Hu.
    pose proof (dir_loop_well_formed n nms sf (board_get s sf)
                  (Z.land (board_get s sf) 7)
                  (s8 (Z.land (board_get s sf) 7))
                  (table mcumax_step_vectors_indices
                     (Z.land (board_get s sf) 7)) v s) as Hw.
    destruct (dir_loop _ _ _ _ _ _ _ _ _ _ _ _ _ _)
      as [v1 s1|v1 s1|r s1|]; cbn [outcome_undoes outcome_state] in *; auto.
    destruct Hu as [Hp Hf1].
    destruct (negb _); cbn [outcome_undoes]; [|auto].
    apply (outcome_undoes_trans s s1); [exact Hp|].
    apply IH; auto.
  - destruct (negb _); cbn [outcome_undoes].
    + now apply IH.
    + split; [apply same_position_refl|exact Hf].
Qed.

Hypothesis score_high : -8000 <= alpha \/ -8000 <= score.

Lemma iter_cond_same_position depth v s :
  same_position s (snd (iter_cond mode depth v s)).
Proof.
  unfold iter_cond. repeat case_if; cbn [snd]; split; intros; reflexivity.
Qed.

Lemma iter_cond_well_formed depth v s :
  well_formed s -> well_formed (snd (iter_cond mode depth v s)).
Proof. apply (iter_cond_preserves well_formed); well_formed_steps. Qed.

Lemma null_move_undoes v s r s' :
  well_formed s ->
  null_move rec beta score v s = Some (r, s') ->
  same_position s s' /\ well_formed s'.
Proof.
  intros Hwf. unfold null_move. unfold MCUMAX_SCORE_MAX in *.
  destruct ((iter_depth v >? 2) && negb (beta =? _)) eqn:Ec.
  - apply andb_true_iff in Ec. destruct Ec as [_ Ec].
    apply negb_true_iff, Z.eqb_neq in Ec.
    destruct (rec _ _ _ _ _ _ _) as [[r1 s1]|] eqn:Er;
      [|discriminate].
    intros E; inversion E; subst r1 s'; clear E.
    pose proof (rec_well_formed _ _ _ _ _ _ _ _
                  (well_formed_change_side s Hwf) Er) as Hwf1.
    apply rec_undoes in Er;
      [|lia|lia|lia|now apply well_formed_change_side].
    split; [now apply same_position_change_side
           |now apply well_formed_change_side].
  - intros E; inversion E; subst r s'; clear E. split.
    + apply same_position_change_side; [exact Hwf|apply same_position_refl].
    + now apply well_formed_change_side, well_formed_change_side.
Qed.

Lemma seed_score_floor nms v s :
  score_floor alpha (set_iter_score (seed_score beta score nms v s) v).
Proof.
  unfold score_floor, seed_score, MCUMAX_SCORE_MAX. cbn [iter_score set_iter_score].
  destruct (Z.ltb_spec (- nms) beta); cbn [orb].
  - destruct (nz _); lia.
  - destruct (_ >? 35); [destruct (nz _)|]; lia.
Qed.

Lemma iter_loop_undoes n : forall depth v s r s',
  well_formed s ->
  iter_loop rec alpha beta score en_passant_square mode n depth v s
  = Some (r, s') ->
  settled mode beta s r s'.
Proof.
  induction n as [|n IH]; intros depth v s r s' Hwf; [discriminate|].
  cbn [iter_loop].
  pose proof (iter_cond_same_position depth v s) as Hp1.
  pose proof (iter_cond_well_formed depth v s Hwf) as Hwf1.
  destruct (iter_cond mode depth v s) as [[go v1] s1].
  cbn [snd] in Hp1, Hwf1.
  destruct go; cbn [negb];
    [|intros E; inversion E; subst; now right].
  destruct (mcumax.stop_search s1);
    [intros E; inversion E; subst; now right|].
  destruct (null_move _ _ _ _ _) as [[nms s2]|] eqn:En; [|discriminate].
  apply null_move_undoes in En; [|exact Hwf1]. destruct En as [Hp2 Hwf2].
  set (v2 := set_iter_score _ _).
  set (s3 := mcumax.set_node_count _ s2).
  assert (same_position s s3) as Hp3.
  { eapply same_position_trans; [exact Hp1|].
    eapply same_position_trans; [exact Hp2|]. split; intros; reflexivity. }
  assert (well_formed s3) as Hwf3 by (destruct Hwf2; split; assumption).
  assert (score_floor alpha v2) as Hf2 by apply seed_score_floor.
  match goal with
  | |- context [scan_loop ?a ?b ?c ?d ?e ?f ?g ?h ?i ?j ?k ?l] =>
    pose proof (scan_loop_undoes g h i j k l Hwf3 Hf2) as Hu;
    pose proof (scan_loop_well_formed g h i j k l) as Hw;
    destruct (scan_loop a b c d e f g h i j k l) as [v3 s4|v3 s4|r3 s4|]
  end; cbn [outcome_undoes outcome_state] in Hu, Hw; try discriminate.
  - intros E. destruct Hu as [Hp4 _].
    apply (settled_trans s s4);
      [eapply same_position_trans; eauto|].
    eapply IH; [|exact E]. auto.
  - intros E. destruct Hu as [Hp4 _].
    apply (settled_trans s s4);
      [eapply same_position_trans; eauto|].
    eapply IH; [|exact E]. auto.
  - intros E; inversion E; subst. now apply (settled_trans s s3).
Qed.
End Undo.

Lemma call_user_callback_same_position s :
  same_position s (call_user_callback s).
Proof.
  unfold call_user_callback.
  destruct (mcumax.user_callback s) as [cb|]; [|apply same_position_refl].
  destruct (cb _); split; intros; reflexivity.
Qed.

(** Every invocation whose window lies in [-8000, 8000] either commits the
    caller's move (in [MCUMAX_PLAY_MOVE], returning the adjusted [beta]) or
    puts the position back. *)
Lemma search_settled fuel : forall alpha beta score ep depth mode s r s',
  -8000 <= alpha -> alpha < beta -> beta <= 8000 -> well_formed s ->
  mcumax_search fuel alpha beta score ep depth mode s = Some (r, s') ->
  settled mode (beta - b2z (beta <=? score)) s r s'.
Proof.
  induction fuel as [|n IH];
    intros alpha beta score ep depth mode s r s' Hlo Hab Hhi Hwf;
    [discriminate|].
  cbn [mcumax_search]. intros E.
  apply (settled_trans _ _ s (call_user_callback s));
    [apply call_user_callback_same_position|].
  eapply (iter_loop_undoes (mcumax_search n)
            (alpha - b2z (alpha <? score)) (beta - b2z (beta <=? score)));
    [..|exact E].
  - unfold b2z. destruct (alpha <? score); lia.
  - unfold b2z.
    destruct (Z.ltb_spec alpha score), (Z.leb_spec beta score); lia.
  - unfold b2z, MCUMAX_SCORE_MAX. destruct (beta <=? score); lia.
  - intros a b sc e d s0 r0 s0' H0 E0.
    eapply search_well_formed; eauto.
  - intros a b sc e d s0 r0 s0' Ha Hb Hc H0 E0.
    destruct (IH _ _ _ _ _ _ _ _ _ Ha Hb Hc H0 E0) as [[Hm _]|H];
      [discriminate|exact H].
  - unfold b2z. destruct (Z.ltb_spec alpha score); lia.
  - now apply call_user_callback_preserves;
      [intros s0 [? ? ?]; split|].
Qed.

Lemma bytes_forallb (l : list Z) :
  forallb (fun c => (0 <=? c) && (c <? 256)) l = true ->
  Forall (fun c => 0 <= c < 256) l.
Proof.
  intros H. apply Forall_forall. intros c Hc.
  apply list_elem_of_In in Hc.
  apply (proj1 (forallb_forall _ _) H) in Hc.
  apply andb_true_iff in Hc. destruct Hc as [H1 H2].
  apply Z.leb_le in H1. apply Z.ltb_lt in H2. lia.
Qed.

Lemma start_position_well_formed : well_formed start_position.
Proof.
  split; [reflexivity | apply bytes_forallb; reflexivity | now left].
Qed.

Lemma well_formed_move_slots f t s :
  well_formed s ->
  well_formed (mcumax.set_square_to t (mcumax.set_square_from f s)).
Proof. intros []. split; assumption. Qed.

Lemma same_position_take s s' :
  well_formed s -> well_formed s' -> same_position s s' ->
  take 128 (mcumax.board s') = take 128 (mcumax.board s).
Proof.
  intros [Hl _ _] [Hl' _ _] Hp. apply list_eq. intros i.
  destruct (Nat.lt_ge_cases i 128) as [Hi|Hi].
  - rewrite !lookup_take_lt by exact Hi.
    pose proof (same_cells _ _ Hp (Z.of_nat i) ltac:(lia)) as Hc.
    unfold board_get in Hc. rewrite Nat2Z.id in Hc.
    destruct (lookup_lt_is_Some_2 (mcumax.board s) i ltac:(lia)) as [x Hx].
    destruct (lookup_lt_is_Some_2 (mcumax.board s') i ltac:(lia)) as [y Hy].
    rewrite Hx, Hy in *. cbn in Hc. now subst.
  - rewrite !lookup_take_ge by exact Hi. reflexivity.
Qed.




Lemma same_engine_slots sf st nc nm dm stop s :
  same_engine s
    (mcumax.set_stop_search stop
       (mcumax.set_depth_max dm
          (mcumax.set_node_max nm
             (mcumax.set_node_count nc
                (mcumax.set_square_to st (mcumax.set_square_from sf s)))))).
Proof. split; reflexivity. Qed.


(** ** Playing a move *)

(** When [mcumax_play_move] answers false on a well-formed engine whose
    score is below 8000, the position is as it was. *)
Lemma play_move_refused fuel move s s' :
  well_formed s -> mcumax.score s < MCUMAX_SCORE_MAX ->
  mcumax_play_move fuel move s = Some (false, s') ->
  same_position s s'.
Proof.
  unfold MCUMAX_SCORE_MAX. intros Hwf Hs E.
  unfold mcumax_play_move, mcumax_start_search in E.
  destruct (mcumax_search _ _ _ _ _ _ _ _) as [[r s1]|] eqn:Es;
    [|discriminate].
  inversion E as [[Hr Hs']]. subst s1. apply Z.eqb_neq in Hr.
  apply search_settled in Es;
    [|unfold MCUMAX_SCORE_MAX; lia..
     |destruct Hwf; split; assumption].
  destruct Es as [[_ Hb]|Hp].
  - exfalso. apply Hr. rewrite Hb.
    cbn [mcumax.score mcumax.set_stop_search mcumax.set_depth_max
         mcumax.set_node_count mcumax.set_node_max mcumax.set_square_to
         mcumax.set_square_from].
    unfold MCUMAX_SCORE_MAX, b2z.
    destruct (Z.leb_spec 8000 (mcumax.score s)); lia.
  - destruct Hp as [H1 H2 H3 H4 H5]. split; assumption.
Qed.

(** On a well-formed engine the two public searches put the position
    back. *)
Lemma search_valid_moves_same_position fuel buf cap s n s' :
  well_formed s ->
  mcumax_search_valid_moves fuel buf cap s = Some (n, s') ->
  same_position s s'.
Proof.
  intros Hwf E.
  unfold mcumax_search_valid_moves, mcumax_start_search in E.
  destruct (mcumax_search _ _ _ _ _ _ _ _) as [[r s1]|] eqn:Es;
    [|discriminate].
  inversion E; subst s1.
  apply search_settled in Es;
    [|unfold MCUMAX_SCORE_MAX; lia..|destruct Hwf; split; assumption].
  destruct Es as [[Hm _]|Hp]; [discriminate|].
  destruct Hp as [H1 H2 H3 H4 H5]. split; assumption.
Qed.

Lemma search_best_move_same_position fuel node_max depth_max s move s' :
  well_formed s ->
  mcumax_search_best_move fuel node_max depth_max s = Some (move, s') ->
  same_position s s'.
Proof.
  intros Hwf E.
  unfold mcumax_search_best_move, mcumax_start_search in E.
  destruct (mcumax_search _ _ _ _ _ _ _ _) as [[r s1]|] eqn:Es;
    [|discriminate].
  assert (s1 = s') as -> by (destruct (r =? _); now inversion E).
  apply search_settled in Es;
    [|unfold MCUMAX_SCORE_MAX; lia..|destruct Hwf; split; assumption].
  destruct Es as [[Hm _]|Hp]; [discriminate|].
  destruct Hp as [H1 H2 H3 H4 H5]. split; assumption.
Qed.

(** C2, the code at the failing input.  White king e1, pawn a2; Black rook
    d8, king h8; White to move.  [mcumax_play_move] accepts Ke1-d1 and
    commits it, although the rook then attacks the king ([is_in_check]
    says so) and [mcumax_search_valid_moves] does not list the move for
    the same position. *)
Lemma play_move_accepts_unsafe_king_move :
  let s := mcumax_set_fen_position "3r3k/8/8/8/8/8/P7/4K3 w - - 0 1"%string
             mcumax_zero in
  (exists s',
     mcumax_play_move 100 (Move 0x74 0x73) s = Some (true, s')
     /\ board_get s' 0x73 = Z.lor (Z.lor MCUMAX_KING MCUMAX_BOARD_WHITE)
                              MCUMAX_PIECE_MOVED
     /\ mcumax.current_side s' = MCUMAX_BOARD_BLACK
     /\ is_in_check 8 s' MCUMAX_BOARD_WHITE = Some true)
  /\ (exists s',
        mcumax_search_valid_moves 100 (repeat MCUMAX_MOVE_INVALID 8) 8 s
        = Some (4, s')
        /\ existsb (move_eqb (Move 0x74 0x73)) (mcumax.valid_moves_buffer s')
           = false).
Proof.
  cbv zeta. split.
  - eexists. split; [vm_compute; reflexivity|].
    vm_compute. repeat split.
  - eexists. split; [vm_compute; reflexivity|].
    vm_compute. reflexivity.
Qed.

(** ** Null-move pruning *)

Lemma ray_probe_fails_high beta ep s sf spt st v :
  beta <= MCUMAX_SCORE_MAX -> beta <= iter_score v -> 1 < iter_depth v ->
  match ray_probe beta ep s sf spt st v with
  | ProbeBreak v1 => beta <= iter_score v1 /\ 1 < iter_depth v1
  | ProbeCutoff _ => True
  | ProbeMove _ _ _ _ => False
  end.
Proof.
  intros Hb Hs Hd. unfold ray_probe.
  destruct (nz (Z.land st MCUMAX_BOARD_MASK)); [auto|].
  match goal with
  | |- context [if ?c then set_iter_score MCUMAX_SCORE_MAX v else v] =>
    set (v0 := if c then set_iter_score MCUMAX_SCORE_MAX v else v);
    assert (beta <= iter_score v0 /\ 1 < iter_depth v0) as H0
      by (subst v0; destruct c; cbn; auto)
  end.
  match goal with
  | |- context [if ?c then ProbeBreak v0 else _] => destruct c
  end; [exact H0|].
  match goal with
  | |- context [if ?c then ?a else v0] =>
    set (v2 := if c then a else v0);
    assert (beta <= iter_score v2 /\ 1 < iter_depth v2) as H2
      by (subst v2; destruct c; cbn; [split; [exact Hb|reflexivity]|exact H0])
  end.
  destruct H2 as [H2 H3].
  destruct (Z.geb_spec (iter_score v2) beta); [|lia].
  destruct (Z.gtb_spec (iter_depth v2) 1); [exact I|lia].
Qed.

(** Once [iter_score] has reached [beta] in an iteration of depth 2 or
    more, no ray step makes a move: it stops at the board edge or at an own
    piece, or it jumps to [cutoff]. *)
Lemma ray_step_fails_high rec alpha beta score ep mode n nms sf sp spt sv svi
    st skip rook v s :
  beta <= MCUMAX_SCORE_MAX -> beta <= iter_score v -> 1 < iter_depth v ->
  match ray_step rec alpha beta score ep mode n nms sf sp spt sv svi st skip
          rook v s with
  | StepBreak v1 s1 => s1 = s /\ beta <= iter_score v1 /\ 1 < iter_depth v1
  | StepCutoff _ s1 => s1 = s
  | _ => False
  end.
Proof.
  intros Hb Hs Hd. unfold ray_step.
  pose proof (ray_probe_fails_high beta ep s sf spt
                (ray_target sv st v) v Hb Hs Hd) as H.
  destruct (ray_probe _ _ _ _ _ _ _); [auto|auto|contradiction].
Qed.




(** ** Pieces loaded from a FEN string *)

Lemma moved_bit_set piece :
  Z.land (u8 (Z.lor piece MCUMAX_PIECE_MOVED)) MCUMAX_PIECE_MOVED <> 0.
Proof.
  intros E.
  assert (Z.testbit (Z.land (u8 (Z.lor piece MCUMAX_PIECE_MOVED))
                       MCUMAX_PIECE_MOVED) 5 = true) as H.
  { rewrite Z.land_spec. unfold u8.
    change 256 with (2 ^ 8). rewrite Z.mod_pow2_bits_low by lia.
    rewrite Z.lor_spec. change (Z.testbit MCUMAX_PIECE_MOVED 5) with true.
    now rewrite orb_true_r. }
  rewrite E in H. discriminate.
Qed.

Lemma init_length s :
  length (mcumax.board (mcumax_init s)) = length (mcumax.board s).
Proof.
  unfold mcumax_init.
  cbn [mcumax.board mcumax.set_non_pawn_material
       mcumax.set_en_passant_square mcumax.set_score
       mcumax.set_current_side].
  apply (for_range_keeps
           (fun x => length (mcumax.board x) = length (mcumax.board s)));
    [|reflexivity].
  intros x s0 H.
  apply (for_range_keeps
           (fun x => length (mcumax.board x) = length (mcumax.board s))).
  { intros; now rewrite board_put_length. }
  rewrite !board_put_length.
  apply (for_range_keeps
           (fun x => length (mcumax.board x) = length (mcumax.board s))).
  { intros; now rewrite board_put_length. }
  now rewrite !board_put_length.
Qed.

Lemma fen_en_passant_board c s :
  mcumax.board (fen_en_passant c s) = mcumax.board s.
Proof.
  unfold fen_en_passant.
  destruct c as [[] [] [] [] [] [] [] []]; reflexivity.
Qed.

Lemma castling_homes_on_board sq :
  In sq castling_homes -> 0 <= sq < 128.
Proof.
  unfold castling_homes. cbn.
  intros H; repeat destruct H as [<-|H]; try lia; contradiction.
Qed.

(** After [mcumax_set_fen_position], a cell outside the six castling homes
    is as [mcumax_init] left it, or empty, or has the has-moved bit. *)
Lemma set_fen_position_cells fen s sq :
  length (mcumax.board s) = 129%nat ->
  on_board sq -> ~ In sq castling_homes ->
  board_get (mcumax_set_fen_position fen s) sq
  = board_get (mcumax_init s) sq
  \/ board_get (mcumax_set_fen_position fen s) sq = 0
  \/ Z.land (board_get (mcumax_set_fen_position fen s) sq)
            MCUMAX_PIECE_MOVED <> 0.
Proof.
  intros Hl [Hsq _] Hhome.
  set (P := fun x : mcumax.t =>
    length (mcumax.board x) = 129%nat
    /\ (board_get x sq = board_get (mcumax_init s) sq
        \/ board_get x sq = 0
        \/ Z.land (board_get x sq) MCUMAX_PIECE_MOVED <> 0)).
  enough (P (mcumax_set_fen_position fen s)) as [_ H] by exact H.
  unfold mcumax_set_fen_position. apply (fen_loop_keeps P).
  - intros sq0 piece s0 [Hl0 H0]. unfold mcumax_set_piece.
    destruct (nz (Z.land sq0 MCUMAX_BOARD_MASK)); cbn [snd];
      [split; assumption|].
    split; [now rewrite board_put_length|].
    rewrite board_get_put by lia.
    destruct (Nat.eqb (Z.to_nat sq0) (Z.to_nat sq)); [|exact H0].
    destruct (nz piece) eqn:Ep.
    + right; right. apply moved_bit_set.
    + apply nz_false in Ep. subst piece. right; left. reflexivity.
  - intros sq0 s0 Hin [Hl0 H0]. unfold clear_moved.
    split; [now rewrite board_put_length|].
    rewrite board_get_put by lia.
    destruct (Nat.eqb_spec (Z.to_nat sq0) (Z.to_nat sq)) as [E|E];
      [|exact H0].
    exfalso. apply Hhome.
    pose proof (castling_homes_on_board sq0 Hin) as Hr.
    replace sq with sq0 by lia. exact Hin.
  - intros v s0 H. exact H.
  - intros c s0 [Hl0 H0]. unfold P, board_get.
    rewrite fen_en_passant_board. split; assumption.
  - unfold P. cbn [engine].
    split; [rewrite init_length; exact Hl|now left].
Qed.

Lemma ray_post_moved_pawn s sf sp spt sv svi st skip rook cp ss v :
  Z.land sp MCUMAX_PIECE_MOVED <> 0 -> spt < 3 -> replay_move v = 0 ->
  u8 (cp + 1) <> 0 ->
  match ray_post s sf sp spt sv svi st skip rook cp ss v with
  | StepNext _ skip' rook' cp' _ _ => skip' = skip /\ rook' = rook /\ cp' <> 0
  | _ => False
  end.
Proof.
  intros Hm Ht Hr Hcp. unfold ray_post.
  replace (nz (replay_move
                 (if ss >? iter_score v
                  then set_iter_best ss sf
                         (u8 (Z.lor st (Z.land skip MCUMAX_SQUARE_INVALID))) v
                  else v))) with false
    by (destruct (ss >? iter_score v); cbn [replay_move set_iter_best];
        now rewrite Hr).
  replace (nz (Z.land sp MCUMAX_PIECE_MOVED)) with true
    by (symmetry; now apply nz_true).
  rewrite orb_true_r.
  replace (spt <? 5) with true by (symmetry; apply Z.ltb_lt; lia).
  auto.
Qed.

(** A ray step of a pawn whose has-moved bit is set never hands the ray
    over to a second step. *)
Lemma ray_step_moved_pawn rec alpha beta score ep mode n nms sf sp spt sv svi
    st skip rook v s :
  well_formed s ->
  Z.land sp MCUMAX_PIECE_MOVED <> 0 -> spt < 3 -> replay_move v = 0 ->
  match ray_step rec alpha beta score ep mode n nms sf sp spt sv svi st skip
          rook v s with
  | StepNext _ skip' rook' cp' _ _ => skip' = skip /\ rook' = rook /\ cp' <> 0
  | StepReplay _ _ => False
  | _ => True
  end.
Proof.
  intros Hwf Hm Ht Hr. unfold ray_step.
  destruct (ray_probe _ _ _ _ _ _ _) as [v1|v1|cs cp cpv v1] eqn:Ep;
    [exact I|exact I|].
  destruct (ray_probe_facts alpha _ _ _ _ _ _ _ _ _ _ _
              (ray_target_byte sv st v) Ep)
    as (Hcp & _ & Hown & _ & _ & _ & Hrep).
  assert (u8 (cp + 1) <> 0) as Hne.
  { apply (not_own_not_255 s); [exact Hwf| |exact Hown].
    subst cp. apply board_get_byte, (wf_bytes _ Hwf). }
  assert (replay_move v1 = 0) as Hr1 by congruence.
  assert (forall s4 ss,
            match ray_post s4 sf sp spt sv svi (ray_target sv st v) skip rook
                    cp ss v1 with
            | StepNext _ skip' rook' cp' _ _ =>
              skip' = skip /\ rook' = rook /\ cp' <> 0
            | StepReplay _ _ => False
            | _ => True
            end) as Hpost.
  { intros s4 ss.
    pose proof (ray_post_moved_pawn s4 sf sp spt sv svi (ray_target sv st v)
                  skip rook cp ss v1 Hm Ht Hr1 Hne) as H.
    destruct (ray_post _ _ _ _ _ _ _ _ _ _ _ _); tauto. }
  destruct (_ >? 1); [|apply Hpost].
  destruct (make_move _ _ _ _ _ _ _ _ _ _ _) as [[s1 ss] cpv1].
  destruct (futility _ _ _ _ _ _ _ _ _ _ _) as [[r s2]|]; [|exact I].
  repeat case_if; first [exact I | apply Hpost].
Qed.



(** The standard starting position loaded from its FEN string has 12
    moves, not the 20 of the position set by [mcumax_init]: the eight
    double steps are gone. *)
Lemma fen_start_position_valid_moves :
  option_map fst
    (mcumax_search_valid_moves 100 [] 0
       (mcumax_set_fen_position
          "rnbqkbnr/pppppppp/8/8/8/8/PPPPPPPP/RNBQKBNR w KQkq - 0 1"%string
          mcumax_zero))
  = Some 12.
Proof. vm_compute. reflexivity. Qed.

(** * The rest of the interface *)

(** X1.  [mcumax_init] forgets the position it finds: from any engine with
    a board of 0x81 cells it leaves in the cells 0..0x7F what it leaves from
    the zeroed engine (the start position and the weight table), keeps the
    dummy cell 0x80, and sets White to move, a score of 0, the en-passant
    sentinel and a material counter of 0. *)
Theorem init_resets_position (s : mcumax.t) :
  length (mcumax.board s) = 129%nat ->
  take 128 (mcumax.board (mcumax_init s))
  = take 128 (mcumax.board start_position)
  /\ mcumax.board (mcumax_init s) !! 128%nat = mcumax.board s !! 128%nat
  /\ mcumax.current_side (mcumax_init s) = MCUMAX_BOARD_WHITE
  /\ mcumax.score (mcumax_init s) = 0
  /\ mcumax.en_passant_square (mcumax_init s) = MCUMAX_SQUARE_INVALID
  /\ mcumax.non_pawn_material (mcumax_init s) = 0.
Proof.
  intros Hl. destruct s as [b ? ? ? ? ? ? ? ? ? ? ? ? ? ? ?].
  cbn [mcumax.board] in Hl.
  do 129 (destruct b as [|? b]; [discriminate Hl|]).
  destruct b; [|discriminate Hl].
  repeat split; vm_compute; reflexivity.
Qed.

(** ** Loading a position forgets the previous one *)

Lemma same_load_put i v s1 s2 :
  same_load s1 s2 -> same_load (board_put i v s1) (board_put i v s2).
Proof.
  intros [H1 H2 [Hc Hs He Ho Hm]].
  split; [now rewrite board_put_length..|].
  split; try assumption.
  intros sq Hsq. rewrite !board_get_put by lia.
  destruct (Nat.eqb _ _); [reflexivity|now apply Hc].
Qed.

Lemma same_load_set_piece sq piece s1 s2 :
  same_load s1 s2 ->
  fst (mcumax_set_piece sq piece s1) = fst (mcumax_set_piece sq piece s2)
  /\ same_load (snd (mcumax_set_piece sq piece s1))
       (snd (mcumax_set_piece sq piece s2)).
Proof.
  intros H. unfold mcumax_set_piece.
  destruct (nz _); cbn [fst snd]; split; auto using same_load_put.
Qed.

Lemma same_fen_place piece f1 f2 :
  same_fen f1 f2 -> same_fen (fen_place piece f1) (fen_place piece f2).
Proof.
  intros (Hf & Hb & H). unfold fen_place. rewrite Hb.
  destruct (same_load_set_piece (u8 (board_index f2)) piece _ _ H) as [E1 E2].
  destruct (mcumax_set_piece _ _ (engine f1)) as [q1 e1].
  destruct (mcumax_set_piece _ _ (engine f2)) as [q2 e2].
  cbn [fst snd] in *. now split.
Qed.

Lemma same_fen_range lo hi (body : Z -> fen_state -> fen_state) f1 f2 :
  (forall i f1 f2, same_fen f1 f2 -> same_fen (body i f1) (body i f2)) ->
  same_fen f1 f2 -> same_fen (for_range lo hi body f1) (for_range lo hi body f2).
Proof.
  intros Hb. unfold for_range.
  generalize (map (fun k => lo + Z.of_nat k) (seq 0 (Z.to_nat (hi - lo)))).
  intros l. revert f1 f2. induction l as [|i l IH]; intros f1 f2 H; cbn; auto.
Qed.

Lemma same_fen_board c f1 f2 :
  same_fen f1 f2 -> same_fen (fen_board c f1) (fen_board c f2).
Proof.
  intros H. pose proof H as (Hf & Hb & He). unfold fen_board. rewrite Hb.
  destruct (board_index f2 <? 128); [|exact H].
  destruct c as [[] [] [] [] [] [] [] []]; cbv beta iota;
    first [ exact H
          | now apply same_fen_place
          | apply same_fen_range;
            [intros _ g1 g2 Hg; now apply same_fen_place | exact H]
          | rewrite Hf; split; [reflexivity|split; [reflexivity|exact He]] ].
Qed.

Lemma same_load_clear_moved sq s1 s2 :
  In sq castling_homes ->
  same_load s1 s2 -> same_load (clear_moved sq s1) (clear_moved sq s2).
Proof.
  intros Hin H. unfold clear_moved.
  pose proof (castling_homes_on_board sq Hin) as Hr.
  rewrite (same_cells _ _ (sl_position _ _ H) sq Hr).
  now apply same_load_put.
Qed.

Lemma same_load_castling c s1 s2 :
  same_load s1 s2 -> same_load (fen_castling c s1) (fen_castling c s2).
Proof.
  intros H. unfold fen_castling.
  destruct c as [[] [] [] [] [] [] [] []]; cbv beta iota;
    first [ exact H
          | apply same_load_clear_moved; [cbn; tauto|];
            apply same_load_clear_moved; [cbn; tauto|exact H] ].
Qed.

Lemma same_load_side c s1 s2 :
  same_load s1 s2 -> same_load (fen_side c s1) (fen_side c s2).
Proof.
  intros [H1 H2 [Hc Hs He Ho Hm]]. unfold fen_side.
  destruct c as [[] [] [] [] [] [] [] []]; cbv beta iota;
    split; try assumption; split; try assumption; reflexivity.
Qed.

Lemma same_load_en_passant c s1 s2 :
  same_load s1 s2 -> same_load (fen_en_passant c s1) (fen_en_passant c s2).
Proof.
  intros [H1 H2 [Hc Hs He Ho Hm]]. unfold fen_en_passant.
  destruct c as [[] [] [] [] [] [] [] []]; cbv beta iota;
    split; try assumption; split; try assumption;
    cbn [mcumax.en_passant_square mcumax.set_en_passant_square];
    now rewrite He.
Qed.

Lemma same_fen_char c f1 f2 :
  same_fen f1 f2 -> same_fen (fen_char c f1) (fen_char c f2).
Proof.
  intros H. pose proof H as (Hf & Hb & He). unfold fen_char.
  rewrite Hf, Hb.
  repeat case_if; try exact H; try (now apply same_fen_board);
    (split; [reflexivity|split; [reflexivity|]]); cbn [engine];
    auto using same_load_side, same_load_castling, same_load_en_passant.
Qed.

Lemma same_fen_loop fen : forall f1 f2,
  same_fen f1 f2 -> same_fen (fen_loop fen f1) (fen_loop fen f2).
Proof.
  induction fen as [|c rest IH]; intros f1 f2 H; cbn [fen_loop]; [exact H|].
  destruct (Ascii.eqb c zero); [exact H|].
  apply IH. now apply same_fen_char.
Qed.

Lemma init_cells s :
  length (mcumax.board s) = 129%nat ->
  take 128 (mcumax.board (mcumax_init s))
  = take 128 (mcumax.board start_position).
Proof.
  intros Hl. destruct s as [b ? ? ? ? ? ? ? ? ? ? ? ? ? ? ?].
  cbn [mcumax.board] in Hl.
  do 129 (destruct b as [|? b]; [discriminate Hl|]).
  destruct b; [|discriminate Hl].
  vm_compute; reflexivity.
Qed.

Lemma take_board_get s1 s2 sq :
  take 128 (mcumax.board s1) = take 128 (mcumax.board s2) ->
  0 <= sq < 128 -> board_get s1 sq = board_get s2 sq.
Proof.
  intros H Hsq. unfold board_get.
  rewrite <- (lookup_take_lt (mcumax.board s1) 128) by lia.
  rewrite <- (lookup_take_lt (mcumax.board s2) 128) by lia.
  now rewrite H.
Qed.

Lemma same_load_init s1 s2 :
  length (mcumax.board s1) = 129%nat -> length (mcumax.board s2) = 129%nat ->
  same_load (mcumax_init s1) (mcumax_init s2).
Proof.
  intros H1 H2. split; [now rewrite init_length..|].
  split; try reflexivity.
  intros sq Hsq. apply take_board_get; [|exact Hsq].
  now rewrite !init_cells.
Qed.

Lemma same_load_take s1 s2 :
  same_load s1 s2 ->
  take 128 (mcumax.board s1) = take 128 (mcumax.board s2).
Proof.
  intros [H1 H2 Hp]. apply list_eq. intros i.
  destruct (Nat.lt_ge_cases i 128) as [Hi|Hi].
  - rewrite !lookup_take_lt by exact Hi.
    pose proof (same_cells _ _ Hp (Z.of_nat i) ltac:(lia)) as Hc.
    unfold board_get in Hc. rewrite Nat2Z.id in Hc.
    destruct (lookup_lt_is_Some_2 (mcumax.board s1) i ltac:(lia)) as [x Hx].
    destruct (lookup_lt_is_Some_2 (mcumax.board s2) i ltac:(lia)) as [y Hy].
    rewrite Hx, Hy in *. cbn in Hc. now subst.
  - rewrite !lookup_take_ge by exact Hi. reflexivity.
Qed.

(** X2.  [mcumax_set_fen_position] depends on its string only: whatever two
    engines held before, after loading the same string they agree on the
    cells 0..0x7F, the side to move, the en-passant slot, the score and the
    material counter. *)
Theorem set_fen_position_forgets (fen : string) (s1 s2 : mcumax.t) :
  length (mcumax.board s1) = 129%nat -> length (mcumax.board s2) = 129%nat ->
  take 128 (mcumax.board (mcumax_set_fen_position fen s1))
  = take 128 (mcumax.board (mcumax_set_fen_position fen s2))
  /\ mcumax.current_side (mcumax_set_fen_position fen s1)
     = mcumax.current_side (mcumax_set_fen_position fen s2)
  /\ mcumax.en_passant_square (mcumax_set_fen_position fen s1)
     = mcumax.en_passant_square (mcumax_set_fen_position fen s2)
  /\ mcumax.score (mcumax_set_fen_position fen s1)
     = mcumax.score (mcumax_set_fen_position fen s2)
  /\ mcumax.non_pawn_material (mcumax_set_fen_position fen s1)
     = mcumax.non_pawn_material (mcumax_set_fen_position fen s2).
Proof.
  intros H1 H2. unfold mcumax_set_fen_position.
  destruct (same_fen_loop fen (Fen 0 0 (mcumax_init s1))
              (Fen 0 0 (mcumax_init s2))) as (_ & _ & H).
  { split; [reflexivity|split; [reflexivity|]]. now apply same_load_init. }
  split; [now apply same_load_take|].
  destruct H as [_ _ [_ Hs He Ho Hm]]. auto.
Qed.

(** ** The parser on any string *)

Lemma init_bytes s :
  Forall (fun c => 0 <= c < 256) (mcumax.board s) ->
  Forall (fun c => 0 <= c < 256) (mcumax.board (mcumax_init s)).
Proof.
  intros H. unfold mcumax_init.
  cbn [mcumax.board mcumax.set_non_pawn_material
       mcumax.set_en_passant_square mcumax.set_score
       mcumax.set_current_side].
  assert (forall i v x, Forall (fun c => 0 <= c < 256) (mcumax.board x) ->
            Forall (fun c => 0 <= c < 256) (mcumax.board (board_put i v x)))
    as Hput.
  { intros i v x Hx. unfold board_put. cbn [mcumax.board mcumax.set_board].
    apply Forall_insert; [exact Hx|apply u8_range]. }
  apply (for_range_keeps
           (fun x => Forall (fun c => 0 <= c < 256) (mcumax.board x)));
    [|exact H].
  intros x s0 H0.
  apply (for_range_keeps
           (fun x => Forall (fun c => 0 <= c < 256) (mcumax.board x))).
  { intros; now apply Hput. }
  do 2 apply Hput.
  apply (for_range_keeps
           (fun x => Forall (fun c => 0 <= c < 256) (mcumax.board x))).
  { intros; now apply Hput. }
  now do 2 apply Hput.
Qed.

Lemma fen_char_side c f : side_ok (engine f) -> side_ok (engine (fen_char c f)).
Proof.
  intros H. unfold fen_char. repeat case_if; cbn [engine]; try exact H.
  - apply (fen_board_keeps side_ok); [|exact H].
    intros sq piece s0 H0. unfold mcumax_set_piece. now destruct (nz _).
  - unfold fen_side.
    destruct c as [[] [] [] [] [] [] [] []]; cbv beta iota;
      first [exact H | now left | now right].
  - apply (fen_castling_keeps side_ok); [|exact H].
    intros sq s0 _ H0. exact H0.
  - unfold fen_en_passant.
    destruct c as [[] [] [] [] [] [] [] []]; exact H.
Qed.

Lemma fen_loop_side fen : forall f,
  side_ok (engine f) -> side_ok (engine (fen_loop fen f)).
Proof.
  induction fen as [|c rest IH]; intros f H; cbn [fen_loop]; [exact H|].
  destruct (Ascii.eqb c zero); [exact H|].
  apply IH. now apply fen_char_side.
Qed.

(** X3.  [mcumax_set_fen_position] accepts every string: whatever the
    characters, the engine it leaves has a board of 0x81 byte cells and
    White or Black to move, and every cell off the 64 squares (the weight
    table and the dummy cell) is as [mcumax_init] leaves it. *)
Theorem set_fen_position_well_formed (fen : string) (s : mcumax.t) :
  length (mcumax.board s) = 129%nat ->
  Forall (fun c => 0 <= c < 256) (mcumax.board s) ->
  well_formed (mcumax_set_fen_position fen s)
  /\ (forall i, 0 <= i -> Z.land i MCUMAX_BOARD_MASK <> 0 ->
        board_get (mcumax_set_fen_position fen s) i
        = board_get (mcumax_init s) i).
Proof.
  intros Hl Hb.
  set (P := fun x : mcumax.t =>
    (length (mcumax.board x) = 129%nat
     /\ Forall (fun c => 0 <= c < 256) (mcumax.board x))
    /\ forall i, 0 <= i -> Z.land i MCUMAX_BOARD_MASK <> 0 ->
         board_get x i = board_get (mcumax_init s) i).
  assert (P (mcumax_set_fen_position fen s)) as [[H1 H2] H3].
  { unfold mcumax_set_fen_position. apply (fen_loop_keeps P).
    - intros sq piece s0 [[Hl0 Hb0] H0]. unfold mcumax_set_piece.
      destruct (nz (Z.land sq MCUMAX_BOARD_MASK)) eqn:E; cbn [snd];
        [repeat split; assumption|].
      split.
      + split; [now rewrite board_put_length|].
        unfold board_put. cbn [mcumax.board mcumax.set_board].
        apply Forall_insert; [exact Hb0|apply u8_range].
      + intros i Hi Hm. rewrite board_get_put_ne; [now apply H0|].
        apply nz_false in E. intros Heq.
        destruct (Z.le_gt_cases 0 sq) as [Hsq|Hsq].
        * apply Hm. replace i with sq by lia. exact E.
        * rewrite Z2Nat.nonpos in Heq by lia.
          apply Hm. replace i with 0 by lia. reflexivity.
    - intros sq s0 Hin [[Hl0 Hb0] H0]. unfold clear_moved.
      split.
      + split; [now rewrite board_put_length|].
        unfold board_put. cbn [mcumax.board mcumax.set_board].
        apply Forall_insert; [exact Hb0|apply u8_range].
      + intros i Hi Hm. rewrite board_get_put_ne; [now apply H0|].
        pose proof (castling_homes_on_board sq Hin) as Hr.
        intros Heq. apply Hm. replace i with sq by lia.
        unfold castling_homes in Hin. cbn in Hin.
        repeat destruct Hin as [<-|Hin]; try reflexivity; contradiction.
    - intros v s0 H. exact H.
    - intros c s0 [[Hl0 Hb0] H0]. unfold P, board_get.
      rewrite fen_en_passant_board. repeat split; assumption.
    - unfold P. cbn [engine]. split; [|reflexivity].
      split; [now rewrite init_length|now apply init_bytes]. }
  split; [|exact H3].
  split; [exact H1|exact H2|].
  unfold mcumax_set_fen_position. apply fen_loop_side. now left.
Qed.

Lemma fen_loop_append a b : forall f,
  nul_free a = true ->
  fen_loop (a ++ b) f = fen_loop b (fen_loop a f).
Proof.
  induction a as [|c a IH]; intros f H; cbn [String.append fen_loop];
    [reflexivity|].
  cbn [nul_free] in H. apply andb_true_iff in H. destruct H as [Hc Ha].
  apply negb_true_iff in Hc. rewrite Hc. now apply IH.
Qed.

Lemma fen_place_field piece f :
  field_index (fen_place piece f) = field_index f.
Proof. unfold fen_place. now destruct (mcumax_set_piece _ _ _). Qed.

Lemma fen_board_field c f : field_index (fen_board c f) = field_index f.
Proof.
  unfold fen_board. destruct (board_index f <? 128); [|reflexivity].
  destruct c as [[] [] [] [] [] [] [] []]; cbv beta iota;
    first [ reflexivity
          | apply fen_place_field
          | apply (for_range_keeps
                     (fun x => field_index x = field_index f));
            [intros _ g Hg; now rewrite fen_place_field | reflexivity] ].
Qed.

Lemma fen_char_field c f :
  0 <= field_index f <= 4 ->
  field_index (fen_char c f)
  = Z.min 4 (field_index f + if Ascii.eqb c " " then 1 else 0).
Proof.
  intros H. unfold fen_char.
  destruct (Ascii.eqb c " "); cbn [field_index].
  - destruct (Z.ltb_spec (field_index f) 4); lia.
  - repeat case_if; cbn [field_index]; rewrite ?fen_board_field; lia.
Qed.

Lemma fen_loop_field a : forall f,
  nul_free a = true -> 0 <= field_index f <= 4 ->
  field_index (fen_loop a f) = Z.min 4 (field_index f + count_spaces a).
Proof.
  induction a as [|c a IH]; intros f H Hf; cbn [fen_loop count_spaces];
    [lia|].
  cbn [nul_free] in H. apply andb_true_iff in H. destruct H as [Hc Ha].
  apply negb_true_iff in Hc. rewrite Hc.
  pose proof (fen_char_field c f Hf) as E.
  assert (0 <= count_spaces a) as Hn.
  { clear. induction a as [|c a IH]; cbn [count_spaces]; [lia|].
    destruct (Ascii.eqb c " "); lia. }
  rewrite IH; [|exact Ha|destruct (Ascii.eqb c " "); lia].
  rewrite E. destruct (Ascii.eqb c " "); lia.
Qed.

Lemma fen_loop_done b : forall f, field_index f = 4 -> fen_loop b f = f.
Proof.
  induction b as [|c b IH]; intros f H; cbn [fen_loop]; [reflexivity|].
  destruct (Ascii.eqb c zero); [reflexivity|].
  assert (fen_char c f = f) as ->; [|now apply IH].
  unfold fen_char. destruct f as [fi bi e]. cbn [field_index] in *. subst fi.
  destruct (Ascii.eqb c " "); reflexivity.
Qed.

(** X4.  [mcumax_set_fen_position] reads four fields: whatever follows the
    fourth space of the string (the half-move and full-move counters, or
    anything else) has no effect on the engine. *)
Theorem fen_counters_ignored (head tail : string) (s : mcumax.t) :
  nul_free head = true -> 4 <= count_spaces head ->
  mcumax_set_fen_position (head ++ tail) s = mcumax_set_fen_position head s.
Proof.
  intros Hn Hc. unfold mcumax_set_fen_position.
  rewrite fen_loop_append by exact Hn.
  rewrite fen_loop_done; [reflexivity|].
  rewrite fen_loop_field; [|exact Hn|cbn; lia].
  cbn [field_index]. lia.
Qed.

Lemma fen_counters_ignored_witness :
  mcumax_set_fen_position
    ("4k3/8/8/8/8/8/8/4K2R w K - " ++ "37 52") mcumax_zero
  = mcumax_set_fen_position "4k3/8/8/8/8/8/8/4K2R w K - " mcumax_zero.
Proof.
  apply fen_counters_ignored; [reflexivity|vm_compute; discriminate].
Defined.

Lemma fen_store_holds buffer pre w c :
  (length pre < length buffer)%nat ->
  fen_buffer w = pre ++ drop (length pre) buffer -> ptr w = Z.of_nat (length pre) ->
  fen_buffer (fen_store w c) = (pre ++ [c]) ++ drop (length (pre ++ [c])) buffer
  /\ ptr (fen_store w c) = Z.of_nat (length (pre ++ [c]))
  /\ remaining (fen_store w c) = remaining w.
Proof.
  intros Hl Hb Hp. unfold fen_store. cbn [fen_buffer ptr remaining].
  rewrite Hb, Hp, Nat2Z.id, length_app. cbn [length].
  split; [|split; [lia|reflexivity]].
  destruct (lookup_lt_is_Some_2 buffer (length pre) Hl) as [x Hx].
  rewrite (drop_S _ _ _ Hx).
  rewrite insert_app_r_alt by lia. rewrite Nat.sub_diag. cbn [insert list_insert].
  rewrite <- app_assoc. cbn [app]. now rewrite Nat.add_1_r.
Qed.

Lemma fold_store_holds buffer cs : forall pre w,
  (length pre + length cs <= length buffer)%nat ->
  fen_buffer w = pre ++ drop (length pre) buffer -> ptr w = Z.of_nat (length pre) ->
  fen_buffer (fold_left fen_store cs w)
  = (pre ++ cs) ++ drop (length (pre ++ cs)) buffer
  /\ ptr (fold_left fen_store cs w) = Z.of_nat (length (pre ++ cs))
  /\ remaining (fold_left fen_store cs w) = remaining w.
Proof.
  induction cs as [|c cs IH]; intros pre w Hl Hb Hp; cbn [fold_left].
  - rewrite app_nil_r. auto.
  - cbn [length] in Hl.
    assert (length pre < length buffer)%nat as Hlt by lia.
    destruct (fen_store_holds buffer pre w c Hlt Hb Hp) as (E1 & E2 & E3).
    destruct (IH (pre ++ [c]) (fen_store w c)) as (F1 & F2 & F3);
      [rewrite length_app; cbn [length]; lia|exact E1|exact E2|].
    assert ((pre ++ [c]) ++ cs = pre ++ c :: cs) as Ea
      by now rewrite <- app_assoc.
    rewrite Ea in F1, F2. rewrite F3, E3. split; [exact F1|split; [exact F2|reflexivity]].
Qed.

Lemma fen_put_holds buffer size need cs pre w :
  fen_holds buffer size pre w ->
  need <= size - 1 - Z.of_nat (length pre) ->
  (length pre + length cs <= length buffer)%nat ->
  exists w', fen_put need cs w = Go w' /\ fen_holds buffer size (pre ++ cs) w'.
Proof.
  intros H Hn Hl. unfold fen_put.
  rewrite (holds_remaining _ _ _ _ H).
  destruct (Z.ltb_spec (size - 1 - Z.of_nat (length pre)) need); [lia|].
  eexists. split; [reflexivity|].
  destruct (fold_store_holds buffer cs pre w Hl (holds_buffer _ _ _ _ H)
              (holds_ptr _ _ _ _ H)) as (F1 & F2 & F3).
  split; cbn [fen_buffer ptr remaining]; [exact F1|exact F2|].
  rewrite F3, (holds_remaining _ _ _ _ H), length_app. lia.
Qed.

Section FenWriter.
Variables (s : mcumax.t) (buffer : list ascii) (size : Z).
Hypothesis size_min : 100 <= size.
Hypothesis buffer_length : length buffer = Z.to_nat size.

(** A [fen_put] of at most four characters after fewer than 90. *)
Lemma fen_put_goes need cs pre w :
  fen_holds buffer size pre w -> need <= 4 -> (length cs <= 4)%nat ->
  (length pre <= 90)%nat ->
  exists w', fen_put need cs w = Go w' /\ fen_holds buffer size (pre ++ cs) w'.
Proof.
  intros H Hn Hc Hp. apply fen_put_holds; [exact H|lia|lia].
Qed.

Lemma count_text_length e : (length (count_text e) <= 1)%nat.
Proof. unfold count_text. destruct (e >? 0); cbn; lia. Qed.

Lemma fen_flush_goes e pre w :
  fen_holds buffer size pre w -> (length pre <= 90)%nat ->
  exists w', fen_flush e w = Go w' /\ fen_holds buffer size (pre ++ count_text e) w'.
Proof.
  intros H Hp. unfold fen_flush, count_text.
  destruct (e >? 0).
  - apply fen_put_goes; [exact H|lia|cbn; lia|exact Hp].
  - exists w. rewrite app_nil_r. now split.
Qed.

Lemma rank_text_length rank files : forall e,
  (length (rank_text s rank files e)
   <= length files + (if (e >? 0)%Z then 1 else 0)
      + (if (rank <? 7)%Z then 1 else 0))%nat.
Proof.
  induction files as [|file files IH]; intros e; cbn [rank_text length].
  - rewrite length_app. unfold count_text.
    destruct (e >? 0), (rank <? 7); cbn; lia.
  - cbv zeta. destruct (_ =? MCUMAX_EMPTY).
    + specialize (IH (e + 1)). destruct (e + 1 >? 0), (e >? 0); lia.
    + rewrite length_app. cbn [length]. unfold count_text.
      destruct (Z.gtb_spec e 0).
      * specialize (IH 0). cbn [Z.gtb Z.compare] in IH. cbn [length]. lia.
      * specialize (IH e). destruct (Z.gtb_spec e 0); [lia|].
        cbn [length]. lia.
Qed.

Lemma fen_rank_goes rank files : forall e pre w,
  fen_holds buffer size pre w ->
  (length pre + length files + (if (e >? 0)%Z then 1 else 0) <= 89)%nat ->
  exists w', fen_rank s rank files e w = Go w'
             /\ fen_holds buffer size (pre ++ rank_text s rank files e) w'.
Proof.
  induction files as [|file files IH]; intros e pre w H Hp;
    cbn [fen_rank rank_text length] in *.
  - destruct (fen_flush_goes e pre w H ltac:(lia)) as (w1 & -> & H1).
    pose proof (count_text_length e).
    destruct (rank <? 7).
    + destruct (fen_put_goes 1 ["/"%char] _ w1 H1) as (w2 & -> & H2);
        [lia|cbn; lia|rewrite length_app; lia|].
      exists w2. split; [reflexivity|]. now rewrite app_assoc.
    + exists w1. split; [reflexivity|]. now rewrite app_nil_r.
  - cbv zeta. destruct (_ =? MCUMAX_EMPTY).
    + apply IH; [exact H|]. destruct (e + 1 >? 0), (e >? 0); lia.
    + destruct (fen_flush_goes e pre w H ltac:(lia)) as (w1 & -> & H1).
      assert (length (count_text e) = if e >? 0 then 1 else 0)%nat as Hc
        by (unfold count_text; now destruct (e >? 0)).
      destruct (fen_put_goes 1 [piece_char (board_get s (u8 (rank * 16 + file)))]
                  _ w1 H1) as (w2 & -> & H2);
        [lia|cbn; lia|rewrite length_app; destruct (e >? 0); lia|].
      destruct (IH (if e >? 0 then 0 else e) _ w2 H2) as (w3 & -> & H3).
      { rewrite !length_app. cbn [length]. rewrite Hc.
        destruct (Z.gtb_spec e 0); [cbn; lia|].
        destruct (Z.gtb_spec e 0); lia. }
      exists w3. split; [reflexivity|].
      rewrite <- !app_assoc in H3. cbn [app] in H3. exact H3.
Qed.

Lemma fen_ranks_goes ranks : forall pre w,
  fen_holds buffer size pre w ->
  (length pre + 9 * length ranks <= 90)%nat ->
  exists w', fen_ranks s ranks w = Go w'
             /\ fen_holds buffer size (pre ++ placement_text s ranks) w'
             /\ (length (placement_text s ranks)
                 <= 8 * length ranks
                    + length (List.filter (fun r => (r <? 7)%Z) ranks))%nat.
Proof.
  induction ranks as [|rank ranks IH]; intros pre w H Hp;
    cbn [fen_ranks placement_text flat_map length List.filter] in *.
  - exists w. rewrite app_nil_r. split; [reflexivity|split; [exact H|lia]].
  - destruct (fen_rank_goes rank [0; 1; 2; 3; 4; 5; 6; 7] 0 pre w H)
      as (w1 & -> & H1); [cbn; lia|].
    pose proof (rank_text_length rank [0; 1; 2; 3; 4; 5; 6; 7] 0) as Hr.
    cbn [length Z.gtb Z.compare] in Hr.
    assert (length (rank_text s rank [0; 1; 2; 3; 4; 5; 6; 7]%Z 0) <= 9)%nat
      as Hr9 by (destruct (rank <? 7); lia).
    destruct (IH _ w1 H1) as (w2 & -> & H2 & Hl2);
      [rewrite length_app; lia|].
    exists w2. split; [reflexivity|]. rewrite length_app.
    split; [now rewrite app_assoc|]. fold (placement_text s ranks).
    destruct (rank <? 7); cbn [length]; lia.
Qed.

Lemma rights_text_length : (length (rights_text s) <= 4)%nat.
Proof.
  unfold rights_text, right_text.
  repeat destruct (unmoved_pair _ _ _); cbn; lia.
Qed.

Lemma fen_right_goes a b c has_castling pre w :
  fen_holds buffer size pre w -> (length pre <= 84)%nat ->
  exists w',
    fen_right s a b c (has_castling, w)
    = (has_castling || unmoved_pair s a b, Go w')
    /\ fen_holds buffer size (pre ++ right_text s a b c) w'.
Proof.
  intros H Hp. unfold fen_right, right_text.
  destruct (unmoved_pair s a b).
  - destruct (fen_put_goes 1 [c] pre w H) as (w1 & -> & H1);
      [lia|cbn; lia|lia|].
    exists w1. now rewrite orb_true_r.
  - exists w. now rewrite orb_false_r, app_nil_r.
Qed.

Lemma right_text_length a b c : (length (right_text s a b c) <= 1)%nat.
Proof. unfold right_text. destruct (unmoved_pair s a b); cbn; lia. Qed.

Lemma fen_rights_goes pre w :
  fen_holds buffer size pre w -> (length pre <= 80)%nat ->
  exists w', fen_rights s w = Go w'
             /\ fen_holds buffer size (pre ++ rights_text s) w'.
Proof.
  intros H Hp. unfold fen_rights.
  pose proof (right_text_length 0x74 0x77 "K") as L1.
  pose proof (right_text_length 0x74 0x70 "Q") as L2.
  pose proof (right_text_length 0x04 0x07 "k") as L3.
  pose proof (right_text_length 0x04 0x00 "q") as L4.
  destruct (fen_right_goes 0x74 0x77 "K" false pre w H)
    as (w1 & -> & H1); [lia|].
  destruct (fen_right_goes 0x74 0x70 "Q" (false || unmoved_pair s 0x74 0x77)
              _ w1 H1) as (w2 & -> & H2); [rewrite length_app; lia|].
  destruct (fen_right_goes 0x04 0x07 "k"
              (false || unmoved_pair s 0x74 0x77 || unmoved_pair s 0x74 0x70)
              _ w2 H2) as (w3 & -> & H3); [rewrite !length_app; lia|].
  destruct (fen_right_goes 0x04 0x00 "q"
              (false || unmoved_pair s 0x74 0x77 || unmoved_pair s 0x74 0x70
               || unmoved_pair s 0x04 0x07)
              _ w3 H3) as (w4 & -> & H4); [rewrite !length_app; lia|].
  rewrite <- !app_assoc in H4.
  assert (length (right_text s 0x74 0x77 "K" ++ right_text s 0x74 0x70 "Q"
                  ++ right_text s 0x04 0x07 "k" ++ right_text s 0x04 0x00 "q")
          <= 4)%nat as L by (rewrite !length_app; lia).
  unfold rights_text. revert H4 L. unfold right_text.
  destruct (unmoved_pair s 0x74 0x77), (unmoved_pair s 0x74 0x70),
    (unmoved_pair s 0x04 0x07), (unmoved_pair s 0x04 0x00);
    cbn [orb negb app]; intros H4 L;
    first [ exists w4; split; [reflexivity|exact H4]
          | apply fen_put_goes;
            [rewrite app_nil_r in H4; exact H4|lia|cbn; lia|lia] ].
Qed.

Lemma fen_target_goes pre w :
  fen_holds buffer size pre w -> (length pre <= 85)%nat ->
  exists w', fen_target s w = Go w'
             /\ fen_holds buffer size (pre ++ target_text s) w'.
Proof.
  intros H Hp. unfold fen_target, target_text.
  destruct (_ =? MCUMAX_SQUARE_INVALID);
    apply fen_put_goes; try assumption; cbn; lia.
Qed.

Lemma target_text_length : (length (target_text s) <= 2)%nat.
Proof. unfold target_text. destruct (_ =? _); cbn; lia. Qed.

Ltac text_length := rewrite ?length_app; cbn [length side_text]; lia.

Lemma get_fen_text :
  mcumax_get_fen s (Some buffer) size
  = Some (fen_text s ++ zero :: drop (S (length (fen_text s))) buffer)
  /\ (length (fen_text s) <= 85)%nat.
Proof.
  unfold mcumax_get_fen, fen_fields.
  destruct (Z.ltb_spec size 100) as [|_]; [lia|].
  assert (fen_holds buffer size [] (Writer buffer 0 (size - 1))) as H0.
  { split; cbn [fen_buffer ptr remaining length app]; [now rewrite drop_0|lia|lia]. }
  destruct (fen_ranks_goes [0; 1; 2; 3; 4; 5; 6; 7] [] _ H0)
    as (w1 & -> & H1 & L0); [cbn; lia|].
  assert (length (placement_text s [0; 1; 2; 3; 4; 5; 6; 7]%Z) <= 71)%nat
    as L1 by exact L0.
  clear L0. cbn [app] in H1.
  cbn [fen_bind].
  destruct (fen_put_goes 2 (" "%char :: side_text s) _ w1 H1)
    as (w2 & E2 & H2); [lia|cbn; lia|text_length|].
  unfold side_text in E2. rewrite E2. cbn [fen_bind].
  destruct (fen_put_goes 2 [" "%char] _ w2 H2) as (w3 & -> & H3);
    [lia|cbn; lia|text_length|].
  cbn [fen_bind].
  destruct (fen_rights_goes _ w3 H3) as (w4 & -> & H4);
    [text_length|].
  pose proof rights_text_length as L4.
  cbn [fen_bind].
  destruct (fen_put_goes 2 [" "%char] _ w4 H4) as (w5 & -> & H5);
    [lia|cbn; lia|text_length|].
  cbn [fen_bind].
  destruct (fen_target_goes _ w5 H5) as (w6 & -> & H6);
    [text_length|].
  pose proof target_text_length as L6.
  cbn [fen_bind].
  destruct (fen_put_goes 3 [" "; "0"]%char _ w6 H6) as (w7 & -> & H7);
    [lia|cbn; lia|text_length|].
  cbn [fen_bind].
  destruct (fen_put_goes 3 [" "; "1"]%char _ w7 H7) as (w8 & -> & H8);
    [lia|cbn; lia|text_length|].
  cbn [fen_bind fen_result fen_buffer].
  assert (fen_text s
          = (((((((placement_text s [0; 1; 2; 3; 4; 5; 6; 7]
                   ++ " "%char :: side_text s) ++ [" "%char])
                 ++ rights_text s) ++ [" "%char]) ++ target_text s)
              ++ [" "; "0"]%char) ++ [" "; "1"]%char)) as Et.
  { unfold fen_text. rewrite <- !app_assoc. reflexivity. }
  rewrite <- Et in H8.
  assert (length (fen_text s) <= 85)%nat as Ht.
  { rewrite Et, !length_app. cbn [length side_text]. lia. }
  split; [|exact Ht].
  destruct H8 as [Hb Hp _]. rewrite Hb, Hp, Nat2Z.id.
  f_equal.
  destruct (lookup_lt_is_Some_2 buffer (length (fen_text s))) as [x Hx];
    [lia|].
  rewrite (drop_S _ _ _ Hx).
  rewrite insert_app_r_alt by lia. rewrite Nat.sub_diag. reflexivity.
Qed.
End FenWriter.

(** *** The text holds no NUL *)

Lemma char_of_nonzero x : 0 < x < 256 -> char_of x <> zero.
Proof.
  intros Hx E. unfold char_of in E. rewrite Z.mod_small in E by lia.
  apply (f_equal nat_of_ascii) in E.
  rewrite nat_ascii_embedding in E by lia.
  change (nat_of_ascii zero) with 0%nat in E. lia.
Qed.

Lemma piece_char_nonzero c : piece_char c <> zero.
Proof.
  unfold piece_char. cbv zeta.
  repeat case_if; discriminate.
Qed.

Lemma count_text_nonzero e :
  0 <= e <= 8 -> Forall (fun c => c <> zero) (count_text e).
Proof.
  intros He. unfold count_text. destruct (Z.gtb_spec e 0); [|constructor].
  constructor; [|constructor]. apply char_of_nonzero.
  change (char_code "0") with 48. lia.
Qed.

Lemma rank_text_nonzero s rank files : forall e,
  0 <= e -> e + Z.of_nat (length files) <= 8 ->
  Forall (fun c => c <> zero) (rank_text s rank files e).
Proof.
  induction files as [|file files IH]; intros e He Hf;
    cbn [rank_text length] in *.
  - apply Forall_app. split; [apply count_text_nonzero; lia|].
    destruct (rank <? 7); repeat constructor. discriminate.
  - cbv zeta. destruct (_ =? MCUMAX_EMPTY); [apply IH; lia|].
    apply Forall_app. split; [apply count_text_nonzero; lia|].
    constructor; [apply piece_char_nonzero|].
    apply IH; destruct (Z.gtb_spec e 0); lia.
Qed.

Lemma land_15_range x : 0 <= Z.land x 15 < 16.
Proof.
  change 15 with (Z.ones 4). rewrite Z.land_ones by lia.
  apply Z.mod_pos_bound. reflexivity.
Qed.

Lemma fen_text_nonzero s : Forall (fun c => c <> zero) (fen_text s).
Proof.
  unfold fen_text. apply Forall_app. split.
  { unfold placement_text. cbn [flat_map].
    repeat (apply Forall_app; split;
            [apply rank_text_nonzero; cbn; lia|]).
    constructor. }
  constructor; [discriminate|]. apply Forall_app. split.
  { unfold side_text. constructor; [|constructor].
    destruct (_ =? _); discriminate. }
  constructor; [discriminate|]. apply Forall_app. split.
  { unfold rights_text, right_text.
    repeat destruct (unmoved_pair _ _ _); cbn [app];
      repeat constructor; discriminate. }
  constructor; [discriminate|]. apply Forall_app. split.
  { unfold target_text. destruct (_ =? _).
    - repeat constructor. discriminate.
    - pose proof (land_15_range (mcumax.en_passant_square s)) as H1.
      assert (0 <= Z.shiftr (Z.land (mcumax.en_passant_square s) 240) 4 < 16)
        as H2.
      { rewrite Z.shiftr_land. change (Z.shiftr 240 4) with 15.
        apply land_15_range. }
      repeat constructor; apply char_of_nonzero.
      + change (char_code "a") with 97. lia.
      + change (char_code "8") with 56. lia. }
  repeat constructor; discriminate.
Qed.

(** X5.  [mcumax_get_fen] with a [NULL] buffer or a size below 100 writes
    nothing.  With a buffer of [buffer_size >= 100] characters it never
    leaves through one of its [remaining] tests: it writes a text of at most
    85 characters, none of them NUL, then the terminating NUL, and leaves
    the rest of the buffer as it was. *)
Theorem get_fen_complete (s : mcumax.t) (buffer : list ascii)
    (buffer_size : Z) :
  length buffer = Z.to_nat buffer_size ->
  mcumax_get_fen s None buffer_size = None
  /\ (buffer_size < 100 ->
      mcumax_get_fen s (Some buffer) buffer_size = Some buffer)
  /\ (100 <= buffer_size ->
      exists text,
        mcumax_get_fen s (Some buffer) buffer_size
        = Some (text ++ zero :: drop (S (length text)) buffer)
        /\ (length text <= 85)%nat
        /\ Forall (fun c => c <> zero) text).
Proof.
  intros Hl. split; [reflexivity|]. split.
  - intros Hs. unfold mcumax_get_fen.
    destruct (Z.ltb_spec buffer_size 100); [reflexivity|lia].
  - intros Hs. exists (fen_text s).
    destruct (get_fen_text s buffer buffer_size Hs Hl) as [E L].
    split; [exact E|]. split; [exact L|apply fen_text_nonzero].
Qed.

Lemma fen_loop_text text rest : forall f,
  Forall (fun c => c <> zero) text ->
  fen_loop (string_of_list_ascii (text ++ zero :: rest)) f = fen_parse text f.
Proof.
  induction text as [|c text IH]; intros f H;
    cbn [app string_of_list_ascii fen_loop fen_parse fold_left].
  - reflexivity.
  - inversion H as [|? ? Hc Ht]; subst.
    apply Ascii.eqb_neq in Hc. rewrite Hc. now apply IH.
Qed.

Lemma fen_parse_app a b f : fen_parse (a ++ b) f = fen_parse b (fen_parse a f).
Proof. unfold fen_parse. apply fold_left_app. Qed.

(** *** Squares *)

Lemma on_board_split sq :
  on_board sq <->
  exists r k, 0 <= r < 8 /\ 0 <= k < 8 /\ sq = 16 * r + k.
Proof.
  split.
  - intros [Hr Hm].
    pose proof (forallb_range (fun sq =>
      negb (Z.land sq MCUMAX_BOARD_MASK =? 0)
      || ((sq mod 16 <? 8) && (sq / 16 <? 8))) 0 128
      ltac:(vm_compute; reflexivity) sq Hr) as H.
    cbv beta in H. rewrite Hm in H. cbn [Z.eqb negb orb] in H.
    apply andb_true_iff in H. destruct H as [H1 H2].
    apply Z.ltb_lt in H1, H2.
    exists (sq / 16), (sq mod 16).
    pose proof (Z.div_mod sq 16 ltac:(lia)).
    pose proof (Z.mod_pos_bound sq 16 ltac:(lia)).
    assert (0 <= sq / 16) by (apply Z.div_pos; lia). lia.
  - intros (r & k & Hr & Hk & ->).
    assert (0 <= 16 * r + k < 128) as Hs by lia.
    split; [exact Hs|].
    pose proof (forallb_range (fun sq =>
      negb ((sq mod 16 <? 8) && (sq / 16 <? 8))
      || (Z.land sq MCUMAX_BOARD_MASK =? 0)) 0 128
      ltac:(vm_compute; reflexivity) (16 * r + k) Hs) as H.
    cbv beta in H.
    replace ((16 * r + k) mod 16) with k in H
      by (rewrite Z.add_comm, Z.mul_comm, Z.mod_add, Z.mod_small; lia).
    replace ((16 * r + k) / 16) with r in H
      by (rewrite Z.add_comm, Z.mul_comm, Z.div_add, Z.div_small; lia).
    destruct (Z.ltb_spec k 8), (Z.ltb_spec r 8); lia.
Qed.

Lemma square_on_board r k : 0 <= r < 8 -> 0 <= k < 8 -> on_board (16 * r + k).
Proof. intros Hr Hk. apply on_board_split. eauto. Qed.

(** *** One character *)

Lemma nibble_split c :
  Z.land c 7 = Z.land (Z.land c 15) 7 /\ Z.land c 8 = Z.land (Z.land c 15) 8.
Proof. rewrite <- !Z.land_assoc. split; reflexivity. Qed.

Lemma nibble_cases c :
  In (Z.land c 15) [0; 1; 2; 3; 4; 5; 6; 7; 8; 9; 10; 11; 12; 13; 14; 15].
Proof.
  pose proof (land_15_range c) as H. cbn [In]. lia.
Qed.

Lemma fen_place_parsed s piece f :
  field_index f = 0 -> on_board (board_index f) ->
  parsed s (board_index f) (engine f) ->
  Z.land (u8 (if nz piece then Z.lor piece MCUMAX_PIECE_MOVED else piece)) 0xf
  = Z.land (board_get s (board_index f)) 0xf ->
  field_index (fen_place piece f) = 0
  /\ board_index (fen_place piece f) = board_index f + 1
  /\ parsed s (board_index f + 1) (engine (fen_place piece f)).
Proof.
  intros Hf [Hr Hm] [Hl Hc He] Hp. unfold fen_place, mcumax_set_piece.
  rewrite (u8_small (board_index f)) by lia.
  rewrite Hm. change (nz 0) with false.
  cbn [fst snd field_index board_index engine].
  split; [exact Hf|]. split; [apply u8_small; lia|].
  split.
  - now rewrite board_put_length.
  - intros sq Hsq Hlt. rewrite board_get_put by (destruct Hsq; lia).
    destruct (Nat.eqb_spec (Z.to_nat (board_index f)) (Z.to_nat sq)) as [E|E].
    + replace sq with (board_index f) by (destruct Hsq; lia). exact Hp.
    + apply Hc; [exact Hsq|]. destruct Hsq. lia.
  - exact He.
Qed.

Lemma piece_char_parsed s c f :
  regular_cell c = true -> c <> 0 ->
  field_index f = 0 -> on_board (board_index f) ->
  c = board_get s (board_index f) ->
  parsed s (board_index f) (engine f) ->
  field_index (fen_char (piece_char c) f) = 0
  /\ board_index (fen_char (piece_char c) f) = board_index f + 1
  /\ parsed s (board_index f + 1) (engine (fen_char (piece_char c) f)).
Proof.
  intros Hreg Hc Hf Hb Ec Hp.
  assert ((board_index f <? 128) = true) as Hlt
    by (apply Z.ltb_lt; destruct Hb; lia).
  assert (exists piece,
            fen_char (piece_char c) f = fen_place piece f
            /\ Z.land (u8 (if nz piece then Z.lor piece MCUMAX_PIECE_MOVED
                           else piece)) 0xf = Z.land c 0xf)
    as (piece & Ep & E).
  { unfold regular_cell in Hreg. apply Z.eqb_neq in Hc. rewrite Hc in Hreg.
    cbn [orb] in Hreg. unfold piece_char. cbv zeta.
    unfold MCUMAX_BOARD_WHITE, MCUMAX_PAWN_UPSTREAM, MCUMAX_PAWN_DOWNSTREAM,
      MCUMAX_KNIGHT, MCUMAX_KING, MCUMAX_BISHOP, MCUMAX_ROOK, MCUMAX_QUEEN
      in *.
    destruct (nibble_split c) as [E7 E8]. rewrite E7, E8 in *.
    pose proof (nibble_cases c) as Hn.
    unfold fen_char, fen_board. rewrite Hf, Hlt.
    assert (Z.land c 15 = Z.land (Z.land c 15) 15) as E15
      by (rewrite <- Z.land_assoc; reflexivity).
    rewrite E15. clear E15 E7 E8.
    revert Hreg. generalize (Z.land c 15) Hn. clear.
    intros m Hm. cbn [In] in Hm.
    repeat destruct Hm as [<-|Hm]; try contradiction; intros Hreg;
      try discriminate Hreg;
      (eexists; split; [reflexivity|reflexivity]). }
  rewrite Ep. apply fen_place_parsed; try assumption. now rewrite <- Ec.
Qed.

Lemma for_range_const {A : Type} (n : nat) (g : A -> A) (a : A) :
  for_range 0 (Z.of_nat n) (fun _ => g) a = Nat.iter n g a.
Proof.
  unfold for_range. rewrite Z.sub_0_r, Nat2Z.id.
  generalize 0%nat. revert a.
  induction n as [|n IH]; intros a k; cbn [seq map fold_left]; [reflexivity|].
  rewrite IH. symmetry. apply Nat.iter_succ_r.
Qed.

Lemma count_char_parsed e f :
  1 <= e <= 8 -> field_index f = 0 -> board_index f < 128 ->
  fen_char (char_of (char_code "0" + e)) f
  = Nat.iter (Z.to_nat e) (fen_place MCUMAX_EMPTY) f.
Proof.
  intros He Hf Hb. apply Z.ltb_lt in Hb.
  rewrite <- for_range_const. rewrite Z2Nat.id by lia.
  unfold fen_char, fen_board.
  assert (In e [1; 2; 3; 4; 5; 6; 7; 8]) as Hin by (cbn [In]; lia).
  cbn [In] in Hin.
  repeat destruct Hin as [<-|Hin]; try contradiction;
    cbn [Ascii.eqb]; rewrite Hf, Hb; reflexivity.
Qed.

Lemma empties_parsed s n : forall f,
  field_index f = 0 ->
  (forall j, 0 <= j < Z.of_nat n ->
     on_board (board_index f + j) /\ board_get s (board_index f + j) = 0) ->
  parsed s (board_index f) (engine f) ->
  field_index (Nat.iter n (fen_place MCUMAX_EMPTY) f) = 0
  /\ board_index (Nat.iter n (fen_place MCUMAX_EMPTY) f)
     = board_index f + Z.of_nat n
  /\ parsed s (board_index f + Z.of_nat n)
       (engine (Nat.iter n (fen_place MCUMAX_EMPTY) f)).
Proof.
  induction n as [|n IH]; intros f Hf Hj Hp.
  - cbn [Nat.iter]. rewrite Z.add_0_r. auto.
  - cbn [Nat.iter].
    destruct (IH f Hf) as (I1 & I2 & I3); [intros j Hr; apply Hj; lia|exact Hp|].
    destruct (Hj (Z.of_nat n) ltac:(lia)) as [Ho Hz].
    destruct (fen_place_parsed s MCUMAX_EMPTY
                (Nat.iter n (fen_place MCUMAX_EMPTY) f)) as (J1 & J2 & J3).
    + exact I1.
    + now rewrite I2.
    + now rewrite I2.
    + rewrite I2, Hz. reflexivity.
    + rewrite I2 in J2, J3.
      replace (board_index f + Z.of_nat (S n))
        with (board_index f + Z.of_nat n + 1) by lia.
      auto.
Qed.

Lemma slash_parsed f :
  field_index f = 0 -> board_index f < 128 ->
  fen_char "/" f = Fen 0 (Z.land (board_index f) 0xf0 + 0x10) (engine f).
Proof.
  intros Hf Hb. apply Z.ltb_lt in Hb. unfold fen_char, fen_board.
  change (Ascii.eqb "/" " ") with false. cbv iota.
  rewrite Hf, Hb. reflexivity.
Qed.

(** The pending count: [e] empty cells of [s] lie before file [k] of the
    rank, and the parser stands at the first of them. *)
Lemma count_text_parsed s rank k e f :
  0 <= rank < 8 -> 0 <= e <= k -> k <= 8 ->
  field_index f = 0 -> board_index f = 16 * rank + k - e ->
  (forall j, k - e <= j < k -> board_get s (16 * rank + j) = 0) ->
  parsed s (board_index f) (engine f) ->
  field_index (fen_parse (count_text e) f) = 0
  /\ board_index (fen_parse (count_text e) f) = 16 * rank + k
  /\ parsed s (16 * rank + k) (engine (fen_parse (count_text e) f)).
Proof.
  intros Hr He Hk Hf Hb Hz Hp. unfold count_text.
  destruct (Z.gtb_spec e 0) as [Hpos|Hpos].
  - unfold fen_parse. cbn [fold_left].
    rewrite count_char_parsed by lia.
    destruct (empties_parsed s (Z.to_nat e) f Hf) as (I1 & I2 & I3).
    + intros j Hj. rewrite Hb.
      replace (16 * rank + k - e + j) with (16 * rank + (k - e + j)) by lia.
      split; [apply square_on_board; lia|apply Hz; lia].
    + exact Hp.
    + rewrite Z2Nat.id in I2, I3 by lia.
      rewrite Hb in I2, I3.
      replace (16 * rank + k - e + e) with (16 * rank + k) in * by lia.
      auto.
  - unfold fen_parse. cbn [fold_left].
    assert (e = 0) by lia. subst e. rewrite Z.sub_0_r in Hb.
    rewrite <- Hb. auto.
Qed.

Lemma rank_text_parsed s rank n : forall k e f,
  (forall sq, on_board sq -> regular_cell (board_get s sq) = true) ->
  0 <= rank < 8 -> 0 <= e <= k -> k + Z.of_nat n = 8 ->
  field_index f = 0 -> board_index f = 16 * rank + k - e ->
  (forall j, k - e <= j < k -> board_get s (16 * rank + j) = 0) ->
  parsed s (board_index f) (engine f) ->
  let f' := fen_parse (rank_text s rank (file_list k n) e) f in
  field_index f' = 0
  /\ board_index f' = (if rank <? 7 then 16 * (rank + 1) else 16 * rank + 8)
  /\ parsed s (16 * rank + 8) (engine f').
Proof.
  induction n as [|n IH]; intros k e f Hreg Hr He Hk Hf Hb Hz Hp;
    cbn [file_list rank_text]; cbv zeta.
  - assert (k = 8) by lia. subst k.
    rewrite fen_parse_app.
    destruct (count_text_parsed s rank 8 e f) as (I1 & I2 & I3);
      try assumption; try lia.
    destruct (rank <? 7) eqn:E.
    + change (fen_parse ["/"%char] ?x) with (fen_char "/" x).
      rewrite slash_parsed by (assumption || lia).
      cbn [field_index board_index engine].
      split; [reflexivity|]. split; [|exact I3].
      rewrite I2.
      pose proof (forallb_range (fun r =>
        Z.land (16 * r + 8) 240 + 16 =? 16 * (r + 1)) 0 8
        ltac:(vm_compute; reflexivity) rank ltac:(lia)) as Hx.
      now apply Z.eqb_eq in Hx.
    + change (fen_parse [] ?x) with x. auto.
  - assert (0 <= k < 8) as Hk8 by lia.
    rewrite (Z.mul_comm rank 16), u8_small by lia.
    destruct (Z.eqb_spec (board_get s (16 * rank + k)) MCUMAX_EMPTY) as [Ez|Ez].
    + apply IH; try assumption; try lia.
      intros j Hj. destruct (Z.eq_dec j k) as [->|Hne];
        [exact Ez|apply Hz; lia].
    + rewrite fen_parse_app.
      destruct (count_text_parsed s rank k e f) as (I1 & I2 & I3);
        try assumption; try lia.
      change (piece_char (board_get s (16 * rank + k)) :: ?l)
        with ([piece_char (board_get s (16 * rank + k))] ++ l).
      rewrite fen_parse_app.
      change (fen_parse [?c] ?x) with (fen_char c x).
      destruct (piece_char_parsed s (board_get s (16 * rank + k))
                  (fen_parse (count_text e) f)) as (J1 & J2 & J3).
      * apply Hreg. apply square_on_board; lia.
      * exact Ez.
      * exact I1.
      * rewrite I2. apply square_on_board; lia.
      * now rewrite I2.
      * now rewrite I2.
      * rewrite I2 in J2, J3.
        apply IH; try assumption; try lia.
        -- destruct (e >? 0); lia.
        -- rewrite J2. destruct (Z.gtb_spec e 0); lia.
        -- intros j Hj. destruct (Z.gtb_spec e 0); lia.
        -- now rewrite J2.
Qed.

Lemma parsed_next_rank s r x :
  parsed s (16 * r + 8) x -> parsed s (16 * (r + 1)) x.
Proof.
  intros [Hl Hc He]. split; [exact Hl| |exact He].
  intros sq Hsq Hlt. apply Hc; [exact Hsq|].
  apply on_board_split in Hsq. destruct Hsq as (a & b & Ha & Hb & ->). lia.
Qed.

Lemma placement_parsed s n : forall r f,
  (forall sq, on_board sq -> regular_cell (board_get s sq) = true) ->
  0 <= r -> r + Z.of_nat n = 8 ->
  field_index f = 0 -> (n <> 0%nat -> board_index f = 16 * r) ->
  parsed s (16 * r) (engine f) ->
  field_index (fen_parse (placement_text s (file_list r n)) f) = 0
  /\ parsed s 128 (engine (fen_parse (placement_text s (file_list r n)) f)).
Proof.
  induction n as [|n IH]; intros r f Hreg Hr Hn Hf Hb Hp;
    cbn [file_list placement_text flat_map].
  - change (fen_parse [] f) with f. replace 128 with (16 * r) by lia. auto.
  - rewrite fen_parse_app. fold (placement_text s (file_list (r + 1) n)).
    specialize (Hb ltac:(discriminate)).
    destruct (rank_text_parsed s r 8 0 0 f Hreg) as (I1 & I2 & I3);
      [lia|lia|reflexivity|exact Hf|lia|intros j Hj; lia
      |now rewrite Hb|].
    change (file_list 0 8) with [0; 1; 2; 3; 4; 5; 6; 7] in *.
    apply IH; [exact Hreg|lia|lia|exact I1| |now apply parsed_next_rank].
    intros Hn0. rewrite I2.
    destruct (Z.ltb_spec r 7); [reflexivity|].
    destruct n; [contradiction|lia].
Qed.

(** *** The other fields *)

Lemma space_parsed f :
  fen_char " " f
  = Fen (if field_index f <? 4 then field_index f + 1 else field_index f)
        (board_index f) (engine f).
Proof. reflexivity. Qed.

Lemma side_parsed c f :
  Ascii.eqb c " " = false -> field_index f = 1 ->
  fen_char c f = Fen 1 (board_index f) (fen_side c (engine f)).
Proof. intros Hc Hf. unfold fen_char. rewrite Hc, Hf. reflexivity. Qed.

Lemma castling_parsed c f :
  Ascii.eqb c " " = false -> field_index f = 2 ->
  fen_char c f = Fen 2 (board_index f) (fen_castling c (engine f)).
Proof. intros Hc Hf. unfold fen_char. rewrite Hc, Hf. reflexivity. Qed.

Lemma en_passant_parsed c f :
  Ascii.eqb c " " = false -> field_index f = 3 ->
  fen_char c f = Fen 3 (board_index f) (fen_en_passant c (engine f)).
Proof. intros Hc Hf. unfold fen_char. rewrite Hc, Hf. reflexivity. Qed.

Lemma counters_parsed c f : field_index f = 4 -> fen_char c f = f.
Proof.
  intros Hf. unfold fen_char. destruct f as [fi bi e].
  cbn [field_index] in *. subst fi.
  destruct (Ascii.eqb c " "); reflexivity.
Qed.

Lemma nibble_u8 x : Z.land (u8 x) 15 = Z.land x 15.
Proof.
  unfold u8. change 256 with (2 ^ 8). rewrite <- Z.land_ones by lia.
  rewrite <- Z.land_assoc. reflexivity.
Qed.

Lemma rights_kept_clear s side sq x :
  In sq castling_homes -> rights_kept s side x ->
  rights_kept s side (clear_moved sq x).
Proof.
  intros Hin [[Hl Hc He] Hs]. unfold clear_moved.
  pose proof (castling_homes_on_board sq Hin) as Hr.
  split; [|exact Hs]. split; [now rewrite board_put_length| |exact He].
  intros q Hq Hlt. rewrite board_get_put by lia.
  destruct (Nat.eqb_spec (Z.to_nat sq) (Z.to_nat q)) as [E|E];
    [|now apply Hc].
  assert (q = sq) as -> by (destruct Hq; lia).
  rewrite nibble_u8, <- Z.land_assoc.
  change (Z.land (Z.lnot MCUMAX_PIECE_MOVED) 15) with 15. now apply Hc.
Qed.

Lemma rights_parsed s side text : forall f,
  Forall (fun c => Ascii.eqb c " " = false) text ->
  field_index f = 2 -> rights_kept s side (engine f) ->
  field_index (fen_parse text f) = 2 /\ rights_kept s side (engine (fen_parse text f)).
Proof.
  induction text as [|c text IH]; intros f Ht Hf Hk.
  - change (fen_parse [] f) with f. auto.
  - inversion Ht as [|? ? Hc Ht']; subst.
    change (fen_parse (c :: text) f) with (fen_parse text (fen_char c f)).
    rewrite castling_parsed by assumption.
    apply IH; [exact Ht'|reflexivity|]. cbn [engine].
    apply (fen_castling_keeps (rights_kept s side)); [|exact Hk].
    intros sq x Hin Hx. now apply rights_kept_clear.
Qed.

Lemma rights_text_letters s :
  Forall (fun c => Ascii.eqb c " " = false) (rights_text s).
Proof.
  unfold rights_text, right_text.
  repeat destruct (unmoved_pair _ _ _); cbn [app];
    repeat constructor.
Qed.

Lemma fen_en_passant_step c x :
  mcumax.en_passant_square (fen_en_passant c x)
  = target_step c (mcumax.en_passant_square x).
Proof.
  unfold target_step, fen_en_passant.
  destruct c as [[] [] [] [] [] [] [] []]; reflexivity.
Qed.

Lemma fen_en_passant_side c x :
  mcumax.current_side (fen_en_passant c x) = mcumax.current_side x.
Proof.
  unfold fen_en_passant.
  destruct c as [[] [] [] [] [] [] [] []]; reflexivity.
Qed.

Lemma target_text_steps s :
  en_passant_ok (mcumax.en_passant_square s) ->
  fold_left (fun ep c => target_step c ep) (target_text s)
    MCUMAX_SQUARE_INVALID
  = mcumax.en_passant_square s
  /\ Forall (fun c => Ascii.eqb c " " = false) (target_text s).
Proof.
  unfold target_text. generalize (mcumax.en_passant_square s).
  intros ep [->|Hep].
  - split; [reflexivity|repeat constructor].
  - apply on_board_squares in Hep.
    assert (forallb (fun ep =>
              (fold_left (fun ep c => target_step c ep)
                 (if ep =? MCUMAX_SQUARE_INVALID then ["-"%char]
                  else [char_of (char_code "a" + Z.land ep 15);
                        char_of (char_code "8"
                                 - Z.shiftr (Z.land ep 240) 4)])
                 MCUMAX_SQUARE_INVALID =? ep)
              && forallb (fun c => negb (Ascii.eqb c " "))
                   (if ep =? MCUMAX_SQUARE_INVALID then ["-"%char]
                    else [char_of (char_code "a" + Z.land ep 15);
                          char_of (char_code "8"
                                   - Z.shiftr (Z.land ep 240) 4)]))
              board_squares = true) as Hall by (vm_compute; reflexivity).
    rewrite forallb_forall in Hall. specialize (Hall ep Hep).
    apply andb_true_iff in Hall. destruct Hall as [H1 H2].
    split; [now apply Z.eqb_eq|].
    apply Forall_forall. intros c Hc. apply list_elem_of_In in Hc.
    rewrite forallb_forall in H2. specialize (H2 c Hc).
    now apply negb_true_iff in H2.
Qed.

Lemma target_parsed text : forall f,
  Forall (fun c => Ascii.eqb c " " = false) text ->
  field_index f = 3 ->
  field_index (fen_parse text f) = 3
  /\ mcumax.board (engine (fen_parse text f)) = mcumax.board (engine f)
  /\ mcumax.current_side (engine (fen_parse text f))
     = mcumax.current_side (engine f)
  /\ mcumax.en_passant_square (engine (fen_parse text f))
     = fold_left (fun ep c => target_step c ep) text
         (mcumax.en_passant_square (engine f)).
Proof.
  induction text as [|c text IH]; intros f Ht Hf.
  - change (fen_parse [] f) with f. cbn [fold_left]. auto.
  - inversion Ht as [|? ? Hc Ht']; subst.
    change (fen_parse (c :: text) f) with (fen_parse text (fen_char c f)).
    rewrite en_passant_parsed by assumption. cbn [fold_left].
    destruct (IH (Fen 3 (board_index f) (fen_en_passant c (engine f))))
      as (I1 & I2 & I3 & I4); [exact Ht'|reflexivity|].
    cbn [engine] in *. rewrite fen_en_passant_board in I2.
    rewrite fen_en_passant_side in I3.
    rewrite fen_en_passant_step in I4. auto.
Qed.

(** The parser on the text [mcumax_get_fen] produces for a regular engine. *)
Lemma fen_text_parsed s s0 :
  fen_regular s -> length (mcumax.board s0) = 129%nat ->
  let x := engine (fen_parse (fen_text s) (Fen 0 0 (mcumax_init s0))) in
  (forall sq, on_board sq ->
     Z.land (board_get x sq) 0xf = Z.land (board_get s sq) 0xf)
  /\ mcumax.current_side x = mcumax.current_side s
  /\ mcumax.en_passant_square x = mcumax.en_passant_square s.
Proof.
  intros [Hreg Hside Hep] Hl. cbv zeta. unfold fen_text.
  rewrite fen_parse_app.
  destruct (placement_parsed s 8 0 (Fen 0 0 (mcumax_init s0)) Hreg)
    as (A1 & A2); [lia|reflexivity|reflexivity|reflexivity| |].
  { cbn [engine]. split; [now rewrite init_length| |reflexivity].
    intros sq [Hsq _] Hlt. lia. }
  change (file_list 0 8) with [0; 1; 2; 3; 4; 5; 6; 7] in *.
  set (f1 := fen_parse (placement_text s [0; 1; 2; 3; 4; 5; 6; 7]) _) in *.
  (* the side *)
  change (fen_parse (" "%char :: side_text s ++ ?l) f1)
    with (fen_parse l (fen_char (hd " "%char (side_text s)) (fen_char " " f1))).
  rewrite space_parsed, A1. cbn [Z.ltb Z.compare Z.add].
  rewrite side_parsed;
    [|unfold side_text; cbn [hd]; now destruct (_ =? _)|reflexivity].
  cbn [board_index engine].
  set (f2 := Fen 1 _ _).
  assert (rights_kept s (mcumax.current_side s) (engine f2)) as B.
  { unfold f2. cbn [engine]. destruct A2 as [Hl1 Hc1 He1].
    unfold side_text, fen_side. cbn [hd].
    destruct (Z.eqb_spec (mcumax.current_side s) MCUMAX_BOARD_WHITE) as [E|E].
    - split; [split; assumption|]. now rewrite E.
    - split; [split; assumption|].
      destruct Hside as [Hs|Hs]; [contradiction|now rewrite Hs]. }
  (* the castling rights *)
  change (fen_parse (" "%char :: rights_text s ++ ?l) f2)
    with (fen_parse (rights_text s ++ l) (fen_char " " f2)).
  rewrite space_parsed. cbn [field_index board_index engine Z.ltb Z.compare Z.add].
  rewrite fen_parse_app.
  destruct (rights_parsed s (mcumax.current_side s) (rights_text s)
              (Fen 2 (board_index f1) (engine f2))
              (rights_text_letters s) eq_refl B) as (C1 & C2).
  set (f3 := fen_parse (rights_text s) _) in *.
  (* the en-passant target *)
  change (fen_parse (" "%char :: target_text s ++ ?l) f3)
    with (fen_parse (target_text s ++ l) (fen_char " " f3)).
  rewrite space_parsed, C1. cbn [Z.ltb Z.compare Z.add].
  rewrite fen_parse_app.
  destruct (target_text_steps s Hep) as (T1 & T2).
  destruct (target_parsed (target_text s) (Fen 3 (board_index f3) (engine f3))
              T2 eq_refl) as (D1 & D2 & D3 & D4).
  set (f4 := fen_parse (target_text s) _) in *.
  cbn [engine] in D2, D3, D4.
  (* the counters *)
  assert (fen_parse [" "; "0"; " "; "1"]%char f4
          = Fen 4 (board_index f4) (engine f4)) as ->.
  { unfold fen_parse. cbn [fold_left]. rewrite (space_parsed f4), D1.
    cbn [Z.ltb Z.compare Z.add].
    now rewrite !counters_parsed by reflexivity. }
  cbn [engine].
  destruct C2 as [[Hl3 Hc3 He3] Hs3].
  split; [|split].
  - intros sq Hsq. unfold board_get. rewrite D2.
    apply Hc3; [exact Hsq|]. destruct Hsq. lia.
  - now rewrite D3.
  - now rewrite D4, He3.
Qed.

(** X6.  Writing a position with [mcumax_get_fen] and loading the text
    with [mcumax_set_fen_position], into any engine, gives the position
    back: on an engine whose cells are empty or hold a piece of a kind 1..7
    with pawns of the direction of their colour, which has White or Black
    to move and whose en-passant slot is the sentinel or a square,
    [mcumax_get_piece] answers the same on each of the 64 squares, and the
    side to move and the en-passant slot are the same. *)
Theorem fen_round_trip (s s0 : mcumax.t) (buffer : list ascii)
    (buffer_size : Z) (written : list ascii) :
  fen_regular s ->
  100 <= buffer_size -> length buffer = Z.to_nat buffer_size ->
  length (mcumax.board s0) = 129%nat ->
  mcumax_get_fen s (Some buffer) buffer_size = Some written ->
  (forall sq, on_board sq ->
     mcumax_get_piece
       (mcumax_set_fen_position (string_of_list_ascii written) s0) sq
     = mcumax_get_piece s sq)
  /\ mcumax.current_side
       (mcumax_set_fen_position (string_of_list_ascii written) s0)
     = mcumax.current_side s
  /\ mcumax.en_passant_square
       (mcumax_set_fen_position (string_of_list_ascii written) s0)
     = mcumax.en_passant_square s.
Proof.
  intros Hreg Hs Hb Hl E.
  destruct (get_fen_text s buffer buffer_size Hs Hb) as [Et _].
  rewrite Et in E. inversion E as [Ew]. clear E Et.
  unfold mcumax_set_fen_position.
  rewrite fen_loop_text by apply fen_text_nonzero.
  destruct (fen_text_parsed s s0 Hreg Hl) as (H1 & H2 & H3).
  split; [|split; assumption].
  intros sq Hsq. unfold mcumax_get_piece.
  destruct Hsq as [Hr Hm]. rewrite Hm.
  change (nz 0) with false. cbv iota.
  now rewrite H1 by (split; assumption).
Qed.

Lemma check_ray_returns s enemy_mask d direction n : forall m sq,
  ray_leaves n direction sq = true -> (n <= m)%nat ->
  exists b, check_ray m s enemy_mask d direction sq = Some b.
Proof.
  induction n as [|n IH]; intros m sq H Hm; [discriminate|].
  destruct m as [|m]; [lia|]. cbn [ray_leaves] in H. cbn [check_ray].
  destruct (nz (Z.land (sq + direction) 136)); [now exists false|].
  cbn [orb] in H.
  destruct (nz (board_get s (sq + direction))).
  - destruct (nz _); [|now exists false].
    destruct (_ && _); [now exists true|].
    destruct (_ && _); [now exists true|now exists false].
  - apply IH; [exact H|lia].
Qed.

Lemma check_rays_returns s enemy_mask king_square m directions : forall d,
  (forall direction, In direction directions ->
     ray_leaves 8 direction king_square = true) ->
  (8 <= m)%nat ->
  exists b, check_rays m s enemy_mask king_square d directions = Some b.
Proof.
  induction directions as [|direction rest IH]; intros d H Hm;
    cbn [check_rays]; [now exists false|].
  destruct (check_ray_returns s enemy_mask d direction 8 m king_square)
    as [b ->]; [apply H; now left|exact Hm|].
  destruct b; [now exists true|].
  apply IH; [|exact Hm]. intros x Hx. apply H. now right.
Qed.

Lemma king_scan_row_square s mask y xs ks :
  king_scan_row s mask y xs ks = ks
  \/ In (king_scan_row s mask y xs ks) (map (fun x => u8 (y * 16 + x)) xs).
Proof.
  induction xs as [|x xs IH]; cbn [king_scan_row map]; [now left|].
  destruct (_ && _); [right; now left|].
  destruct IH as [IH|IH]; [now left|right; now right].
Qed.

Lemma king_scan_square s mask ys :
  king_scan s mask ys MCUMAX_SQUARE_INVALID = MCUMAX_SQUARE_INVALID
  \/ In (king_scan s mask ys MCUMAX_SQUARE_INVALID)
        (flat_map (fun y => map (fun x => u8 (y * 16 + x))
                              [0; 1; 2; 3; 4; 5; 6; 7]) ys).
Proof.
  induction ys as [|y ys IH]; cbn [king_scan flat_map]; [now left|].
  cbv zeta.
  destruct (king_scan_row_square s mask y [0; 1; 2; 3; 4; 5; 6; 7]
              MCUMAX_SQUARE_INVALID) as [E|H].
  - rewrite E, Z.eqb_refl. cbn [negb].
    destruct IH as [IH|IH]; [left; exact IH|].
    right. apply in_or_app. now right.
  - destruct (Z.eqb_spec (king_scan_row s mask y [0; 1; 2; 3; 4; 5; 6; 7]
                             MCUMAX_SQUARE_INVALID) MCUMAX_SQUARE_INVALID)
      as [E|E]; cbn [negb].
    + rewrite E. destruct IH as [IH|IH]; [now left|].
      right. apply in_or_app. now right.
    + right. apply in_or_app. now left.
Qed.

(** X7.  [is_in_check] ends: each of its eight ray walks leaves the board or
    meets a piece within eight steps, so with fuel for eight steps the
    function answers, on every engine and for every [side]. *)
Theorem is_in_check_returns (fuel : nat) (s : mcumax.t) (side : Z) :
  exists b, is_in_check (8 + fuel) s side = Some b.
Proof.
  unfold is_in_check.
  set (king_mask := if side =? MCUMAX_BOARD_WHITE then _ else _).
  set (enemy_mask := if side =? MCUMAX_BOARD_WHITE
                     then MCUMAX_BOARD_BLACK else _).
  destruct (king_scan_square s king_mask [0; 1; 2; 3; 4; 5; 6; 7]) as [E|H].
  - rewrite E, Z.eqb_refl. now exists false.
  - set (k := king_scan s king_mask _ _) in *.
    destruct (k =? MCUMAX_SQUARE_INVALID); [now exists false|].
    destruct (check_rays_returns s enemy_mask k (8 + fuel)
                [1; -1; 16; -16; 15; -15; 17; -17] 0) as [b ->]; [|lia|].
    + intros direction Hd.
      assert (forallb (fun k => forallb (fun direction =>
                ray_leaves 8 direction k) [1; -1; 16; -16; 15; -15; 17; -17])
                (flat_map (fun y => map (fun x => u8 (y * 16 + x))
                                      [0; 1; 2; 3; 4; 5; 6; 7])
                          [0; 1; 2; 3; 4; 5; 6; 7]) = true) as Hall
        by (vm_compute; reflexivity).
      rewrite forallb_forall in Hall. specialize (Hall k H).
      rewrite forallb_forall in Hall. now apply Hall.
    + destruct b; [now exists true|].
      destruct (check_leaper _ _ _ _ _); [now exists true|].
      destruct (check_pawns _ _ _ _ _); [now exists true|].
      eexists. reflexivity.
Qed.

Lemma check_ray_hit s enemy_mask d direction n : forall sq,
  check_ray n s enemy_mask d direction sq = Some true ->
  exists t, ray_meets s direction sq t
            /\ Z.land t 0x88 = 0
            /\ Z.land (board_get s t) enemy_mask <> 0
            /\ slider d (Z.land (board_get s t) 7).
Proof.
  induction n as [|n IH]; intros sq; [discriminate|]. cbn [check_ray].
  destruct (nz (Z.land (sq + direction) 136)) eqn:Eb; [discriminate|].
  apply nz_false in Eb.
  destruct (nz (board_get s (sq + direction))) eqn:Ec.
  - apply nz_true in Ec.
    destruct (nz (Z.land _ enemy_mask)) eqn:Ee; [|discriminate].
    apply nz_true in Ee. intros E.
    exists (sq + direction).
    split; [now constructor|]. split; [exact Eb|]. split; [exact Ee|].
    unfold slider, MCUMAX_ROOK, MCUMAX_QUEEN, MCUMAX_BISHOP in *.
    destruct (Z.ltb_spec d 4) as [Hd|Hd], (Z.geb_spec d 4) as [Hg|Hg];
      try lia; cbn [andb] in E.
    + left. split; [exact Hd|].
      destruct (Z.eqb_spec (Z.land (board_get s (sq + direction)) 7) 6);
        [now left|].
      destruct (Z.eqb_spec (Z.land (board_get s (sq + direction)) 7) 7);
        [now right|discriminate E].
    + right. split; [exact Hd|].
      destruct (Z.eqb_spec (Z.land (board_get s (sq + direction)) 7) 5);
        [now left|].
      destruct (Z.eqb_spec (Z.land (board_get s (sq + direction)) 7) 7);
        [now right|discriminate E].
  - apply nz_false in Ec. intros E.
    destruct (IH _ E) as (t & Ht & H).
    exists t. split; [|exact H]. now apply ray_meets_on.
Qed.

Lemma check_ray_meets s enemy_mask d direction sq t :
  ray_meets s direction sq t ->
  Z.land (board_get s t) enemy_mask <> 0 ->
  slider d (Z.land (board_get s t) 7) ->
  forall n b, check_ray n s enemy_mask d direction sq = Some b -> b = true.
Proof.
  intros Hm He Hs. induction Hm as [sq Hb Hc|sq t Hb Hc Hm IH];
    intros n b; (destruct n as [|n]; [discriminate|]); cbn [check_ray].
  - apply nz_false in Hb. rewrite Hb. apply nz_true in Hc. rewrite Hc.
    apply nz_true in He. rewrite He.
    unfold slider, MCUMAX_ROOK, MCUMAX_QUEEN, MCUMAX_BISHOP in *.
    destruct Hs as [[Hd [Hk|Hk]]|[Hd [Hk|Hk]]]; rewrite Hk;
      destruct (Z.ltb_spec d 4); destruct (Z.geb_spec d 4); try lia;
      cbn; intros E; now inversion E.
  - apply nz_false in Hb. rewrite Hb.
    assert (nz (board_get s (sq + direction)) = false) as ->
      by now apply nz_false.
    apply (IH He Hs).
Qed.

Lemma check_leaper_spec s enemy_mask kind king_square offsets :
  check_leaper s enemy_mask kind king_square offsets = true <->
  exists o, In o offsets /\ enemy_piece s enemy_mask kind (king_square + o).
Proof.
  induction offsets as [|o rest IH]; cbn [check_leaper In].
  - split; [discriminate|intros (o & [] & _)].
  - destruct (negb (nz _) && nz _ && (_ =? kind)) eqn:E.
    + split; [intros _|reflexivity]. exists o. split; [now left|].
      apply andb_true_iff in E. destruct E as [E E3].
      apply andb_true_iff in E. destruct E as [E1 E2].
      apply negb_true_iff, nz_false in E1. apply nz_true in E2.
      apply Z.eqb_eq in E3. now split.
    + rewrite IH. split.
      * intros (x & Hx & H). exists x. split; [now right|exact H].
      * intros (x & [<-|Hx] & H); [|now exists x].
        exfalso. destruct H as (H1 & H2 & H3).
        apply nz_false in H1. apply nz_true in H2. apply Z.eqb_eq in H3.
        rewrite H1, H2, H3 in E. discriminate E.
Qed.

Lemma check_pawns_spec s side enemy_mask king_square pawn_attacks :
  side = MCUMAX_BOARD_WHITE \/ side = MCUMAX_BOARD_BLACK ->
  check_pawns s side enemy_mask king_square pawn_attacks = true <->
  exists o, In o pawn_attacks
            /\ enemy_piece s enemy_mask
                 (if side =? MCUMAX_BOARD_WHITE
                  then MCUMAX_PAWN_DOWNSTREAM else MCUMAX_PAWN_UPSTREAM)
                 (king_square + o).
Proof.
  intros Hside.
  induction pawn_attacks as [|o rest IH]; cbn [check_pawns In].
  - split; [discriminate|intros (o & [] & _)].
  - destruct (negb (nz _) && nz _ && _) eqn:E.
    + split; [intros _|reflexivity]. exists o. split; [now left|].
      apply andb_true_iff in E. destruct E as [E E3].
      apply andb_true_iff in E. destruct E as [E1 E2].
      apply negb_true_iff, nz_false in E1. apply nz_true in E2.
      split; [exact E1|]. split; [exact E2|].
      destruct Hside as [-> | ->]; cbn in E3 |- *;
        rewrite ?orb_false_r in E3; now apply Z.eqb_eq in E3.
    + rewrite IH. split.
      * intros (x & Hx & H). exists x. split; [now right|exact H].
      * intros (x & [<-|Hx] & H); [|now exists x].
        exfalso. destruct H as (H1 & H2 & H3).
        apply nz_false in H1. apply nz_true in H2.
        rewrite H1, H2 in E. cbn [negb andb] in E.
        destruct Hside as [-> | ->]; cbn in E, H3;
          rewrite H3 in E; discriminate E.
Qed.

Lemma check_rays_spec s enemy_mask king_square n directions : forall d,
  (forall direction, In direction directions ->
     ray_leaves 8 direction king_square = true) ->
  (8 <= n)%nat ->
  exists b,
    check_rays n s enemy_mask king_square d directions = Some b
    /\ (b = true <->
        exists j direction t,
          nth_error directions j = Some direction
          /\ ray_meets s direction king_square t
          /\ Z.land t 0x88 = 0
          /\ Z.land (board_get s t) enemy_mask <> 0
          /\ slider (d + Z.of_nat j) (Z.land (board_get s t) 7)).
Proof.
  induction directions as [|direction rest IH]; intros d Hl Hn;
    cbn [check_rays].
  - exists false. split; [reflexivity|].
    split; [discriminate|]. intros ([|j] & x & t & E & _); discriminate E.
  - destruct (check_ray_returns s enemy_mask d direction 8 n king_square)
      as [b0 E0]; [apply Hl; now left|exact Hn|].
    rewrite E0. destruct b0.
    + exists true. split; [reflexivity|]. split; [intros _|reflexivity].
      destruct (check_ray_hit _ _ _ _ _ _ E0) as (t & H1 & H2 & H3 & H4).
      exists 0%nat, direction, t. rewrite Z.add_0_r. now repeat split.
    + destruct (IH (d + 1)) as (b & Eb & Hb);
        [intros x Hx; apply Hl; now right|exact Hn|].
      exists b. split; [exact Eb|]. rewrite Hb. split.
      * intros (j & x & t & Ej & H). exists (S j), x, t.
        split; [exact Ej|].
        replace (d + Z.of_nat (S j)) with (d + 1 + Z.of_nat j) by lia.
        exact H.
      * intros ([|j] & x & t & Ej & H1 & H2 & H3 & H4).
        -- cbn [nth_error] in Ej. inversion Ej; subst x.
           rewrite Z.add_0_r in H4.
           pose proof (check_ray_meets _ _ _ _ _ _ H1 H3 H4 _ _ E0).
           discriminate.
        -- exists j, x, t. split; [exact Ej|].
           replace (d + 1 + Z.of_nat j) with (d + Z.of_nat (S j)) by lia.
           now repeat split.
Qed.

Lemma king_scan_leaves s king_mask direction :
  In direction [1; -1; 16; -16; 15; -15; 17; -17] ->
  king_scan s king_mask [0; 1; 2; 3; 4; 5; 6; 7] MCUMAX_SQUARE_INVALID
  <> MCUMAX_SQUARE_INVALID ->
  ray_leaves 8 direction
    (king_scan s king_mask [0; 1; 2; 3; 4; 5; 6; 7] MCUMAX_SQUARE_INVALID)
  = true.
Proof.
  intros Hd Hk.
  destruct (king_scan_square s king_mask [0; 1; 2; 3; 4; 5; 6; 7]) as [E|H];
    [contradiction|].
  assert (forallb (fun k => forallb (fun direction =>
            ray_leaves 8 direction k) [1; -1; 16; -16; 15; -15; 17; -17])
            (flat_map (fun y => map (fun x => u8 (y * 16 + x))
                                  [0; 1; 2; 3; 4; 5; 6; 7])
                      [0; 1; 2; 3; 4; 5; 6; 7]) = true) as Hall
    by (vm_compute; reflexivity).
  rewrite forallb_forall in Hall. specialize (Hall _ H).
  rewrite forallb_forall in Hall. now apply Hall.
Qed.

(** X8.  [is_in_check] answers true exactly when the scan finds a king of
    [side] and that square is attacked: a rook or queen of the other colour
    is the first piece on one of the four straight rays, a bishop or queen
    on one of the four diagonal rays, or a knight, a pawn (on one of the two
    squares ahead, of the direction that moves towards the king) or the
    king of the other colour stands on the matching neighbour square. *)
Theorem is_in_check_attacked (fuel : nat) (s : mcumax.t) (side : Z) :
  side = MCUMAX_BOARD_WHITE \/ side = MCUMAX_BOARD_BLACK ->
  let king_square :=
    king_scan s side [0; 1; 2; 3; 4; 5; 6; 7] MCUMAX_SQUARE_INVALID in
  is_in_check (8 + fuel) s side = Some true <->
  king_square <> MCUMAX_SQUARE_INVALID /\ attacked s side king_square.
Proof.
  intros Hside. cbv zeta. unfold is_in_check, attacked.
  assert ((if side =? MCUMAX_BOARD_WHITE
           then MCUMAX_BOARD_WHITE else MCUMAX_BOARD_BLACK) = side) as ->
    by (destruct Hside as [-> | ->]; reflexivity).
  set (enemy_mask := if side =? MCUMAX_BOARD_WHITE
                     then MCUMAX_BOARD_BLACK else MCUMAX_BOARD_WHITE).
  set (k := king_scan s side _ _).
  destruct (Z.eqb_spec k MCUMAX_SQUARE_INVALID) as [Ek|Ek].
  { split; [discriminate|]. intros [H _]. contradiction. }
  destruct (check_rays_spec s enemy_mask k (8 + fuel)
              [1; -1; 16; -16; 15; -15; 17; -17] 0) as (rb & -> & Hrb);
    [intros direction Hd; now apply king_scan_leaves|lia|].
  pose proof (check_leaper_spec s enemy_mask MCUMAX_KNIGHT k
                [14; 18; 31; 33; -14; -18; -31; -33]) as Hkn.
  pose proof (check_pawns_spec s side enemy_mask k
                [(if side =? MCUMAX_BOARD_WHITE then -16 else 16) - 1;
                 (if side =? MCUMAX_BOARD_WHITE then -16 else 16) + 1]
                Hside) as Hpw.
  pose proof (check_leaper_spec s enemy_mask MCUMAX_KING k
                [1; -1; 16; -16; 15; -15; 17; -17]) as Hkg.
  assert ((rb = true) <->
          (exists direction kind t,
             In direction [1; -1; 16; -16]
             /\ In kind [MCUMAX_ROOK; MCUMAX_QUEEN]
             /\ ray_meets s direction k t /\ enemy_piece s enemy_mask kind t)
          \/ (exists direction kind t,
                In direction [15; -15; 17; -17]
                /\ In kind [MCUMAX_BISHOP; MCUMAX_QUEEN]
                /\ ray_meets s direction k t
                /\ enemy_piece s enemy_mask kind t)) as Hrays.
  { rewrite Hrb. clear. unfold slider, enemy_piece. split.
    - intros (j & direction & t & Ej & H1 & H2 & H3 & H4).
      assert (forall a b : Z, a = b \/ a = 7 -> In a [b; 7]) as Hin
        by (intros a b [-> | ->]; cbn; tauto).
      destruct j as [|[|[|[|[|[|[|[|j]]]]]]]];
        cbn [nth_error] in Ej;
        try (destruct j; discriminate Ej);
        injection Ej as Ed; cbn in H4;
        destruct H4 as [[Hd Hk]|[Hd Hk]]; try lia;
        first [ left; exists direction, (Z.land (board_get s t) 7), t;
                split; [rewrite <- Ed; cbn; tauto|];
                split; [apply Hin; exact Hk|]; now repeat split
              | right; exists direction, (Z.land (board_get s t) 7), t;
                split; [rewrite <- Ed; cbn; tauto|];
                split; [apply Hin; exact Hk|]; now repeat split ].
    - intros [(direction & kind & t & Hd & Hk & H1 & H2 & H3 & H4)
             |(direction & kind & t & Hd & Hk & H1 & H2 & H3 & H4)];
        cbn [In] in Hd, Hk;
        repeat destruct Hd as [<-|Hd]; try contradiction.
      + exists 0%nat, 1, t. repeat split; auto. left. cbn. split; [lia|].
        rewrite H4. clear -Hk. intuition congruence.
      + exists 1%nat, (-1), t. repeat split; auto. left. cbn. split; [lia|].
        rewrite H4. clear -Hk. intuition congruence.
      + exists 2%nat, 16, t. repeat split; auto. left. cbn. split; [lia|].
        rewrite H4. clear -Hk. intuition congruence.
      + exists 3%nat, (-16), t. repeat split; auto. left. cbn. split; [lia|].
        rewrite H4. clear -Hk. intuition congruence.
      + exists 4%nat, 15, t. repeat split; auto. right. cbn. split; [lia|].
        rewrite H4. clear -Hk. intuition congruence.
      + exists 5%nat, (-15), t. repeat split; auto. right. cbn. split; [lia|].
        rewrite H4. clear -Hk. intuition congruence.
      + exists 6%nat, 17, t. repeat split; auto. right. cbn. split; [lia|].
        rewrite H4. clear -Hk. intuition congruence.
      + exists 7%nat, (-17), t. repeat split; auto. right. cbn. split; [lia|].
        rewrite H4. clear -Hk. intuition congruence. }
  assert ((exists o,
             In o [(if side =? MCUMAX_BOARD_WHITE then -16 else 16) - 1;
                   (if side =? MCUMAX_BOARD_WHITE then -16 else 16) + 1]
             /\ enemy_piece s enemy_mask
                  (if side =? MCUMAX_BOARD_WHITE
                   then MCUMAX_PAWN_DOWNSTREAM else MCUMAX_PAWN_UPSTREAM)
                  (k + o))
          <-> (exists o,
                 In o [-1; 1]
                 /\ enemy_piece s enemy_mask
                      (if side =? MCUMAX_BOARD_WHITE
                       then MCUMAX_PAWN_DOWNSTREAM else MCUMAX_PAWN_UPSTREAM)
                      (k + ((if side =? MCUMAX_BOARD_WHITE then -16 else 16)
                            + o)))) as Hshift.
  { set (pd := if side =? MCUMAX_BOARD_WHITE then -16 else 16). split.
    - intros (o & [<-|[<-|[]]] & H).
      + exists (-1). split; [cbn; tauto|].
        now replace (pd + -1) with (pd - 1) by lia.
      + exists 1. split; [cbn; tauto|exact H].
    - intros (o & [<-|[<-|[]]] & H).
      + exists (pd - 1). split; [cbn; tauto|].
        now replace (pd - 1) with (pd + -1) by lia.
      + exists (pd + 1). split; [cbn; tauto|exact H]. }
  rewrite <- Hshift, <- Hpw, <- Hkn, <- Hkg. clear Hshift Hpw Hkn Hkg.
  split.
  - intros E. split; [exact Ek|].
    destruct rb.
    { destruct (proj1 Hrays eq_refl) as [H|H]; [left|right; left]; exact H. }
    destruct (check_leaper _ _ MCUMAX_KNIGHT _ _);
      [right; right; left; reflexivity|].
    destruct (check_pawns _ _ _ _ _);
      [right; right; right; left; reflexivity|].
    right; right; right; right. congruence.
  - intros [_ H].
    destruct rb; [reflexivity|].
    destruct (check_leaper _ _ MCUMAX_KNIGHT _ _); [reflexivity|].
    destruct (check_pawns _ _ _ _ _); [reflexivity|].
    destruct H as [H|[H|[H|[H|H]]]]; try discriminate H;
      try (now rewrite H).
    + assert (false = true) as Hf by (apply Hrays; now left).
      discriminate Hf.
    + assert (false = true) as Hf by (apply Hrays; now right).
      discriminate Hf.
Qed.

(** ** The king the probe looks at *)

Lemma find_append {A : Type} (f : A -> bool) (l1 l2 : list A) :
  find f (l1 ++ l2)
  = match find f l1 with
    | Some x => Some x
    | None => find f l2
    end.
Proof.
  induction l1 as [|a l1 IH]; cbn [app find]; [reflexivity|].
  now destruct (f a).
Qed.

Lemma find_first_sorted (f : Z -> bool) (l : list Z) (k : Z) :
  StronglySorted Z.lt l -> find f l = Some k ->
  forall x, In x l -> x < k -> f x = false.
Proof.
  induction l as [|a l IH]; intros Hs E x Hx Hlt; [contradiction|].
  inversion Hs as [|? ? Hs' Ha]; subst. cbn [find] in E.
  destruct (f a) eqn:Ea.
  - inversion E; subst. destruct Hx as [->|Hx]; [lia|].
    rewrite Forall_forall in Ha. apply list_elem_of_In in Hx.
    specialize (Ha x Hx). lia.
  - destruct Hx as [<-|Hx]; [exact Ea|]. now apply IH.
Qed.

Lemma find_none_existsb {A : Type} (f : A -> bool) (l : list A) :
  find f l = None -> existsb f l = false.
Proof.
  induction l as [|a l IH]; cbn [find existsb]; [reflexivity|].
  destruct (f a); [discriminate|]. exact IH.
Qed.

Lemma king_scan_row_find s mask y xs ks :
  king_scan_row s mask y xs ks
  = match find (fun sq => nz (Z.land (board_get s sq) mask)
                          && (Z.land (board_get s sq) 7 =? MCUMAX_KING))
                (map (fun x => u8 (y * 16 + x)) xs) with
    | Some k => k
    | None => ks
    end.
Proof.
  induction xs as [|x xs IH]; cbn [king_scan_row map find]; [reflexivity|].
  cbv zeta. now destruct (_ && _).
Qed.

Lemma king_scan_find s mask ys :
  Forall (fun sq => sq <> MCUMAX_SQUARE_INVALID)
    (flat_map (fun y => map (fun x => u8 (y * 16 + x))
                          [0; 1; 2; 3; 4; 5; 6; 7]) ys) ->
  king_scan s mask ys MCUMAX_SQUARE_INVALID
  = match find (fun sq => nz (Z.land (board_get s sq) mask)
                          && (Z.land (board_get s sq) 7 =? MCUMAX_KING))
                (flat_map (fun y => map (fun x => u8 (y * 16 + x))
                                      [0; 1; 2; 3; 4; 5; 6; 7]) ys) with
    | Some k => k
    | None => MCUMAX_SQUARE_INVALID
    end.
Proof.
  induction ys as [|y ys IH]; intros Hall; [reflexivity|].
  cbn [king_scan flat_map] in *. cbv zeta.
  apply Forall_app in Hall. destruct Hall as [Hrow Hrest].
  rewrite find_append, king_scan_row_find.
  destruct (find _ (map _ _)) as [k|] eqn:E.
  - apply find_some in E. destruct E as [Hin _].
    rewrite Forall_forall in Hrow. apply list_elem_of_In in Hin.
    specialize (Hrow k Hin). apply Z.eqb_neq in Hrow. now rewrite Hrow.
  - rewrite Z.eqb_refl. cbn [negb]. now apply IH.
Qed.

Lemma increasing_sorted l : increasing l = true -> StronglySorted Z.lt l.
Proof.
  intros H. apply Sorted_StronglySorted; [intros x y z; lia|].
  induction l as [|a l IH]; [constructor|].
  destruct l as [|b l]; [repeat constructor|].
  cbn [increasing] in H. apply andb_true_iff in H. destruct H as [Hab Hl].
  constructor; [now apply IH|]. constructor. now apply Z.ltb_lt.
Qed.

Lemma board_squares_sorted : StronglySorted Z.lt board_squares.
Proof. apply increasing_sorted. vm_compute. reflexivity. Qed.

Lemma scan_squares :
  flat_map (fun y => map (fun x => u8 (y * 16 + x)) [0; 1; 2; 3; 4; 5; 6; 7])
    [0; 1; 2; 3; 4; 5; 6; 7]
  = board_squares.
Proof. vm_compute. reflexivity. Qed.

Lemma squares_on_board sq : In sq board_squares -> on_board sq.
Proof.
  unfold board_squares. intros Hin. apply filter_In in Hin.
  destruct Hin as [Hr Hm]. apply in_map_iff in Hr.
  destruct Hr as (n & <- & Hn). apply in_seq in Hn.
  split; [lia|now apply Z.eqb_eq].
Qed.

Lemma board_squares_valid :
  Forall (fun sq => sq <> MCUMAX_SQUARE_INVALID) board_squares.
Proof.
  apply Forall_forall. intros sq Hsq. apply list_elem_of_In in Hsq.
  apply squares_on_board in Hsq. destruct Hsq as [Hr _].
  unfold MCUMAX_SQUARE_INVALID. lia.
Qed.

Lemma king_scan_board s side :
  king_scan s (if side =? MCUMAX_BOARD_WHITE
               then MCUMAX_BOARD_WHITE else MCUMAX_BOARD_BLACK)
    [0; 1; 2; 3; 4; 5; 6; 7] MCUMAX_SQUARE_INVALID
  = match find (fun sq => king_of side (board_get s sq)) board_squares with
    | Some k => k
    | None => MCUMAX_SQUARE_INVALID
    end.
Proof.
  rewrite king_scan_find.
  - rewrite scan_squares. generalize board_squares. intros l. reflexivity.
  - rewrite scan_squares. exact board_squares_valid.
Qed.

(** X9.  The king [is_in_check] looks at is the first one in reading order
    (rank 0 first, files left to right): the scan ends either on the
    sentinel 0x80, and then no square holds a king of [side], or on a square
    that holds one, no lower square holding another. *)
Theorem king_scan_first (s : mcumax.t) (side : Z) :
  let king_square :=
    king_scan s (if side =? MCUMAX_BOARD_WHITE
                 then MCUMAX_BOARD_WHITE else MCUMAX_BOARD_BLACK)
      [0; 1; 2; 3; 4; 5; 6; 7] MCUMAX_SQUARE_INVALID in
  (king_square = MCUMAX_SQUARE_INVALID /\ has_king s side = false)
  \/ (on_board king_square
      /\ king_of side (board_get s king_square) = true
      /\ forall sq, on_board sq -> sq < king_square ->
           king_of side (board_get s sq) = false).
Proof.
  cbv zeta. rewrite king_scan_board.
  destruct (find _ board_squares) as [k|] eqn:E.
  - right. pose proof (find_some _ _ E) as [Hin Hk].
    split; [now apply squares_on_board|split; [exact Hk|]].
    intros sq Hsq Hlt.
    apply (find_first_sorted _ _ _ board_squares_sorted E);
      [now apply on_board_squares|exact Hlt].
  - left. split; [reflexivity|]. now apply find_none_existsb.
Qed.

Lemma try_moves_restores fuel side backup count : forall i s b s',
  try_moves fuel side backup count i s = Answer b s' ->
  position_restored backup s'.
Proof.
  induction count as [|n IH]; intros i s b s'; cbn [try_moves].
  - intros E. inversion E. split; reflexivity.
  - destruct (mcumax.valid_moves_buffer s !! Z.to_nat i) as [move|];
      [|discriminate].
    destruct (mcumax_play_move fuel move s) as [[[|] s1]|]; [| |discriminate].
    + destruct (is_in_check fuel s1 side) as [[|]|]; [| |discriminate].
      * cbn [negb]. apply IH.
      * cbn [negb]. intros E. inversion E. split; reflexivity.
    + apply IH.
Qed.

(** X10.  [is_checkmate] and [is_stalemate] are probes: whatever they
    answer, the board (all 0x81 cells), the side to move, the en-passant
    slot, the score and the material counter are at return what they were at
    entry. *)
Theorem mate_probes_restore (fuel : nat) (valid_moves : list mcumax_move)
    (side : Z) (s : mcumax.t) (b : bool) (s' : mcumax.t) :
  is_checkmate fuel valid_moves side s = Answer b s'
  \/ is_stalemate fuel valid_moves side s = Answer b s' ->
  mcumax.board s' = mcumax.board s
  /\ mcumax.current_side s' = mcumax.current_side s
  /\ mcumax.en_passant_square s' = mcumax.en_passant_square s
  /\ mcumax.score s' = mcumax.score s
  /\ mcumax.non_pawn_material s' = mcumax.non_pawn_material s.
Proof.
  unfold is_checkmate, is_stalemate.
  destruct (is_in_check fuel s side) as [[|]|];
    intros [E|E]; try discriminate E;
    try (inversion E; subst; now auto);
    (destruct (mcumax_search_valid_moves _ _ _ _) as [[n s2]|];
       [|discriminate E]);
    apply try_moves_restores in E; destruct E; auto.
Qed.

(** X11.  A position [is_checkmate] calls mate for [side] has the king of
    [side] in check and is never a stalemate for [is_stalemate]. *)
Theorem checkmate_excludes_stalemate (fuel : nat)
    (valid_moves valid_moves' : list mcumax_move) (side : Z) (s : mcumax.t)
    (s1 : mcumax.t) (b : bool) (s2 : mcumax.t) :
  is_checkmate fuel valid_moves side s = Answer true s1 ->
  is_stalemate fuel valid_moves' side s = Answer b s2 ->
  is_in_check fuel s side = Some true /\ b = false.
Proof.
  unfold is_checkmate, is_stalemate.
  destruct (is_in_check fuel s side) as [[|]|]; try discriminate.
  intros _ E. inversion E. auto.
Qed.

(** ** The local array of the probes *)

Lemma buffer_kept_slots cap buf s sf st nm nc dm stop :
  buffer_kept cap buf s ->
  buffer_kept cap buf
    (mcumax.set_stop_search stop
       (mcumax.set_depth_max dm
          (mcumax.set_node_count nc
             (mcumax.set_node_max nm
                (mcumax.set_square_to st (mcumax.set_square_from sf s)))))).
Proof. intros []. split; assumption. Qed.

Lemma play_move_buffer_kept cap buf fuel move s played s' :
  buffer_kept cap buf s ->
  mcumax_play_move fuel move s = Some (played, s') ->
  buffer_kept cap buf s'.
Proof.
  intros H E. unfold mcumax_play_move, mcumax_start_search in E.
  destruct (mcumax_search _ _ _ _ _ _ _ _) as [[r s1]|] eqn:Es;
    [|discriminate].
  inversion E; subst.
  eapply search_buffer_kept; [|exact Es]. now apply buffer_kept_slots.
Qed.

Lemma restore_temp_buffer_kept cap buf temp side s :
  buffer_kept cap buf s -> buffer_kept cap buf (restore_temp temp side s).
Proof. intros []. split; assumption. Qed.

Lemma try_moves_overrun fuel side backup buf count : forall i s,
  0 <= i -> length buf = 256%nat -> buffer_kept 256 buf s ->
  try_moves fuel side backup count i s = Overrun ->
  256 < i + Z.of_nat count.
Proof.
  induction count as [|n IH]; intros i s Hi Hl Hk; cbn [try_moves];
    [discriminate|].
  destruct (mcumax.valid_moves_buffer s !! Z.to_nat i) as [move|] eqn:El.
  - apply lookup_lt_Some in El. rewrite (bk_length _ _ _ Hk), Hl in El.
    assert (u32 (i + 1) = i + 1) as Eu
      by (unfold u32; apply Z.mod_small; lia).
    destruct (mcumax_play_move fuel move s) as [[[|] s1]|] eqn:Ep;
      [| |discriminate].
    + apply (play_move_buffer_kept _ _ _ _ _ _ _ Hk) in Ep.
      destruct (is_in_check fuel s1 side) as [[|]|]; [| |discriminate];
        cbn [negb]; [|discriminate].
      intros E. apply IH in E;
        [lia|lia|exact Hl|now apply restore_temp_buffer_kept].
    + apply (play_move_buffer_kept _ _ _ _ _ _ _ Hk) in Ep.
      intros E. apply IH in E;
        [lia|lia|exact Hl|now apply restore_temp_buffer_kept].
  - intros _. apply lookup_ge_None in El.
    rewrite (bk_length _ _ _ Hk), Hl in El. lia.
Qed.

Lemma search_valid_moves_buffer_kept fuel buf cap s n s' :
  mcumax_search_valid_moves fuel buf cap s = Some (n, s') ->
  buffer_kept cap buf s' /\ 0 <= n.
Proof.
  intros E. unfold mcumax_search_valid_moves, mcumax_start_search in E.
  destruct (mcumax_search _ _ _ _ _ _ _ _) as [[r s1]|] eqn:Es;
    [|discriminate].
  inversion E; subst.
  assert (buffer_kept cap buf s') as H.
  { eapply search_buffer_kept; [|exact Es]. split; cbn; auto; lia. }
  split; [exact H|exact (bk_num _ _ _ H)].
Qed.

(** X12.  [is_checkmate] and [is_stalemate] index their local array of 256
    moves with every [i] below the count [mcumax_search_valid_moves]
    returns: when that count is at most 256, neither reads past the
    array. *)
Theorem mate_probes_stay_in_array (fuel : nat)
    (valid_moves : list mcumax_move) (side : Z) (s : mcumax.t) (n : Z)
    (s' : mcumax.t) :
  length valid_moves = 256%nat ->
  mcumax_search_valid_moves fuel valid_moves 256
    (mcumax.set_current_side side s) = Some (n, s') ->
  n <= 256 ->
  is_checkmate fuel valid_moves side s <> Overrun
  /\ is_stalemate fuel valid_moves side s <> Overrun.
Proof.
  intros Hl Es Hn.
  destruct (search_valid_moves_buffer_kept _ _ _ _ _ _ Es) as [Hk Hn0].
  unfold is_checkmate, is_stalemate. rewrite Es.
  assert (try_moves fuel side s (Z.to_nat n) 0 s' <> Overrun) as H.
  { intros E. apply (try_moves_overrun _ _ _ valid_moves) in E;
      try assumption; lia. }
  destruct (is_in_check fuel s side) as [[|]|]; split;
    first [exact H | discriminate].
Qed.

(** ** A stop request *)

Lemma search_stopped fuel alpha beta score ep depth mode s cb :
  mcumax.user_callback s = Some cb -> cb (mcumax.user_data s) = true ->
  0 < depth ->
  mcumax_search (S (S fuel)) alpha beta score ep depth mode s
  = Some (b2z (0 <? score), mcumax.set_stop_search true s).
Proof.
  intros Hcb Hstop Hd. cbn [mcumax_search iter_loop].
  unfold call_user_callback. rewrite Hcb, Hstop.
  unfold iter_cond. cbn [iter_depth set_iter_depth].
  destruct (Z.ltb_spec 0 depth); [|lia].
  cbn [negb mcumax.stop_search mcumax.set_stop_search].
  unfold final_score. cbn [iter_score set_iter_depth].
  reflexivity.
Qed.

(** X13.  A callback that asks for the stop at the first node ends every
    operation at once: [mcumax_search_best_move] returns
    [MCUMAX_MOVE_INVALID], [mcumax_play_move] refuses the move, whatever it
    is, both with the board and the side to move untouched, and
    [mcumax_search_valid_moves] counts 0 moves. *)
Theorem stop_request_ends_search (fuel : nat) (s : mcumax.t)
    (cb : Z -> bool) :
  mcumax.user_callback s = Some cb -> cb (mcumax.user_data s) = true ->
  (forall node_max depth_max,
     exists s',
       mcumax_search_best_move (S (S fuel)) node_max depth_max s
       = Some (MCUMAX_MOVE_INVALID, s')
       /\ mcumax.board s' = mcumax.board s
       /\ mcumax.current_side s' = mcumax.current_side s)
  /\ (forall move,
        exists s',
          mcumax_play_move (S (S fuel)) move s = Some (false, s')
          /\ mcumax.board s' = mcumax.board s
          /\ mcumax.current_side s' = mcumax.current_side s)
  /\ (forall buf cap,
        exists s',
          mcumax_search_valid_moves (S (S fuel)) buf cap s = Some (0, s')
          /\ mcumax.valid_moves_buffer s' = buf).
Proof.
  intros Hcb Hstop. split; [|split].
  - intros node_max depth_max.
    unfold mcumax_search_best_move, mcumax_start_search.
    erewrite search_stopped; [|exact Hcb|exact Hstop|lia].
    engine_fields.
    assert ((b2z (0 <? mcumax.score s) =? MCUMAX_SCORE_MAX) = false) as ->
      by (unfold b2z; now destruct (0 <? _)).
    eexists. split; [reflexivity|]. split; reflexivity.
  - intros move. unfold mcumax_play_move, mcumax_start_search.
    erewrite search_stopped; [|exact Hcb|exact Hstop|lia].
    engine_fields.
    assert ((b2z (0 <? mcumax.score s) =? MCUMAX_SCORE_MAX) = false) as ->
      by (unfold b2z; now destruct (0 <? _)).
    eexists. split; [reflexivity|]. split; reflexivity.
  - intros buf cap. unfold mcumax_search_valid_moves, mcumax_start_search.
    erewrite search_stopped; [|exact Hcb|exact Hstop|lia].
    eexists. split; reflexivity.
Qed.

(** ** The moves the enumeration stores *)

Lemma next_square_on_board sf :
  on_board (u8 (Z.land (sf + 9) (Z.lnot MCUMAX_BOARD_MASK))).
Proof.
  apply byte_on_board; [apply u8_range|].
  unfold u8. change 256 with (2 ^ 8). rewrite <- Z.land_ones by lia.
  rewrite <- !Z.land_assoc.
  change (Z.land (Z.lnot MCUMAX_BOARD_MASK)
            (Z.land (Z.ones 8) MCUMAX_BOARD_MASK)) with 0.
  apply Z.land_0_r.
Qed.

Section Listed.
Variable Q : mcumax.t -> Prop.
Hypothesis Q_board_put : forall i v s, Q s -> Q (board_put i v s).
Hypothesis Q_change_side : forall s, Q s -> Q (change_side s).
Hypothesis Q_square_from : forall v s, Q s -> Q (mcumax.set_square_from v s).
Hypothesis Q_square_to : forall v s, Q s -> Q (mcumax.set_square_to v s).
Hypothesis Q_node_count : forall v s, Q s -> Q (mcumax.set_node_count v s).
Hypothesis Q_stop : forall s, Q s -> Q (mcumax.set_stop_search true s).
Hypothesis Q_record : forall f t s,
  on_board f -> on_board t -> Q s -> Q (record_move f t s).
Hypothesis Q_commit : forall score cpv skip s,
  Q s -> Q (commit_move score cpv skip s).

Section ListedBody.
Variable rec : search_fn.
Variables (alpha beta score en_passant_square : Z) (mode : mcumax_mode).
Hypothesis rec_listed : forall a b sc ep d s r s',
  Q s -> rec a b sc ep d MCUMAX_INTERNAL_NODE s = Some (r, s') -> Q s'.

Lemma ray_step_listed n nms sf sp spt sv svi st skip rook v s s' :
  Q s -> (mode = MCUMAX_SEARCH_VALID_MOVES -> on_board sf) ->
  step_state (ray_step rec alpha beta score en_passant_square mode
                n nms sf sp spt sv svi st skip rook v s) = Some s' ->
  Q s'.
Proof.
  intros H Hsf. unfold ray_step.
  destruct (ray_probe _ _ _ _ _ _ _) as [v1|v1|cs cp cpv v1] eqn:Ep;
    cbn [step_state];
    try (intros E; inversion E; subst; exact H).
  assert (on_board (ray_target sv st v)) as Ht.
  { apply byte_on_board; [apply ray_target_byte|].
    eapply ray_probe_move; exact Ep. }
  destruct (_ >? 1).
  2:{ rewrite ray_post_state. intros E; inversion E; subst; exact H. }
  pose proof (make_move_preserves Q Q_board_put score s sf
                (ray_target sv st v) sp spt sv cs cpv skip rook H) as H1.
  destruct (make_move _ _ _ _ _ _ _ _ _ _ _) as [[s1 ss] cpv1].
  cbn [fst] in H1.
  destruct (futility _ _ _ _ _ _ _ _ _ _ _) as [[r s2]|] eqn:Ef;
    [|discriminate].
  apply (futility_preserves Q Q_change_side rec alpha beta mode rec_listed)
    in Ef; [|exact H1].
  destruct (mode_eqb mode MCUMAX_PLAY_MOVE && _ && _); cbn [step_state].
  { intros E; inversion E; subst. now apply Q_commit. }
  pose proof (undo_move_preserves Q Q_board_put sf (ray_target sv st v) sp
                cs cp skip rook s2 Ef) as H3.
  destruct (mode_eqb mode MCUMAX_SEARCH_BEST_MOVE && _ && _);
    cbn [step_state].
  { intros E; inversion E; subst. exact H3. }
  rewrite ray_post_state. intros E; inversion E; subst.
  destruct (mode_eqb mode MCUMAX_SEARCH_VALID_MOVES) eqn:Em;
    cbn [andb]; [|exact H3].
  destruct (_ && _); [|exact H3].
  apply Q_record; [|exact Ht|exact H3].
  apply Hsf. now apply mode_eqb_eq.
Qed.

Lemma ray_loop_listed n : forall nms sf sp spt sv svi st skip rook v s s',
  Q s -> (mode = MCUMAX_SEARCH_VALID_MOVES -> on_board sf) ->
  outcome_state (ray_loop rec alpha beta score en_passant_square mode
                   n nms sf sp spt sv svi st skip rook v s) = Some s' ->
  Q s'.
Proof.
  induction n as [|n IH];
    intros nms sf sp spt sv svi st skip rook v s s' H Hsf;
    [discriminate|].
  cbn [ray_loop].
  pose proof (ray_step_listed n nms sf sp spt sv svi st skip rook v s) as Hs.
  destruct (ray_step _ _ _ _ _ _ _ _ _ _ _ _ _ _ _ _ _)
    as [v1 s1|v1 s1|r s1|v1 s1|st1 skip1 rook1 cp1 v1 s1|];
    cbn [step_state outcome_state] in *;
    try (intros E; inversion E; subst; now apply Hs);
    try discriminate.
  - apply IH; [now apply Hs|exact Hsf].
  - destruct (nz cp1); cbn [outcome_state].
    + intros E; inversion E; subst; now apply Hs.
    + apply IH; [now apply Hs|exact Hsf].
Qed.

Lemma dir_loop_listed n : forall nms sf sp spt sv svi v s s',
  Q s -> (mode = MCUMAX_SEARCH_VALID_MOVES -> on_board sf) ->
  outcome_state (dir_loop rec alpha beta score en_passant_square mode
                   n nms sf sp spt sv svi v s) = Some s' ->
  Q s'.
Proof.
  induction n as [|n IH]; intros nms sf sp spt sv svi v s s' H Hsf;
    [discriminate|].
  cbn [dir_loop].
  destruct (if (spt >? 2) && (sv <? 0) then _ else _) as [sv1 svi1].
  destruct (nz sv1); cbn [outcome_state];
    [|intros E; inversion E; subst; exact H].
  pose proof (ray_loop_listed n nms sf sp spt sv1 svi1 sf
                MCUMAX_SQUARE_INVALID MCUMAX_SQUARE_INVALID v s) as Hr.
  destruct (ray_loop _ _ _ _ _ _ _ _ _ _ _ _ _ _ _ _ _)
    as [v1 s1|v1 s1|r s1|]; cbn [outcome_state] in *;
    try (intros E; inversion E; subst; now apply Hr);
    try discriminate.
  apply IH; [now apply Hr|exact Hsf].
Qed.

Lemma scan_loop_listed n : forall nms ss sf v s s',
  Q s -> (mode = MCUMAX_SEARCH_VALID_MOVES -> on_board sf) ->
  outcome_state (scan_loop rec alpha beta score en_passant_square mode
                   n nms ss sf v s) = Some s' ->
  Q s'.
Proof.
  induction n as [|n IH]; intros nms ss sf v s s' H Hsf; [discriminate|].
  cbn [scan_loop].
  destruct (nz (Z.land _ _)).
  - pose proof (dir_loop_listed n nms sf (board_get s sf)
                  (Z.land (board_get s sf) 7)
                  (s8 (Z.land (board_get s sf) 7))
                  (table mcumax_step_vectors_indices
                     (Z.land (board_get s sf) 7)) v s) as Hd.
    destruct (dir_loop _ _ _ _ _ _ _ _ _ _ _ _ _ _)
      as [v1 s1|v1 s1|r s1|]; cbn [outcome_state] in *;
      try (intros E; inversion E; subst; now apply Hd);
      try discriminate.
    destruct (negb _); cbn [outcome_state].
    + apply IH; [now apply Hd|]. intros _. apply next_square_on_board.
    + intros E; inversion E; subst; now apply Hd.
  - destruct (negb _); cbn [outcome_state].
    + apply IH; [exact H|]. intros _. apply next_square_on_board.
    + intros E; inversion E; subst; exact H.
Qed.

Lemma iter_loop_listed n : forall depth v s r s',
  Q s ->
  iter_loop rec alpha beta score en_passant_square mode n depth v s
  = Some (r, s') ->
  Q s'.
Proof.
  induction n as [|n IH]; intros depth v s r s' H; [discriminate|].
  cbn [iter_loop].
  pose proof (iter_cond_preserves Q Q_square_from Q_square_to mode depth v s
                H) as Hc.
  destruct (iter_cond mode depth v s) as [[go v1] s1]. cbn [snd] in Hc.
  destruct go; cbn [negb]; [|intros E; inversion E; subst; exact Hc].
  destruct (mcumax.stop_search s1);
    [intros E; inversion E; subst; exact Hc|].
  destruct (null_move _ _ _ _ _) as [[nms s2]|] eqn:En; [|discriminate].
  apply (null_move_preserves Q Q_change_side rec beta score rec_listed)
    in En; [|exact Hc].
  assert (mode = MCUMAX_SEARCH_VALID_MOVES ->
          on_board (if negb (mode_eqb mode MCUMAX_SEARCH_VALID_MOVES)
                    then iter_square_from v1 else 0)) as Hstart.
  { intros ->. cbn. split; [lia|reflexivity]. }
  match goal with
  | |- context [scan_loop ?a ?b ?c ?d ?e ?f ?g ?h ?i ?j ?k ?l] =>
    pose proof (scan_loop_listed g h i j k l) as Hs;
    destruct (scan_loop a b c d e f g h i j k l) as [v3 s3|v3 s3|r3 s3|]
  end; cbn [outcome_state] in Hs; try discriminate.
  - apply IH. apply Hs; auto.
  - apply IH. apply Hs; auto.
  - intros E; inversion E; subst. apply Hs; auto.
Qed.
End ListedBody.

Lemma search_listed fuel : forall alpha beta score ep depth mode s r s',
  Q s ->
  mcumax_search fuel alpha beta score ep depth mode s = Some (r, s') ->
  Q s'.
Proof.
  induction fuel as [|n IH]; intros alpha beta score ep depth mode s r s' H;
    [discriminate|].
  cbn [mcumax_search]. intros E.
  eapply iter_loop_listed; [| |exact E].
  - intros a b sc e d s0 r0 s0' H0 E0. eapply IH; [exact H0|exact E0].
  - now apply call_user_callback_preserves.
Qed.
End Listed.

Lemma listed_record f t s :
  on_board f -> on_board t -> listed s -> listed (record_move f t s).
Proof.
  intros Hf Ht [Hn Hm]. unfold record_move.
  assert (0 <= u32 (mcumax.valid_moves_num s + 1)
          <= mcumax.valid_moves_num s + 1) as Hu.
  { unfold u32. split; [apply Z.mod_pos_bound; lia|].
    apply Z.mod_le; lia. }
  destruct (Z.ltb_spec (mcumax.valid_moves_num s)
              (mcumax.valid_moves_buffer_size s)) as [Hlt|Hge];
    split; engine_fields; try lia.
  - intros i move Hi Hc El.
    destruct (Nat.eq_dec (Z.to_nat (mcumax.valid_moves_num s)) i) as [E|E].
    + subst i. apply list_lookup_insert_Some in El.
      destruct El as [(_ & <- & _)|[Hne _]]; [|contradiction].
      cbn [from to]. now split.
    + rewrite list_lookup_insert_ne in El by exact E.
      apply (Hm i move); [lia|exact Hc|exact El].
  - intros i move Hi Hc El. apply (Hm i move); [lia|exact Hc|exact El].
Qed.

(** X14.  Every move [mcumax_search_valid_moves] stores in the caller's
    buffer (the entries below both the returned count and the capacity)
    joins two of the 64 squares. *)
Theorem valid_moves_on_board (fuel : nat) (buf : list mcumax_move)
    (cap : Z) (s : mcumax.t) (n : Z) (s' : mcumax.t) :
  mcumax_search_valid_moves fuel buf cap s = Some (n, s') ->
  forall (i : nat) (move : mcumax_move),
    Z.of_nat i < n -> Z.of_nat i < cap ->
    mcumax.valid_moves_buffer s' !! i = Some move ->
    on_board (from move) /\ on_board (to move).
Proof.
  intros E. unfold mcumax_search_valid_moves, mcumax_start_search in E.
  destruct (mcumax_search _ _ _ _ _ _ _ _) as [[r s1]|] eqn:Es;
    [|discriminate].
  inversion E; subst. clear E.
  assert (listed s') as [Hn Hm].
  { eapply (search_listed listed); try exact Es;
      try (intros; match goal with
                   | H : listed _ |- _ => destruct H; split; assumption
                   end).
    - intros; now apply listed_record.
    - split; engine_fields; [lia|]. intros i move Hi. lia. }
  assert (mcumax.valid_moves_buffer_size s' = cap) as Hc.
  { assert (buffer_kept cap buf s') as Hk.
    { eapply search_buffer_kept; [|exact Es]. split; cbn; auto; lia. }
    exact (bk_size _ _ _ Hk). }
  intros i move Hi Hcap. apply Hm; [exact Hi|now rewrite Hc].
Qed.

Lemma start_search_well_formed fuel mode move depth_max node_max s r s' :
  well_formed s ->
  mcumax_start_search fuel mode move depth_max node_max s = Some (r, s') ->
  well_formed s'.
Proof.
  intros Hwf E. unfold mcumax_start_search in E.
  eapply search_well_formed; [|exact E]. destruct Hwf; split; assumption.
Qed.

(** X15.  [mcumax_search_valid_moves] and [mcumax_search_best_move] leave
    the position as they found it: the cells 0..0x7F, the side to move, the
    en-passant slot, the score and the material counter. *)
Theorem searches_restore_position (fuel : nat) (s : mcumax.t) :
  well_formed s ->
  (forall buf cap n s',
     mcumax_search_valid_moves fuel buf cap s = Some (n, s') ->
     take 128 (mcumax.board s') = take 128 (mcumax.board s)
     /\ mcumax.current_side s' = mcumax.current_side s
     /\ mcumax.en_passant_square s' = mcumax.en_passant_square s
     /\ mcumax.score s' = mcumax.score s
     /\ mcumax.non_pawn_material s' = mcumax.non_pawn_material s)
  /\ (forall node_max depth_max move s',
        mcumax_search_best_move fuel node_max depth_max s = Some (move, s') ->
        take 128 (mcumax.board s') = take 128 (mcumax.board s)
        /\ mcumax.current_side s' = mcumax.current_side s
        /\ mcumax.en_passant_square s' = mcumax.en_passant_square s
        /\ mcumax.score s' = mcumax.score s
        /\ mcumax.non_pawn_material s' = mcumax.non_pawn_material s).
Proof.
  intros Hwf. split.
  - intros buf cap n s' E.
    pose proof (search_valid_moves_same_position _ _ _ _ _ _ Hwf E) as Hp.
    assert (well_formed s') as Hwf'.
    { unfold mcumax_search_valid_moves in E.
      destruct (mcumax_start_search _ _ _ _ _ _) as [[r s1]|] eqn:Es;
        [|discriminate].
      inversion E; subst.
      eapply start_search_well_formed; [|exact Es].
      destruct Hwf; split; assumption. }
    split; [now apply same_position_take|].
    destruct Hp as [_ H1 H2 H3 H4]. auto.
  - intros node_max depth_max move s' E.
    pose proof (search_best_move_same_position _ _ _ _ _ _ Hwf E) as Hp.
    assert (well_formed s') as Hwf'.
    { unfold mcumax_search_best_move in E.
      destruct (mcumax_start_search _ _ _ _ _ _) as [[r s1]|] eqn:Es;
        [|discriminate].
      assert (s1 = s') as -> by (destruct (r =? _); now inversion E).
      eapply start_search_well_formed; [|exact Es]. exact Hwf. }
    split; [now apply same_position_take|].
    destruct Hp as [_ H1 H2 H3 H4]. auto.
Qed.

(** X16.  A move [mcumax_play_move] refuses changes nothing: when it
    returns false on an engine whose score is below 8000, the cells
    0..0x7F, the side to move, the en-passant slot, the score and the
    material counter are what they were. *)
Theorem play_move_refused_keeps_position (fuel : nat) (move : mcumax_move)
    (s s' : mcumax.t) :
  well_formed s -> mcumax.score s < MCUMAX_SCORE_MAX ->
  mcumax_play_move fuel move s = Some (false, s') ->
  take 128 (mcumax.board s') = take 128 (mcumax.board s)
  /\ mcumax.current_side s' = mcumax.current_side s
  /\ mcumax.en_passant_square s' = mcumax.en_passant_square s
  /\ mcumax.score s' = mcumax.score s
  /\ mcumax.non_pawn_material s' = mcumax.non_pawn_material s.
Proof.
  intros Hwf Hs E.
  pose proof (play_move_refused _ _ _ _ Hwf Hs E) as Hp.
  assert (well_formed s') as Hwf'.
  { unfold mcumax_play_move in E.
    destruct (mcumax_start_search _ _ _ _ _ _) as [[r s1]|] eqn:Es;
      [|discriminate].
    inversion E; subst.
    eapply start_search_well_formed; [|exact Es]. exact Hwf. }
  split; [now apply same_position_take|].
  destruct Hp as [_ H1 H2 H3 H4]. auto.
Qed.

(** X17.  The operations keep the engine well formed (a board of 0x81 byte
    cells, White or Black to move): [mcumax_init], [mcumax_play_move]
    whether it plays the move or not, and the two searches. *)
Theorem operations_keep_well_formed (fuel : nat) (s : mcumax.t) :
  well_formed s ->
  well_formed (mcumax_init s)
  /\ (forall move played s',
        mcumax_play_move fuel move s = Some (played, s') -> well_formed s')
  /\ (forall buf cap n s',
        mcumax_search_valid_moves fuel buf cap s = Some (n, s') ->
        well_formed s')
  /\ (forall node_max depth_max move s',
        mcumax_search_best_move fuel node_max depth_max s = Some (move, s') ->
        well_formed s').
Proof.
  intros Hwf. split; [|split; [|split]].
  - destruct Hwf as [Hl Hb _].
    split; [now rewrite init_length| |now left].
    unfold mcumax_init.
    cbn [mcumax.board mcumax.set_non_pawn_material
         mcumax.set_en_passant_square mcumax.set_score
         mcumax.set_current_side].
    assert (forall i v x, Forall (fun c => 0 <= c < 256) (mcumax.board x) ->
              Forall (fun c => 0 <= c < 256) (mcumax.board (board_put i v x)))
      as Hput.
    { intros i v x Hx. unfold board_put. cbn [mcumax.board mcumax.set_board].
      apply Forall_insert; [exact Hx|apply u8_range]. }
    apply (for_range_keeps
             (fun x => Forall (fun c => 0 <= c < 256) (mcumax.board x)));
      [|exact Hb].
    intros x s0 H0.
    apply (for_range_keeps
             (fun x => Forall (fun c => 0 <= c < 256) (mcumax.board x))).
    { intros; now apply Hput. }
    do 2 apply Hput.
    apply (for_range_keeps
             (fun x => Forall (fun c => 0 <= c < 256) (mcumax.board x))).
    { intros; now apply Hput. }
    now do 2 apply Hput.
  - intros move played s' E. unfold mcumax_play_move in E.
    destruct (mcumax_start_search _ _ _ _ _ _) as [[r s1]|] eqn:Es;
      [|discriminate].
    inversion E; subst. eapply start_search_well_formed; [|exact Es].
    exact Hwf.
  - intros buf cap n s' E. unfold mcumax_search_valid_moves in E.
    destruct (mcumax_start_search _ _ _ _ _ _) as [[r s1]|] eqn:Es;
      [|discriminate].
    inversion E; subst. eapply start_search_well_formed; [|exact Es].
    destruct Hwf; split; assumption.
  - intros node_max depth_max move s' E. unfold mcumax_search_best_move in E.
    destruct (mcumax_start_search _ _ _ _ _ _) as [[r s1]|] eqn:Es;
      [|discriminate].
    assert (s1 = s') as -> by (destruct (r =? _); now inversion E).
    eapply start_search_well_formed; [|exact Es]. exact Hwf.
Qed.

Lemma board_symbol_letter s y x :
  0 <= y < 8 -> 0 <= x < 8 ->
  board_symbol s y x
  = Some (if Z.land (board_get s (16 * y + x)) 7 =? 0 then "."%char
          else piece_char (board_get s (16 * y + x))).
Proof.
  intros Hy Hx. unfold board_symbol, mcumax_get_piece.
  rewrite u8_small by lia.
  destruct (square_on_board y x Hy Hx) as [_ Hm]. rewrite Hm.
  change (nz 0) with false. cbv iota.
  unfold piece_char. cbv zeta.
  unfold MCUMAX_BOARD_WHITE, MCUMAX_PAWN_UPSTREAM, MCUMAX_PAWN_DOWNSTREAM,
    MCUMAX_KNIGHT, MCUMAX_KING, MCUMAX_BISHOP, MCUMAX_ROOK, MCUMAX_QUEEN,
    MCUMAX_BLACK.
  destruct (nibble_split (board_get s (16 * y + x))) as [E7 E8].
  rewrite E7, E8.
  pose proof (nibble_cases (board_get s (16 * y + x))) as Hn.
  revert Hn. generalize (Z.land (board_get s (16 * y + x)) 15).
  intros m Hm'. cbn [In] in Hm'.
  repeat destruct Hm' as [<-|Hm']; try contradiction; reflexivity.
Qed.

Lemma print_row_returns s y :
  0 <= y < 8 -> exists row, print_row s y [0; 1; 2; 3; 4; 5; 6; 7] = Some row.
Proof.
  intros Hy. cbn [print_row].
  rewrite !board_symbol_letter by lia. eexists. reflexivity.
Qed.

(** X18.  [print_board] of [tests/test_play.c] never reads past its string
    of 16 symbols, and shows each of the 64 cells as [mcumax_get_fen] writes
    it: a dot for a cell without a piece kind, else the same letter. *)
Theorem print_board_symbols (s : mcumax.t) :
  (forall y x, 0 <= y < 8 -> 0 <= x < 8 ->
     board_symbol s y x
     = Some (if Z.land (board_get s (16 * y + x)) 7 =? 0 then "."%char
             else piece_char (board_get s (16 * y + x))))
  /\ exists text, print_board s = Some text.
Proof.
  split; [intros y x; apply board_symbol_letter|].
  unfold print_board. cbn [print_rows].
  destruct (print_row_returns s 0) as [r0 ->]; [lia|].
  destruct (print_row_returns s 1) as [r1 ->]; [lia|].
  destruct (print_row_returns s 2) as [r2 ->]; [lia|].
  destruct (print_row_returns s 3) as [r3 ->]; [lia|].
  destruct (print_row_returns s 4) as [r4 ->]; [lia|].
  destruct (print_row_returns s 5) as [r5 ->]; [lia|].
  destruct (print_row_returns s 6) as [r6 ->]; [lia|].
  destruct (print_row_returns s 7) as [r7 ->]; [lia|].
  eexists. reflexivity.
Qed.

Lemma init_resets_position_witness :
  length (mcumax.board fools_mate) = 129%nat
  /\ take 128 (mcumax.board (mcumax_init fools_mate))
     = take 128 (mcumax.board start_position).
Proof.
  split; [reflexivity|].
  exact (proj1 (init_resets_position fools_mate eq_refl)).
Defined.

Lemma set_fen_position_forgets_witness :
  take 128 (mcumax.board
              (mcumax_set_fen_position "4k3/8/8/8/8/8/8/4K2R w K - 0 1"
                 fools_mate))
  = take 128 (mcumax.board
                (mcumax_set_fen_position "4k3/8/8/8/8/8/8/4K2R w K - 0 1"
                   mcumax_zero)).
Proof.
  exact (proj1 (set_fen_position_forgets _ fools_mate mcumax_zero
                  eq_refl eq_refl)).
Defined.

Lemma set_fen_position_well_formed_witness :
  well_formed (mcumax_set_fen_position "9z/K?Kk w KQkqx i9" mcumax_zero).
Proof.
  refine (proj1 (set_fen_position_well_formed _ mcumax_zero eq_refl _)).
  apply bytes_forallb. reflexivity.
Defined.

Lemma get_fen_complete_witness :
  mcumax_get_fen start_position (Some (repeat "#"%char 40)) 40
  = Some (repeat "#"%char 40)
  /\ exists text,
       mcumax_get_fen start_position (Some (repeat "#"%char 100)) 100
       = Some (text ++ zero :: drop (S (length text)) (repeat "#"%char 100))
       /\ (length text <= 85)%nat
       /\ Forall (fun c => c <> zero) text.
Proof.
  split.
  - refine (proj1 (proj2 (get_fen_complete start_position
                            (repeat "#"%char 40) 40 eq_refl)) _). lia.
  - refine (proj2 (proj2 (get_fen_complete start_position
                            (repeat "#"%char 100) 100 eq_refl)) _). lia.
Defined.

Lemma start_position_regular : fen_regular start_position.
Proof.
  split.
  - intros sq Hsq. apply on_board_squares in Hsq.
    assert (forallb (fun sq => regular_cell (board_get start_position sq))
              board_squares = true) as H by (vm_compute; reflexivity).
    rewrite forallb_forall in H. now apply H.
  - now left.
  - now left.
Qed.

Lemma fen_round_trip_witness :
  match mcumax_get_fen start_position (Some (repeat "#"%char 100)) 100 with
  | Some written =>
    mcumax.current_side
      (mcumax_set_fen_position (string_of_list_ascii written) fools_mate)
    = mcumax.current_side start_position
  | None => False
  end.
Proof.
  destruct (mcumax_get_fen start_position (Some (repeat "#"%char 100)) 100)
    as [written|] eqn:E.
  - refine (proj1 (proj2 (fen_round_trip start_position fools_mate
                            (repeat "#"%char 100) 100 written
                            start_position_regular _ eq_refl eq_refl E))).
    lia.
  - vm_compute in E. discriminate E.
Defined.

Lemma is_in_check_attacked_witness :
  is_in_check (8 + 0) fools_mate MCUMAX_BOARD_WHITE = Some true <->
  king_scan fools_mate MCUMAX_BOARD_WHITE [0; 1; 2; 3; 4; 5; 6; 7]
    MCUMAX_SQUARE_INVALID <> MCUMAX_SQUARE_INVALID
  /\ attacked fools_mate MCUMAX_BOARD_WHITE
       (king_scan fools_mate MCUMAX_BOARD_WHITE [0; 1; 2; 3; 4; 5; 6; 7]
          MCUMAX_SQUARE_INVALID).
Proof.
  exact (is_in_check_attacked 0 fools_mate MCUMAX_BOARD_WHITE
           (or_introl eq_refl)).
Defined.

Lemma mate_probes_restore_witness :
  match is_checkmate 100 (repeat MCUMAX_MOVE_INVALID 256) MCUMAX_BOARD_WHITE
          fools_mate with
  | Answer b s' =>
    b = true /\ mcumax.board s' = mcumax.board fools_mate
  | _ => False
  end.
Proof.
  destruct (is_checkmate 100 (repeat MCUMAX_MOVE_INVALID 256)
              MCUMAX_BOARD_WHITE fools_mate) as [b s'| |] eqn:E.
  - split.
    + vm_compute in E. now inversion E.
    + exact (proj1 (mate_probes_restore _ _ _ _ _ _ (or_introl E))).
  - vm_compute in E. discriminate E.
  - vm_compute in E. discriminate E.
Defined.

Lemma checkmate_excludes_stalemate_witness :
  match is_checkmate 100 (repeat MCUMAX_MOVE_INVALID 256) MCUMAX_BOARD_WHITE
          fools_mate,
        is_stalemate 100 (repeat MCUMAX_MOVE_INVALID 256) MCUMAX_BOARD_WHITE
          fools_mate with
  | Answer true _, Answer b _ =>
    is_in_check 100 fools_mate MCUMAX_BOARD_WHITE = Some true /\ b = false
  | _, _ => False
  end.
Proof.
  destruct (is_checkmate 100 (repeat MCUMAX_MOVE_INVALID 256)
              MCUMAX_BOARD_WHITE fools_mate) as [[|] s1| |] eqn:E1;
    try (vm_compute in E1; discriminate E1).
  destruct (is_stalemate 100 (repeat MCUMAX_MOVE_INVALID 256)
              MCUMAX_BOARD_WHITE fools_mate) as [b s2| |] eqn:E2;
    try (vm_compute in E2; discriminate E2).
  exact (checkmate_excludes_stalemate _ _ _ _ _ _ _ _ E1 E2).
Defined.

Lemma mate_probes_stay_in_array_witness :
  match mcumax_search_valid_moves 100 (repeat MCUMAX_MOVE_INVALID 256) 256
          (mcumax.set_current_side MCUMAX_BOARD_WHITE fools_mate) with
  | Some (n, _) =>
    n <= 256
    /\ is_checkmate 100 (repeat MCUMAX_MOVE_INVALID 256) MCUMAX_BOARD_WHITE
         fools_mate <> Overrun
    /\ is_stalemate 100 (repeat MCUMAX_MOVE_INVALID 256) MCUMAX_BOARD_WHITE
         fools_mate <> Overrun
  | None => False
  end.
Proof.
  destruct (mcumax_search_valid_moves 100 (repeat MCUMAX_MOVE_INVALID 256)
              256 (mcumax.set_current_side MCUMAX_BOARD_WHITE fools_mate))
    as [[n s']|] eqn:E.
  - assert (n <= 256) as Hn.
    { pose proof E as E'. vm_compute in E'. injection E' as <- _. lia. }
    split; [exact Hn|].
    exact (mate_probes_stay_in_array 100 (repeat MCUMAX_MOVE_INVALID 256)
             _ _ _ _ eq_refl E Hn).
  - vm_compute in E. discriminate E.
Defined.

Lemma stop_request_ends_search_witness :
  (exists s',
     mcumax_search_best_move 2 1000 5 stopping
     = Some (MCUMAX_MOVE_INVALID, s')
     /\ mcumax.board s' = mcumax.board stopping
     /\ mcumax.current_side s' = mcumax.current_side stopping)
  /\ (exists s',
        mcumax_search_valid_moves 2 [] 0 stopping = Some (0, s')
        /\ mcumax.valid_moves_buffer s' = []).
Proof.
  destruct (stop_request_ends_search 0 stopping (fun _ => true)
              eq_refl eq_refl) as (H1 & _ & H3).
  split; [exact (H1 1000 5)|exact (H3 [] 0)].
Defined.

Lemma searches_restore_position_witness :
  match mcumax_search_valid_moves 100 [] 0 start_position with
  | Some (n, s') =>
    take 128 (mcumax.board s') = take 128 (mcumax.board start_position)
    /\ mcumax.current_side s' = mcumax.current_side start_position
    /\ mcumax.en_passant_square s'
       = mcumax.en_passant_square start_position
    /\ mcumax.score s' = mcumax.score start_position
    /\ mcumax.non_pawn_material s'
       = mcumax.non_pawn_material start_position
  | None => False
  end.
Proof.
  destruct (mcumax_search_valid_moves 100 [] 0 start_position)
    as [[n s']|] eqn:E.
  - exact (proj1 (searches_restore_position 100 start_position
                    start_position_well_formed) [] 0 n s' E).
  - vm_compute in E. discriminate E.
Defined.

Lemma play_move_refused_keeps_position_witness :
  match mcumax_play_move 100 (Move 0x64 0x34) start_position with
  | Some (false, s') =>
    take 128 (mcumax.board s') = take 128 (mcumax.board start_position)
    /\ mcumax.current_side s' = mcumax.current_side start_position
  | _ => False
  end.
Proof.
  destruct (mcumax_play_move 100 (Move 0x64 0x34) start_position)
    as [[[|] s']|] eqn:E.
  - vm_compute in E. discriminate E.
  - refine ((fun H => conj (proj1 H) (proj1 (proj2 H)))
              (play_move_refused_keeps_position _ _ _ _
                 start_position_well_formed _ E)).
    unfold MCUMAX_SCORE_MAX. cbn. lia.
  - vm_compute in E. discriminate E.
Defined.

Lemma operations_keep_well_formed_witness :
  well_formed (mcumax_init start_position)
  /\ forall move played s',
       mcumax_play_move 100 move start_position = Some (played, s') ->
       well_formed s'.
Proof.
  destruct (operations_keep_well_formed 100 start_position
              start_position_well_formed) as (H1 & H2 & _).
  split; [exact H1|exact H2].
Defined.

Lemma valid_moves_on_board_witness :
  match mcumax_search_valid_moves 100 (repeat MCUMAX_MOVE_INVALID 32) 32
          start_position with
  | Some (n, s') =>
    forall (i : nat) (move : mcumax_move),
      Z.of_nat i < n -> Z.of_nat i < 32 ->
      mcumax.valid_moves_buffer s' !! i = Some move ->
      on_board (from move) /\ on_board (to move)
  | None => False
  end.
Proof.
  destruct (mcumax_search_valid_moves 100 (repeat MCUMAX_MOVE_INVALID 32) 32
              start_position) as [[n s']|] eqn:E.
  - exact (valid_moves_on_board _ _ _ _ _ _ E).
  - vm_compute in E. discriminate E.
Defined.
